(** * Kodi-board API: a shallow embedding of the request handlers

    The development follows the Python sources: [auth.py] (identity
    resolver), [db.py] (session-context binder), [app/storage.py] (object
    storage adapter) and [main.py] (resource handlers).

    Conventions of the embedding:
    - a Python [str] is a [string]; a character is a code point below 256.
      [str.strip] uses Python's white-space set restricted to that range and
      [str.lower] acts on the ASCII letters (the other code points below 256
      that it changes are not in any character class the sources test);
    - [None] is [option]'s [None]; SQL [NULL] likewise;
    - a table is the list of its rows, in table order;
    - values drawn from [secrets] and [uuid] are arguments of the handlers;
    - a handler is a computation over the world (database and object store)
      that returns a value or raises; statements run in autocommit, so what
      was written before an exception stays written. *)

From Stdlib Require Import String Ascii List ZArith NArith Lia Bool Arith.
Import ListNotations.

Local Open Scope string_scope.
Local Open Scope list_scope.

(** ** Python string primitives *)

Module PyStr.

Definition code (c : ascii) : N := N_of_ascii c.

Definition between (lo hi : N) (c : ascii) : bool :=
  (lo <=? code c)%N && (code c <=? hi)%N.

Definition is_lower (c : ascii) : bool := between 97 122 c.
Definition is_upper (c : ascii) : bool := between 65 90 c.
Definition is_digit (c : ascii) : bool := between 48 57 c.

(** [str.isspace] on code points below 256: TAB..CR, FS..US, space, NEL
    and the no-break space. *)
Definition is_space (c : ascii) : bool :=
  between 9 13 c || between 28 32 c || (code c =? 133)%N || (code c =? 160)%N.

Definition lower_char (c : ascii) : ascii :=
  if is_upper c then ascii_of_N (code c + 32) else c.

Fixpoint lower (s : string) : string :=
  match s with
  | EmptyString => EmptyString
  | String c r => String (lower_char c) (lower r)
  end.

Definition is_empty (s : string) : bool :=
  match s with EmptyString => true | _ => false end.

Fixpoint lstrip_by (p : ascii -> bool) (s : string) : string :=
  match s with
  | EmptyString => EmptyString
  | String c r => if p c then lstrip_by p r else s
  end.

Fixpoint rstrip_by (p : ascii -> bool) (s : string) : string :=
  match s with
  | EmptyString => EmptyString
  | String c r =>
      let r' := rstrip_by p r in
      if is_empty r' && p c then EmptyString else String c r'
  end.

Definition strip_by (p : ascii -> bool) (s : string) : string :=
  rstrip_by p (lstrip_by p s).

(** [s.strip()] *)
Definition strip (s : string) : string := strip_by is_space s.

(** [s.strip(chars)] for a one-character [chars] *)
Definition strip_char (ch : ascii) (s : string) : string :=
  strip_by (Ascii.eqb ch) s.

(** [re.sub(r"[^...]+", repl, s)] for a negated class [keep]: every
    maximal run of characters outside the class becomes one [repl]. *)
Fixpoint sub_runs (keep : ascii -> bool) (repl : ascii) (in_run : bool)
         (s : string) : string :=
  match s with
  | EmptyString => EmptyString
  | String c r =>
      if keep c then String c (sub_runs keep repl false r)
      else if in_run then sub_runs keep repl true r
           else String repl (sub_runs keep repl true r)
  end.

(** [re.sub(r"[^...]", repl, s)]: every character outside the class is
    replaced on its own. *)
Fixpoint sub_each (keep : ascii -> bool) (repl : ascii) (s : string) : string :=
  match s with
  | EmptyString => EmptyString
  | String c r => String (if keep c then c else repl) (sub_each keep repl r)
  end.

(** [s.split(sep)] for a one-character separator; never the empty list. *)
Fixpoint split (sep : ascii) (s : string) : list string :=
  match s with
  | EmptyString => [EmptyString]
  | String c r =>
      if Ascii.eqb c sep then EmptyString :: split sep r
      else match split sep r with
           | [] => [String c EmptyString]
           | w :: ws => String c w :: ws
           end
  end.

(** [s.split(sep)[0]] *)
Definition split_head (sep : ascii) (s : string) : string :=
  hd EmptyString (split sep s).

(** [s[:n]] *)
Fixpoint take (n : nat) (s : string) : string :=
  match n, s with
  | S n', String c r => String c (take n' r)
  | _, _ => EmptyString
  end.

(** [s.startswith(prefix)] *)
Definition startswith (pre s : string) : bool := String.prefix pre s.

(** Python truthiness of a [str | None]. *)
Definition truthy (v : option string) : bool :=
  match v with
  | Some s => negb (is_empty s)
  | None => false
  end.

(** [a or b] on [str | None] values. *)
Definition or_else (a b : option string) : option string :=
  if truthy a then a else b.

End PyStr.

(** ** main.py: pure helpers *)

Definition normalize_privacy (value : option string) : string :=
  match value with
  | Some v =>
      if (v =? "public") || (v =? "private") || (v =? "link_only") then v
      else if v =? "link-only" then "link_only"
      else "link_only"
  | None => "link_only"
  end.

Definition is_slug_char (c : ascii) : bool := PyStr.is_lower c || PyStr.is_digit c.

Definition slugify (tag : string) : string :=
  let tag := PyStr.lower (PyStr.strip tag) in
  let tag := PyStr.sub_runs is_slug_char "-" false tag in
  PyStr.strip_char "-" tag.

Definition normalize_tags (raw : option string) : list string :=
  if PyStr.truthy raw then
    match raw with
    | Some r =>
        let tags := map PyStr.strip (PyStr.split "," r) in
        filter (fun tag => negb (PyStr.is_empty tag)) tags
    | None => []
    end
  else [].

(** ** hashlib.sha256: FIPS 180-4 on 32-bit words held in [Z] *)

Module Sha256.
Local Open Scope Z_scope.

Definition mask32 : Z := 4294967295.
Definition add32 (x y : Z) : Z := Z.land (x + y) mask32.
Definition rotr (n x : Z) : Z :=
  Z.lor (Z.shiftr x n) (Z.land (Z.shiftl x (32 - n)) mask32).
Definition not32 (x : Z) : Z := Z.lxor x mask32.

Definition Ch (x y z : Z) : Z := Z.lxor (Z.land x y) (Z.land (not32 x) z).
Definition Maj (x y z : Z) : Z :=
  Z.lxor (Z.lxor (Z.land x y) (Z.land x z)) (Z.land y z).
Definition Sigma0 (x : Z) : Z := Z.lxor (Z.lxor (rotr 2 x) (rotr 13 x)) (rotr 22 x).
Definition Sigma1 (x : Z) : Z := Z.lxor (Z.lxor (rotr 6 x) (rotr 11 x)) (rotr 25 x).
Definition sigma0 (x : Z) : Z := Z.lxor (Z.lxor (rotr 7 x) (rotr 18 x)) (Z.shiftr x 3).
Definition sigma1 (x : Z) : Z := Z.lxor (Z.lxor (rotr 17 x) (rotr 19 x)) (Z.shiftr x 10).

(** The round constants: the first 32 bits of the fractional parts of the
    cube roots of the first 64 primes. *)
Definition K : list Z :=
  [ 1116352408; 1899447441; 3049323471; 3921009573;
    961987163; 1508970993; 2453635748; 2870763221;
    3624381080; 310598401; 607225278; 1426881987;
    1925078388; 2162078206; 2614888103; 3248222580;
    3835390401; 4022224774; 264347078; 604807628;
    770255983; 1249150122; 1555081692; 1996064986;
    2554220882; 2821834349; 2952996808; 3210313671;
    3336571891; 3584528711; 113926993; 338241895;
    666307205; 773529912; 1294757372; 1396182291;
    1695183700; 1986661051; 2177026350; 2456956037;
    2730485921; 2820302411; 3259730800; 3345764771;
    3516065817; 3600352804; 4094571909; 275423344;
    430227734; 506948616; 659060556; 883997877;
    958139571; 1322822218; 1537002063; 1747873779;
    1955562222; 2024104815; 2227730452; 2361852424;
    2428436474; 2756734187; 3204031479; 3329325298 ].

Record state := mkState { ha : Z; hb : Z; hc : Z; hd : Z;
                          he : Z; hf : Z; hg : Z; hh : Z }.

(** The initial hash value: the first 32 bits of the fractional parts of the
    square roots of the first 8 primes. *)
Definition H0 : state :=
  mkState 1779033703 3144134277 1013904242 2773480762
          1359893119 2600822924 528734635 1541459225.

(** One round; [w] is the schedule word of the round. *)
Definition round (s : state) (k w : Z) : state :=
  let t1 := add32 (add32 (add32 (add32 (hh s) (Sigma1 (he s)))
                                (Ch (he s) (hf s) (hg s))) k) w in
  let t2 := add32 (Sigma0 (ha s)) (Maj (ha s) (hb s) (hc s)) in
  mkState (add32 t1 t2) (ha s) (hb s) (hc s) (add32 (hd s) t1) (he s) (hf s) (hg s).

(** The schedule is kept as a window of the sixteen latest words, oldest
    first; each round consumes the oldest and appends the next. *)
Definition next_word (win : list Z) : Z :=
  add32 (add32 (add32 (sigma1 (nth 14 win 0)) (nth 9 win 0))
               (sigma0 (nth 1 win 0))) (nth 0 win 0).

Fixpoint rounds (ks : list Z) (win : list Z) (s : state) : state :=
  match ks with
  | [] => s
  | k :: ks' =>
      rounds ks' (tl win ++ [next_word win]) (round s k (nth 0 win 0))
  end.

Definition compress (s : state) (block : list Z) : state :=
  let r := rounds K block s in
  mkState (add32 (ha s) (ha r)) (add32 (hb s) (hb r)) (add32 (hc s) (hc r))
          (add32 (hd s) (hd r)) (add32 (he s) (he r)) (add32 (hf s) (hf r))
          (add32 (hg s) (hg r)) (add32 (hh s) (hh r)).

(** Big-endian packing of bytes into 32-bit words. *)
Fixpoint words_of_bytes (bs : list Z) : list Z :=
  match bs with
  | b0 :: b1 :: b2 :: b3 :: r =>
      Z.lor (Z.shiftl b0 24) (Z.lor (Z.shiftl b1 16) (Z.lor (Z.shiftl b2 8) b3))
      :: words_of_bytes r
  | _ => []
  end.

Definition be64 (n : Z) : list Z :=
  map (fun i => Z.land (Z.shiftr n (8 * (7 - Z.of_nat i))) 255) (seq 0 8).

(** Padding: a 1 bit, zeros up to 56 modulo 64, then the bit length. *)
Definition pad (msg : list Z) : list Z :=
  let len := Z.of_nat (length msg) in
  let zeros := Z.to_nat ((55 - len) mod 64) in
  msg ++ [128] ++ repeat 0 zeros ++ be64 (8 * len).

Fixpoint blocks (fuel : nat) (ws : list Z) (s : state) : state :=
  match fuel, ws with
  | S fuel', _ :: _ => blocks fuel' (skipn 16 ws) (compress s (firstn 16 ws))
  | _, _ => s
  end.

Definition digest (msg : list Z) : state :=
  let ws := words_of_bytes (pad msg) in
  blocks (length ws) ws H0.

Definition hex_digit (n : Z) : ascii :=
  let d := Z.to_N (Z.land n 15) in
  if (d <? 10)%N then ascii_of_N (48 + d) else ascii_of_N (87 + d).

Definition hex32 (w : Z) (rest : string) : string :=
  String (hex_digit (Z.shiftr w 28)) (String (hex_digit (Z.shiftr w 24))
 (String (hex_digit (Z.shiftr w 20)) (String (hex_digit (Z.shiftr w 16))
 (String (hex_digit (Z.shiftr w 12)) (String (hex_digit (Z.shiftr w 8))
 (String (hex_digit (Z.shiftr w 4))  (String (hex_digit w) rest))))))).

Definition hex_of_state (s : state) : string :=
  hex32 (ha s) (hex32 (hb s) (hex32 (hc s) (hex32 (hd s)
 (hex32 (he s) (hex32 (hf s) (hex32 (hg s) (hex32 (hh s) EmptyString))))))).

(** [s.encode("utf-8")] for code points below 256. *)
Fixpoint utf8 (s : string) : list Z :=
  match s with
  | EmptyString => []
  | String c r =>
      let n := Z.of_N (N_of_ascii c) in
      if n <? 128 then n :: utf8 r
      else Z.lor 192 (Z.shiftr n 6) :: Z.lor 128 (Z.land n 63) :: utf8 r
  end.

(** [hashlib.sha256(s.encode("utf-8")).hexdigest()] *)
Definition hexdigest (s : string) : string := hex_of_state (digest (utf8 s)).

End Sha256.


(** ** secrets.token_urlsafe *)

Module Secrets.
Local Open Scope N_scope.

(** The URL-safe base64 alphabet: A-Z, a-z, 0-9, '-' and '_'. *)
Definition b64_char (n : N) : ascii :=
  let n := N.land n 63 in
  if n <? 26 then ascii_of_N (65 + n)
  else if n <? 52 then ascii_of_N (71 + n)
  else if n <? 62 then ascii_of_N (n - 4)
  else if n =? 62 then "-"%char else "_"%char.

(** [base64.urlsafe_b64encode], with its '=' padding. *)
Fixpoint urlsafe_b64encode (bs : list ascii) : string :=
  match bs with
  | [] => EmptyString
  | [a] =>
      let x := N_of_ascii a in
      String (b64_char (N.shiftr x 2))
     (String (b64_char (N.shiftl x 4)) "==")
  | [a; b] =>
      let x := N_of_ascii a in
      let y := N_of_ascii b in
      String (b64_char (N.shiftr x 2))
     (String (b64_char (N.lor (N.shiftl x 4) (N.shiftr y 4)))
     (String (b64_char (N.shiftl y 2)) "="))
  | a :: b :: c :: r =>
      let x := N_of_ascii a in
      let y := N_of_ascii b in
      let z := N_of_ascii c in
      String (b64_char (N.shiftr x 2))
     (String (b64_char (N.lor (N.shiftl x 4) (N.shiftr y 4)))
     (String (b64_char (N.lor (N.shiftl y 2) (N.shiftr z 6)))
     (String (b64_char z) (urlsafe_b64encode r))))
  end.

(** The operating system's entropy source, as the stream of bytes it
    hands out. *)
Definition entropy := nat -> ascii.

(** [secrets.token_bytes(n)] *)
Definition token_bytes (rng : entropy) (n : nat) : list ascii :=
  map rng (seq 0 n).

(** [secrets.token_urlsafe(n)]:
    [base64.urlsafe_b64encode(token_bytes(n)).rstrip(b'=').decode('ascii')] *)
Definition token_urlsafe (rng : entropy) (n : nat) : string :=
  PyStr.rstrip_by (Ascii.eqb "=") (urlsafe_b64encode (token_bytes rng n)).

End Secrets.

(** ** Data model: the relational tables *)

Record Profile := mkProfile {
  profile_id : string;
  profile_handle : option string;
  profile_display_name : option string;
  profile_avatar_url : option string }.

Record Sound := mkSound {
  sound_id : string;
  sound_owner_id : option string;
  sound_name : string;
  sound_description : option string;
  sound_storage_path : string;
  sound_size_bytes : nat;
  sound_format : option string;
  sound_privacy : string;
  sound_duration_seconds : option Z;
  sound_created_at : option nat }.

Record Tag := mkTag {
  tag_id : nat;
  tag_slug : string;
  tag_display : string }.

Record SoundTag := mkSoundTag {
  st_sound_id : string;
  st_tag_id : nat }.

Record Playlist := mkPlaylist {
  playlist_id : string;
  playlist_owner_id : string;
  playlist_name : string;
  playlist_description : option string;
  playlist_privacy : string;
  playlist_share_token_hash : option string;
  playlist_created_at : option nat }.

Record PlaylistSound := mkPlaylistSound {
  ps_playlist_id : string;
  ps_sound_id : string;
  ps_position : option Z }.

(** The tables, with what the database supplies on its own: the sequence
    behind [tags.id] and the column default of [created_at]. *)
Record Tables := mkTables {
  profiles : list Profile;
  sounds : list Sound;
  tags : list Tag;
  sound_tags : list SoundTag;
  playlists : list Playlist;
  playlist_sounds : list PlaylistSound;
  tags_id_seq : nat;
  default_created_at : option nat }.

(** ** Row-level security

    The handlers delegate authorization to the policies of the database,
    which are not part of the repository. The decision the database takes
    for a row, a command and the context a handle was bound with is a
    parameter of the model. A policy is a filter for SELECT, UPDATE and
    DELETE (rows it rejects are not seen by the statement) and a check for
    INSERT (a rejected row makes the statement fail). *)

Inductive Scope :=
| UserScope (sub : string) (role : option string)
| ServiceScope.

Inductive Command := SELECT | INSERT | UPDATE | DELETE.

Inductive Row :=
| ProfileRow (r : Profile)
| SoundRow (r : Sound)
| TagRow (r : Tag)
| SoundTagRow (r : SoundTag)
| PlaylistRow (r : Playlist)
| PlaylistSoundRow (r : PlaylistSound).

Definition RowSecurity := Scope -> Command -> Tables -> Row -> bool.

(** ** Exceptions, collaborators and the handler monad *)

(** The first positional argument of a [StorageException]: a [dict], of
    which the handlers read ["message"], or something else. *)
Inductive StorageArg :=
| ArgDict (message : option string)
| ArgOther (text : string).

Inductive JwtError :=
| ExpiredSignatureError
| PyJWTError.

Inductive Exn :=
| HTTPException (status_code : nat) (detail : string)
| StorageException (args : list StorageArg)
| PostgresError (message : string)
| RuntimeError (message : string).

Inductive SigningKey :=
| SecretKey (secret : string)
| JwkKey (key : string).

Record UserMetadata := mkUserMetadata {
  md_full_name : option string;
  md_name : option string;
  md_preferred_username : option string;
  md_user_name : option string;
  md_email : option string;
  md_avatar_url : option string;
  md_picture : option string }.

(** The claim [role], which the resolver reads with a default: absent
    from the payload, a JSON null, or a text. *)
Inductive RoleClaim :=
| RoleAbsent
| RoleNull
| RoleText (role : string).

(** The decoded token payload, with the keys the resolver reads; [None] is an
    absent key (or a JSON null). *)
Record Claims := mkClaims {
  claim_sub : option string;
  claim_role : RoleClaim;
  claim_email : option string;
  claim_user_metadata : option UserMetadata }.

(** What the handlers are given and do not change: the PyJWT library, the
    object-storage service's answers, the row policies, the settings. *)
Record Env := mkEnv {
  (* jwt.get_unverified_header(token).get("alg") *)
  jwt_get_unverified_header : string -> JwtError + option string;
  (* PyJWKClient.get_signing_key_from_jwt(token).key *)
  jwt_get_signing_key_from_jwt : string -> JwtError + SigningKey;
  (* jwt.decode(token, key, algorithms=...) *)
  jwt_decode : string -> SigningKey -> list string -> JwtError + Claims;
  supabase_jwt_secret : string;
  (* the store's answer to an upload of data at a path with a content type:
     the arguments of the StorageException, if it fails *)
  storage_upload_error : string -> string -> string -> option (list StorageArg);
  (* the store's answer to a request for a signed URL of a path *)
  storage_signed_url : string -> list StorageArg + string;
  row_security : RowSecurity }.

(** A stored object: its bytes and its content type. *)
Definition Bucket := list (string * (string * string)).

Record State := mkState {
  db : Tables;
  bucket : Bucket;
  pool : bool }.

Inductive Outcome (A : Type) :=
| Return (a : A)
| Raise (e : Exn).
Arguments Return {A} a.
Arguments Raise {A} e.

Definition M (A : Type) : Type := Env -> State -> Outcome A * State.

Definition ret {A} (a : A) : M A := fun _ s => (Return a, s).
Definition raise {A} (e : Exn) : M A := fun _ s => (Raise e, s).
Definition bind {A B} (m : M A) (k : A -> M B) : M B :=
  fun env s =>
    match m env s with
    | (Return a, s') => k a env s'
    | (Raise e, s') => (Raise e, s')
    end.
Definition ask : M Env := fun env s => (Return env, s).
Definition get_tables : M Tables := fun _ s => (Return (db s), s).
Definition put_tables (t : Tables) : M unit :=
  fun _ s => (Return tt, mkState t (bucket s) (pool s)).

Declare Scope handler_scope.
Delimit Scope handler_scope with handler.
Notation "x <- m ;; k" := (bind m (fun x => k))
  (at level 100, m at next level, right associativity) : handler_scope.
Notation "m ;;; k" := (bind m (fun _ => k))
  (at level 100, right associativity) : handler_scope.
Local Open Scope handler_scope.

(** [for x in xs: body(x)] *)
Fixpoint for_each {A} (xs : list A) (body : A -> M unit) : M unit :=
  match xs with
  | [] => ret tt
  | x :: r => body x ;;; for_each r body
  end.

(** ** db.py: the scoped handles

    A handle carries the scope it was bound with. What the binding does to
    the connection is the subject of module [Pg] below. *)

Definition pool_guard : M unit :=
  fun _ s =>
    if pool s then (Return tt, s)
    else (Raise (RuntimeError "Database pool is not initialized."), s).

(** The context [get_db] binds: the caller's, or the anonymous one. *)
Definition bound_scope (user_id : option string) (role : option string) : Scope :=
  if PyStr.truthy user_id
  then UserScope (match user_id with Some u => u | None => "" end) role
  else UserScope "" (Some "anon").

Definition get_db {A} (user_id : option string) (role : option string)
           (body : Scope -> M A) : M A :=
  pool_guard ;;; body (bound_scope user_id role).

Definition get_service_db {A} (body : Scope -> M A) : M A :=
  pool_guard ;;; body ServiceScope.

(** The policy decision for one row. *)
Definition allowed (sc : Scope) (cmd : Command) (r : Row) : M bool :=
  fun env s => (Return (row_security env sc cmd (db s) r), s).

(** ** app/storage.py *)

(** The text of a [str | None] that is known to be a [str]. *)
Definition or_empty (v : option string) : string :=
  match v with Some s => s | None => "" end.

Definition is_safe_char (c : ascii) : bool :=
  PyStr.is_lower c || PyStr.is_upper c || PyStr.is_digit c
  || Ascii.eqb c "." || Ascii.eqb c "_" || Ascii.eqb c "-".

Definition safe_name (value : string) : string :=
  let cleaned := PyStr.sub_each is_safe_char "-" (PyStr.strip value) in
  if PyStr.is_empty cleaned then "sound" else cleaned.

(** [content_type or "application/octet-stream"] *)
Definition upload_content_type (content_type : option string) : string :=
  or_empty (PyStr.or_else content_type (Some "application/octet-stream")).

(** [upload_bytes]: the service either stores the object or answers with an
    error, which the client library raises as a [StorageException]. *)
Definition upload_bytes (path data : string) (content_type : option string) : M unit :=
  fun env s =>
    let ctype := upload_content_type content_type in
    match storage_upload_error env path data ctype with
    | Some args => (Raise (StorageException args), s)
    | None => (Return tt, mkState (db s) ((path, (data, ctype)) :: bucket s) (pool s))
    end.

Definition create_signed_url (path : string) : M string :=
  fun env s =>
    match storage_signed_url env path with
    | inl args => (Raise (StorageException args), s)
    | inr url => (Return url, s)
    end.

(** ** auth.py *)

(** [role] is what [payload.get("role", "authenticated")] gave: a text, or
    [None] for a JSON null. *)
Record AuthUser := mkAuthUser {
  user_id : string;
  user_role : option string }.

Definition unauthorized (detail : string) : Exn := HTTPException 401 detail.

Definition jwt_error (e : JwtError) : Exn :=
  match e with
  | ExpiredSignatureError => unauthorized "Token expired."
  | PyJWTError => unauthorized "Invalid token."
  end.

Definition decode_token (token : string) : M Claims :=
  fun env s =>
    let result :=
      match jwt_get_unverified_header env token with
      | inl e => inl e
      | inr alg =>
          if PyStr.truthy alg
             && PyStr.startswith "HS" (match alg with Some a => a | None => "" end)
          then jwt_decode env token (SecretKey (supabase_jwt_secret env))
                          (match alg with Some a => [a] | None => [] end)
          else match jwt_get_signing_key_from_jwt env token with
               | inl e => inl e
               | inr key =>
                   jwt_decode env token key
                              (if PyStr.truthy alg
                               then match alg with Some a => [a] | None => [] end
                               else ["RS256"; "ES256"])
               end
      end in
    match result with
    | inl e => (Raise (jwt_error e), s)
    | inr claims => (Return claims, s)
    end.

Definition _slugify_handle (value : string) : string :=
  let handle := PyStr.sub_runs is_slug_char "-" false (PyStr.lower (PyStr.strip value)) in
  let handle := PyStr.strip_char "-" handle in
  if PyStr.is_empty handle then "creator" else handle.

Definition no_metadata : UserMetadata :=
  mkUserMetadata None None None None None None None.

(** The values [ensure_profile] computes before its statement. *)
Definition ensure_profile_email (payload : Claims) : option string :=
  let metadata := match claim_user_metadata payload with
                  | Some m => m
                  | None => no_metadata
                  end in
  PyStr.or_else (claim_email payload) (md_email metadata).

Definition ensure_profile_display_name (payload : Claims) : option string :=
  let metadata := match claim_user_metadata payload with
                  | Some m => m
                  | None => no_metadata
                  end in
  let email := ensure_profile_email payload in
  let display_name :=
    PyStr.or_else (md_full_name metadata)
      (PyStr.or_else (md_name metadata)
         (PyStr.or_else (md_preferred_username metadata) (md_user_name metadata))) in
  if negb (PyStr.truthy display_name) && PyStr.truthy email
  then Some (PyStr.split_head "@" (or_empty email))
  else display_name.

Definition ensure_profile_avatar_url (payload : Claims) : option string :=
  let metadata := match claim_user_metadata payload with
                  | Some m => m
                  | None => no_metadata
                  end in
  PyStr.or_else (md_avatar_url metadata) (md_picture metadata).

Definition ensure_profile_handle (uid : string) (payload : Claims) : string :=
  let email := ensure_profile_email payload in
  let display_name := ensure_profile_display_name payload in
  let base_handle :=
    _slugify_handle
      (if PyStr.truthy display_name then or_empty display_name
       else if PyStr.truthy email then PyStr.split_head "@" (or_empty email)
            else "creator") in
  (base_handle ++ "-" ++ PyStr.take 6 uid)%string.

(** [COALESCE(a, b)] and [NULLIF(a, '')] *)
Definition COALESCE {A} (a b : option A) : option A :=
  match a with Some _ => a | None => b end.

Definition NULLIF_empty (a : option string) : option string :=
  match a with
  | Some s => if PyStr.is_empty s then None else a
  | None => None
  end.

(** The row [ON CONFLICT (id) DO UPDATE] leaves for an existing profile. *)
Definition merge_profile (old excluded : Profile) : Profile :=
  mkProfile (profile_id old)
            (COALESCE (profile_handle old) (profile_handle excluded))
            (COALESCE (NULLIF_empty (profile_display_name old))
                      (profile_display_name excluded))
            (COALESCE (NULLIF_empty (profile_avatar_url old))
                      (profile_avatar_url excluded)).

Definition set_profiles (t : Tables) (ps : list Profile) : Tables :=
  mkTables ps (sounds t) (tags t) (sound_tags t) (playlists t)
           (playlist_sounds t) (tags_id_seq t) (default_created_at t).

Definition rls_violation : Exn :=
  PostgresError "new row violates row-level security policy".

(** [INSERT INTO profiles ... ON CONFLICT (id) DO UPDATE SET ...]: on the
    insert path the proposed row must pass the INSERT check; on a conflict
    the existing row must be open to UPDATE. *)
Definition upsert_profile (sc : Scope) (row : Profile) : M unit :=
  t <- get_tables ;;
  match find (fun p => profile_id p =? profile_id row) (profiles t) with
  | Some old =>
      ok <- allowed sc UPDATE (ProfileRow old) ;;
      if negb ok then raise rls_violation
      else put_tables
             (set_profiles t
                (map (fun p => if profile_id p =? profile_id row
                               then merge_profile p row else p)
                     (profiles t)))
  | None =>
      ok <- allowed sc INSERT (ProfileRow row) ;;
      if negb ok then raise rls_violation
      else put_tables (set_profiles t (profiles t ++ [row]))
  end.

Definition ensure_profile (uid : string) (payload : Claims) : M unit :=
  let display_name := ensure_profile_display_name payload in
  let avatar_url := ensure_profile_avatar_url payload in
  let handle := ensure_profile_handle uid payload in
  get_service_db (fun conn =>
    upsert_profile conn (mkProfile uid (Some handle) display_name avatar_url)).

(** [payload.get("role", "authenticated")]: the default stands in for an
    absent key only. *)
Definition role_or_default (payload : Claims) : option string :=
  match claim_role payload with
  | RoleAbsent => Some "authenticated"
  | RoleNull => None
  | RoleText r => Some r
  end.

Definition get_current_user (credentials : option string) : M AuthUser :=
  match credentials with
  | None => raise (unauthorized "Missing bearer token.")
  | Some token =>
      payload <- decode_token token ;;
      let uid := claim_sub payload in
      let role := role_or_default payload in
      if negb (PyStr.truthy uid) then raise (unauthorized "Invalid token.")
      else ensure_profile (or_empty uid) payload ;;;
           ret (mkAuthUser (or_empty uid) role)
  end.

Definition get_optional_user (credentials : option string) : M (option AuthUser) :=
  match credentials with
  | None => ret None
  | Some token =>
      payload <- decode_token token ;;
      let uid := claim_sub payload in
      let role := role_or_default payload in
      if negb (PyStr.truthy uid) then ret None
      else ensure_profile (or_empty uid) payload ;;;
           ret (Some (mkAuthUser (or_empty uid) role))
  end.

(** ** main.py: tags *)

Definition set_sounds (t : Tables) (x : list Sound) : Tables :=
  mkTables (profiles t) x (tags t) (sound_tags t) (playlists t)
           (playlist_sounds t) (tags_id_seq t) (default_created_at t).

Definition set_tags (t : Tables) (x : list Tag) (next : nat) : Tables :=
  mkTables (profiles t) (sounds t) x (sound_tags t) (playlists t)
           (playlist_sounds t) next (default_created_at t).

Definition set_sound_tags (t : Tables) (x : list SoundTag) : Tables :=
  mkTables (profiles t) (sounds t) (tags t) x (playlists t)
           (playlist_sounds t) (tags_id_seq t) (default_created_at t).

Definition set_playlists (t : Tables) (x : list Playlist) : Tables :=
  mkTables (profiles t) (sounds t) (tags t) (sound_tags t) x
           (playlist_sounds t) (tags_id_seq t) (default_created_at t).

Definition set_playlist_sounds (t : Tables) (x : list PlaylistSound) : Tables :=
  mkTables (profiles t) (sounds t) (tags t) (sound_tags t) (playlists t)
           x (tags_id_seq t) (default_created_at t).

(** [INSERT INTO tags (slug, display) ... ON CONFLICT (slug) DO UPDATE SET
    display = EXCLUDED.display RETURNING id] *)
Definition upsert_tag (sc : Scope) (slug display : string) : M nat :=
  t <- get_tables ;;
  match find (fun g => tag_slug g =? slug) (tags t) with
  | Some old =>
      ok <- allowed sc UPDATE (TagRow old) ;;
      if negb ok then raise rls_violation
      else put_tables
             (set_tags t
                (map (fun g => if tag_slug g =? slug
                               then mkTag (tag_id g) (tag_slug g) display else g)
                     (tags t))
                (tags_id_seq t)) ;;;
           ret (tag_id old)
  | None =>
      let row := mkTag (tags_id_seq t) slug display in
      ok <- allowed sc INSERT (TagRow row) ;;
      if negb ok then raise rls_violation
      else put_tables (set_tags t (tags t ++ [row]) (S (tags_id_seq t))) ;;;
           ret (tag_id row)
  end.

Fixpoint ensure_tags (conn : Scope) (tag_list : list string) : M (list nat) :=
  match tag_list with
  | [] => ret []
  | tag :: rest =>
      let slug := slugify tag in
      if PyStr.is_empty slug then ensure_tags conn rest
      else id <- upsert_tag conn slug tag ;;
           ids <- ensure_tags conn rest ;;
           ret (id :: ids)
  end.

(** [INSERT INTO sound_tags (sound_id, tag_id) ... ON CONFLICT DO NOTHING] *)
Definition insert_sound_tag (sc : Scope) (sid : string) (tid : nat) : M unit :=
  t <- get_tables ;;
  if existsb (fun x => (st_sound_id x =? sid) && (st_tag_id x =? tid)%nat) (sound_tags t)
  then ret tt
  else
    let row := mkSoundTag sid tid in
    ok <- allowed sc INSERT (SoundTagRow row) ;;
    if negb ok then raise rls_violation
    else put_tables (set_sound_tags t (sound_tags t ++ [row])).

Definition attach_tags (conn : Scope) (sid : string) (tag_list : list string)
  : M (list string) :=
  tag_ids <- ensure_tags conn tag_list ;;
  match tag_ids with
  | [] => ret []
  | _ => for_each tag_ids (fun tid => insert_sound_tag conn sid tid) ;;;
         ret tag_list
  end.

(** ** main.py: profiles and response rows *)

(** A [dict] built by a comprehension over rows: a later row with the same
    key replaces an earlier one. *)
Definition dict_get (key : string) (rows : list Profile) : option Profile :=
  find (fun p => profile_id p =? key) (rev rows).

Fixpoint dedup (ids : list string) : list string :=
  match ids with
  | [] => []
  | i :: r => if existsb (String.eqb i) r then dedup r else i :: dedup r
  end.

(** [WHERE id = ANY($1::uuid[])]: an id is held as the text of its uuid
    value, as [str] prints it, and ids are compared as these texts. What
    the cast does with a text of another form is not modelled. *)
Definition fetch_profiles (profile_ids : list string) : M (list Profile) :=
  match profile_ids with
  | [] => ret []
  | _ =>
      let unique_ids := dedup (filter (fun pid => negb (PyStr.is_empty pid)) profile_ids) in
      get_service_db (fun conn =>
        t <- get_tables ;;
        env <- ask ;;
        ret (filter (fun p => existsb (String.eqb (profile_id p)) unique_ids
                              && row_security env conn SELECT t (ProfileRow p))
                    (profiles t)))
  end.

(** [str(x)] of a nullable text column *)
Definition str_of (v : option string) : string :=
  match v with Some s => s | None => "None" end.

Record SoundOut := mkSoundOut {
  out_id : string;
  out_name : string;
  out_url : string;
  out_tags : list string;
  out_privacy : string;
  out_duration_seconds : option Z;
  out_created_at : option nat;
  out_owner_id : option string;
  out_creator : option Profile }.

(** A row of the sound queries: the sound and its aggregated tag names. *)
Definition SoundTagsRow : Type := Sound * list string.

Definition map_sound_row (row : SoundTagsRow) (signed_url : string)
           (creator : option Profile) : SoundOut :=
  let s := fst row in
  mkSoundOut (sound_id s) (sound_name s) signed_url (snd row) (sound_privacy s)
             (sound_duration_seconds s) (sound_created_at s)
             (if PyStr.truthy (sound_owner_id s) then sound_owner_id s else None)
             creator.

(** [ORDER BY ps.position ASC NULLS LAST, s.created_at DESC] *)
Definition position_lt (a b : option Z) : bool :=
  match a, b with
  | Some x, Some y => (x <? y)%Z
  | Some _, None => true
  | None, _ => false
  end.

Definition created_before_desc (a b : option nat) : bool :=
  match a, b with
  | None, Some _ => true
  | Some x, Some y => (y <? x)%nat
  | _, None => false
  end.

Definition position_eq (a b : option Z) : bool :=
  negb (position_lt a b) && negb (position_lt b a).

Definition ordered_before (a b : PlaylistSound * SoundTagsRow) : bool :=
  position_lt (ps_position (fst a)) (ps_position (fst b))
  || (position_eq (ps_position (fst a)) (ps_position (fst b))
      && created_before_desc (sound_created_at (fst (snd a)))
                             (sound_created_at (fst (snd b)))).

Fixpoint insert_ordered (x : PlaylistSound * SoundTagsRow)
         (l : list (PlaylistSound * SoundTagsRow)) :=
  match l with
  | [] => [x]
  | y :: r => if ordered_before y x || negb (ordered_before x y)
              then y :: insert_ordered x r else x :: l
  end.

Definition order_rows (l : list (PlaylistSound * SoundTagsRow)) :=
  fold_left (fun acc x => insert_ordered x acc) l [].

(** The sounds of a playlist with their tag names: the query shared by
    [get_playlist] and [get_playlist_share]. Rows the policy hides from the
    handle do not take part in the join. *)
Definition select_playlist_sounds (sc : Scope) (pid : string) : M (list SoundTagsRow) :=
  t <- get_tables ;;
  env <- ask ;;
  let visible := row_security env sc SELECT t in
  let tag_names (s : Sound) :=
    flat_map (fun st =>
                map tag_display
                    (filter (fun g => (tag_id g =? st_tag_id st)%nat && visible (TagRow g))
                            (tags t)))
             (filter (fun st => (st_sound_id st =? sound_id s) && visible (SoundTagRow st))
                     (sound_tags t)) in
  let joined :=
    flat_map (fun ps =>
                map (fun s => (ps, (s, tag_names s)))
                    (filter (fun s => (sound_id s =? ps_sound_id ps) && visible (SoundRow s))
                            (sounds t)))
             (filter (fun ps => (ps_playlist_id ps =? pid) && visible (PlaylistSoundRow ps))
                     (playlist_sounds t)) in
  ret (map snd (order_rows joined)).

Fixpoint sign_rows (rows : list SoundTagsRow) (profile_map : list Profile)
  : M (list SoundOut) :=
  match rows with
  | [] => ret []
  | row :: rest =>
      signed_url <- create_signed_url (sound_storage_path (fst row)) ;;
      let out := map_sound_row row signed_url
                   (dict_get (str_of (sound_owner_id (fst row))) profile_map) in
      outs <- sign_rows rest profile_map ;;
      ret (out :: outs)
  end.

(** ** main.py: playlists *)

Record PlaylistCreate := mkPlaylistCreate {
  create_name : string;
  create_description : option string;
  create_privacy : string }.

Record PlaylistOut := mkPlaylistOut {
  pout_id : string;
  pout_owner_id : string;
  pout_name : string;
  pout_description : option string;
  pout_privacy : string;
  pout_created_at : option nat;
  pout_sound_count : nat;
  pout_share_token : option string;
  pout_creator : option Profile }.

Definition create_playlist (payload : PlaylistCreate) (current_user : AuthUser)
           (uuid4 : string) (rng : Secrets.entropy) : M PlaylistOut :=
  let privacy := normalize_privacy (Some (create_privacy payload)) in
  let share_token := Secrets.token_urlsafe rng 16 in
  let share_token_hash := Sha256.hexdigest share_token in
  row <- get_db (Some (user_id current_user)) (user_role current_user) (fun conn =>
           t <- get_tables ;;
           let row := mkPlaylist uuid4 (user_id current_user) (create_name payload)
                                 (create_description payload) privacy
                                 (Some share_token_hash) (default_created_at t) in
           ok <- allowed conn INSERT (PlaylistRow row) ;;
           if negb ok then raise rls_violation
           else put_tables (set_playlists t (playlists t ++ [row])) ;;; ret row) ;;
  ret (mkPlaylistOut (playlist_id row) (user_id current_user) (playlist_name row)
                     (playlist_description row) (playlist_privacy row)
                     (playlist_created_at row) 0 (Some share_token) None).

Definition not_found (detail : string) : Exn := HTTPException 404 detail.

Definition with_share_token_hash (p : Playlist) (h : string) : Playlist :=
  mkPlaylist (playlist_id p) (playlist_owner_id p) (playlist_name p)
             (playlist_description p) (playlist_privacy p) (Some h)
             (playlist_created_at p).

Definition rotate_share_token (pid : string) (current_user : AuthUser)
           (rng : Secrets.entropy) : M string :=
  let share_token := Secrets.token_urlsafe rng 16 in
  let share_token_hash := Sha256.hexdigest share_token in
  row <- get_db (Some (user_id current_user)) (user_role current_user) (fun conn =>
           t <- get_tables ;;
           env <- ask ;;
           let hit p := (playlist_id p =? pid)
                        && row_security env conn UPDATE t (PlaylistRow p) in
           put_tables
             (set_playlists t
                (map (fun p => if hit p then with_share_token_hash p share_token_hash else p)
                     (playlists t))) ;;;
           ret (find hit (playlists t))) ;;
  match row with
  | None => raise (not_found "Playlist not found.")
  | Some _ => ret share_token
  end.

Record PlaylistDetail := mkPlaylistDetail {
  detail_playlist : PlaylistOut;
  detail_sounds : list SoundOut }.

(** [WHERE share_token_hash = $1 AND privacy = 'link_only'], on the rows the
    policy shows to the handle. *)
Definition share_link_row (env : Env) (sc : Scope) (token_hash : string) (t : Tables)
           (p : Playlist) : bool :=
  match playlist_share_token_hash p with
  | Some h => h =? token_hash
  | None => false
  end
  && (playlist_privacy p =? "link_only")
  && row_security env sc SELECT t (PlaylistRow p).

Definition get_playlist_share (token : string) : M PlaylistDetail :=
  let token_hash := Sha256.hexdigest token in
  found <- get_service_db (fun conn =>
             t <- get_tables ;;
             env <- ask ;;
             match find (share_link_row env conn token_hash t) (playlists t) with
             | None => raise (not_found "Share link not found.")
             | Some playlist =>
                 rows <- select_playlist_sounds conn (playlist_id playlist) ;;
                 ret (playlist, rows)
             end) ;;
  let playlist := fst found in
  let rows := snd found in
  profile_map <- fetch_profiles
                   (playlist_owner_id playlist
                    :: map (fun row => str_of (sound_owner_id (fst row)))
                           (filter (fun row => PyStr.truthy (sound_owner_id (fst row))) rows)) ;;
  mapped_sounds <- sign_rows rows profile_map ;;
  ret (mkPlaylistDetail
         (mkPlaylistOut (playlist_id playlist) (playlist_owner_id playlist)
                        (playlist_name playlist) (playlist_description playlist)
                        (playlist_privacy playlist) (playlist_created_at playlist)
                        (length mapped_sounds) None
                        (dict_get (playlist_owner_id playlist) profile_map))
         mapped_sounds).

Definition with_position (ps : PlaylistSound) (pos : Z) : PlaylistSound :=
  mkPlaylistSound (ps_playlist_id ps) (ps_sound_id ps) (Some pos).

(** [UPDATE playlist_sounds SET position = $1 WHERE playlist_id = $2 AND
    sound_id = $3] *)
Definition update_position (sc : Scope) (index : Z) (pid sid : string) : M unit :=
  t <- get_tables ;;
  env <- ask ;;
  put_tables
    (set_playlist_sounds t
       (map (fun ps => if (ps_playlist_id ps =? pid) && (ps_sound_id ps =? sid)
                          && row_security env sc UPDATE t (PlaylistSoundRow ps)
                       then with_position ps index else ps)
            (playlist_sounds t))).

(** [enumerate(xs, start)] *)
Fixpoint enumerate {A} (xs : list A) (start : Z) : list (Z * A) :=
  match xs with
  | [] => []
  | x :: r => (start, x) :: enumerate r (start + 1)
  end.

Definition reorder_playlist_sounds (pid : string) (sound_ids : list string)
           (current_user : AuthUser) : M bool :=
  get_db (Some (user_id current_user)) (user_role current_user) (fun conn =>
    for_each (enumerate sound_ids 1)
             (fun '(index, sid) => update_position conn index pid sid)) ;;;
  ret true.

(** ** main.py: sounds *)

Record UploadFile := mkUploadFile {
  file_filename : option string;
  file_content_type : option string;
  file_data : string }.

Definition bad_request (detail : string) : Exn := HTTPException 400 detail.
Definition bad_gateway (detail : string) : Exn := HTTPException 502 detail.

(** The [except StorageException as exc] clause of [create_sound]. *)
Definition upload_failure_detail (args : list StorageArg) : string :=
  match args with
  | ArgDict message :: _ =>
      or_empty (PyStr.or_else message (Some "Storage upload failed."))
  | _ => "Storage upload failed."
  end.

(** [try: ... except StorageException as exc: handler(exc.args)] *)
Definition except_StorageException {A} (body : M A) (handler : list StorageArg -> M A)
  : M A :=
  fun env s =>
    match body env s with
    | (Raise (StorageException args), s') => handler args env s'
    | r => r
    end.

(** [display_name] and [storage_path] as [create_sound] computes them. *)
Definition create_sound_display_name (file : UploadFile) (name : string) : option string :=
  if negb (PyStr.is_empty (PyStr.strip name)) then Some (PyStr.strip name)
  else file_filename file.

Definition create_sound_storage_path (file : UploadFile) (display_name : string)
           (current_user : AuthUser) (sid : string) : string :=
  let filename :=
    safe_name (or_empty (PyStr.or_else (file_filename file) (Some display_name))) in
  (user_id current_user ++ "/" ++ sid ++ "/" ++ filename)%string.

Definition create_sound (file : UploadFile) (name description tag_text privacy : string)
           (current_user : AuthUser) (uuid4 : string) : M SoundOut :=
  let display_name := create_sound_display_name file name in
  if negb (PyStr.truthy display_name) then raise (bad_request "Sound name required.")
  else
    let display_name := or_empty display_name in
    let sid := uuid4 in
    let storage_path := create_sound_storage_path file display_name current_user sid in
    let data := file_data file in
    except_StorageException
      (upload_bytes storage_path data (file_content_type file))
      (fun args => raise (bad_gateway (upload_failure_detail args))) ;;;
    let privacy_value := normalize_privacy (Some privacy) in
    let tag_list := normalize_tags (Some tag_text) in
    get_db (Some (user_id current_user)) (user_role current_user) (fun conn =>
      t <- get_tables ;;
      let row := mkSound sid (Some (user_id current_user)) display_name
                         (if PyStr.is_empty description then None else Some description)
                         storage_path (String.length data) (file_content_type file)
                         privacy_value None (default_created_at t) in
      ok <- allowed conn INSERT (SoundRow row) ;;
      if negb ok then raise rls_violation
      else put_tables (set_sounds t (sounds t ++ [row])) ;;;
           attach_tags conn sid tag_list) ;;;
    signed_url <- create_signed_url storage_path ;;
    profile_map <- fetch_profiles [user_id current_user] ;;
    ret (mkSoundOut sid display_name signed_url tag_list privacy_value None None
                    (Some (user_id current_user))
                    (dict_get (user_id current_user) profile_map)).

Record SoundUpdate := mkSoundUpdate {
  update_name : option string;
  update_tags : option string;
  update_privacy : option string }.

Definition update_sound (sid : string) (payload : SoundUpdate) (current_user : AuthUser)
  : M bool :=
  let privacy_value := match update_privacy payload with
                       | Some p => Some (normalize_privacy (Some p))
                       | None => None
                       end in
  let tags_list := match update_tags payload with
                   | Some raw => Some (normalize_tags (Some raw))
                   | None => None
                   end in
  get_db (Some (user_id current_user)) (user_role current_user) (fun conn =>
    t <- get_tables ;;
    env <- ask ;;
    match find (fun s => (sound_id s =? sid) && row_security env conn SELECT t (SoundRow s))
               (sounds t) with
    | None => raise (not_found "Sound not found.")
    | Some _ =>
        put_tables
          (set_sounds t
             (map (fun s =>
                     if (sound_id s =? sid) && row_security env conn UPDATE t (SoundRow s)
                     then mkSound (sound_id s) (sound_owner_id s)
                                  (or_empty (COALESCE (update_name payload) (Some (sound_name s))))
                                  (sound_description s) (sound_storage_path s)
                                  (sound_size_bytes s) (sound_format s)
                                  (or_empty (COALESCE privacy_value (Some (sound_privacy s))))
                                  (sound_duration_seconds s) (sound_created_at s)
                     else s)
                  (sounds t))) ;;;
        match tags_list with
        | Some tag_list =>
            t' <- get_tables ;;
            put_tables
              (set_sound_tags t'
                 (filter (fun st => negb ((st_sound_id st =? sid)
                                          && row_security env conn DELETE t' (SoundTagRow st)))
                         (sound_tags t'))) ;;;
            attach_tags conn sid tag_list ;;; ret tt
        | None => ret tt
        end
    end) ;;;
  ret true.

(** ** Routes: a handler behind its authentication dependency

    [Depends(get_current_user)] and [Depends(get_optional_user)] run before
    the handler; an exception of the dependency is the response. *)

Definition route_required {A} (handler : AuthUser -> M A) (credentials : option string)
  : M A :=
  current_user <- get_current_user credentials ;;
  handler current_user.

Definition route_optional {A} (handler : option AuthUser -> M A)
           (credentials : option string) : M A :=
  current_user <- get_optional_user credentials ;;
  handler current_user.

(** ** db.py on the connection: run-time settings of a pooled connection

    PostgreSQL keeps a run-time setting at session level or, inside a
    transaction, as a transaction-local value that ends with the
    transaction. [SET LOCAL] and [set_config(name, value, true)] write the
    transaction-local value. A statement sent outside a transaction block
    is a transaction of its own. [db.py] opens no transaction block. *)

Module Pg.

Definition settings := list (string * string).

Fixpoint lookup (name : string) (l : settings) : option string :=
  match l with
  | [] => None
  | (k, v) :: r => if k =? name then Some v else lookup name r
  end.

(** An open transaction holds the values set in it, latest first, each
    with its [is_local] flag. *)
Definition overlay := list (string * string * bool).

Record connection := mkConnection {
  session : settings;
  block : option overlay }.

(** The value of [set_config] is a parameter of the statement and may be
    NULL. *)
Inductive statement :=
| BEGIN
| COMMIT
| ROLLBACK
| SET_LOCAL (name value : string)
| set_config (name : string) (value : option string) (is_local : bool)
| Other (sql : string).

(** A customized option has a qualified name (class.name); an option of
    the server, such as [row_security], has none. *)
Fixpoint is_custom (name : string) : bool :=
  match name with
  | EmptyString => false
  | String c r => Ascii.eqb c "." || is_custom r
  end.

(** A customized option that has been set once, in whatever scope, stays
    defined on the connection: when the value goes with its transaction,
    the option reads as the empty text where it was undefined before. *)
Definition placeholder (name : string) (sess : settings) : settings :=
  if is_custom name
  then match lookup name sess with
       | Some _ => sess
       | None => (name, ""%string) :: sess
       end
  else sess.

Definition placeholders (ov : overlay) (sess : settings) : settings :=
  fold_right (fun e acc => placeholder (fst (fst e)) acc) sess ov.

Definition strip_flags (ov : overlay) : settings := map fst ov.

Definition committed (ov : overlay) : settings :=
  strip_flags (filter (fun e => negb (snd e)) ov).

(** What the end of a transaction leaves at session level. *)
Definition commit (ov : overlay) (sess : settings) : settings :=
  committed ov ++ placeholders ov sess.

Definition rollback (ov : overlay) (sess : settings) : settings :=
  placeholders ov sess.

(** What a statement writes in the transaction it runs in; a NULL value
    resets the option, which reads as the empty text then. *)
Definition write (st : statement) (ov : overlay) : overlay :=
  match st with
  | SET_LOCAL name value => (name, value, true) :: ov
  | set_config name value is_local =>
      (name, match value with Some v => v | None => ""%string end, is_local) :: ov
  | _ => ov
  end.

(** [current_setting(name)] as the next statement on the connection
    evaluates it. *)
Definition current_setting (name : string) (c : connection) : option string :=
  match block c with
  | Some ov =>
      match lookup name (strip_flags ov) with
      | Some v => Some v
      | None => lookup name (session c)
      end
  | None => lookup name (session c)
  end.

(** Outside a transaction block a statement is a transaction of its own,
    committed when the statement ends. *)
Definition execute (st : statement) (c : connection) : connection :=
  match block c with
  | None =>
      match st with
      | BEGIN => mkConnection (session c) (Some [])
      | COMMIT | ROLLBACK => c
      | _ => mkConnection (commit (write st []) (session c)) None
      end
  | Some ov =>
      match st with
      | BEGIN => c
      | COMMIT => mkConnection (commit ov (session c)) None
      | ROLLBACK => mkConnection (rollback ov (session c)) None
      | _ => mkConnection (session c) (Some (write st ov))
      end
  end.

Definition run (sts : list statement) (c : connection) : connection :=
  fold_left (fun c st => execute st c) sts c.

(** The authorization context a statement is evaluated under. *)
Record context := mkContext {
  ctx_row_security : option string;
  ctx_sub : option string;
  ctx_role : option string }.

Definition sub_name : string := "request.jwt.claim.sub".
Definition role_name : string := "request.jwt.claim.role".

Definition context_of (c : connection) : context :=
  mkContext (current_setting "row_security" c)
            (current_setting sub_name c)
            (current_setting role_name c).

(** The context each statement of a sequence is evaluated under. *)
Fixpoint observations (sts : list statement) (c : connection) : list context :=
  match sts with
  | [] => []
  | st :: r => context_of c :: observations r (execute st c)
  end.

(** The statements [get_db] sends before it yields the handle. *)
Definition get_db (user_id : option string) (role : option string) : list statement :=
  SET_LOCAL "row_security" "on"
  :: (if PyStr.truthy user_id
      then [ set_config sub_name user_id true;
             set_config role_name role true ]
      else [ set_config sub_name (Some ""%string) true;
             set_config role_name (Some "anon"%string) true ]).

Definition get_service_db : list statement :=
  [ SET_LOCAL "row_security" "off" ].

(** A statement that writes no session-level value. *)
Definition transaction_local (st : statement) : bool :=
  match st with
  | SET_LOCAL _ _ => true
  | set_config _ _ is_local => is_local
  | _ => false
  end.

(** The setting a statement writes in its transaction, with its scope. *)
Definition written (st : statement) : overlay := write st [].

(** One use of a pooled connection by a handler, from [pool.acquire] to
    [pool.release] in the [finally] clause: the binding and the handler's
    statements, all of them or, when the handler raises, those sent until
    then. The handlers send queries and data statements only. Nothing is
    assumed of what the pool does to a connection it takes back. *)
Definition with_get_db (user_id : option string) (role : option string)
           (queries : list string) (c : connection) : connection :=
  run (get_db user_id role ++ map Other queries) c.

(** A connection with the two claim options defined: empty where they were
    undefined, as they were otherwise. *)
Definition claims_defined (c : connection) : connection :=
  mkConnection (placeholder role_name (placeholder sub_name (session c))) (block c).

(** The binding [get_db] would be with connection-global values, for
    comparison. *)
Definition get_db_session_level (user_id : option string) (role : option string)
  : list statement :=
  [ set_config sub_name user_id false;
    set_config role_name role false ].

End Pg.

(** ** Vocabulary of the statements *)

Fixpoint any_char (p : ascii -> bool) (s : string) : bool :=
  match s with
  | EmptyString => false
  | String c r => p c || any_char p r
  end.

Fixpoint all_char (p : ascii -> bool) (s : string) : bool :=
  match s with
  | EmptyString => true
  | String c r => p c && all_char p r
  end.

(** An ASCII letter or digit. *)
Definition is_alnum (c : ascii) : bool :=
  PyStr.is_lower c || PyStr.is_upper c || PyStr.is_digit c.

(** A raw tag that [ensure_tags] keeps: its slug is not empty. *)
Definition has_slug (tag : string) : bool := negb (PyStr.is_empty (slugify tag)).

(** ** A concrete world for the examples

    Policies in the usual owner-based style: a service handle sees every
    row; a user handle sees and changes its own playlists, sounds and
    profile, and the memberships and tag links of what it owns. *)

Definition cmd_is_select (cmd : Command) : bool :=
  match cmd with SELECT => true | _ => false end.

Definition owner_policy : RowSecurity :=
  fun sc cmd t row =>
    match sc with
    | ServiceScope => true
    | UserScope sub _ =>
        match row with
        | ProfileRow p => cmd_is_select cmd || (profile_id p =? sub)
        | SoundRow x =>
            (or_empty (sound_owner_id x) =? sub)
            || (cmd_is_select cmd && (sound_privacy x =? "public"))
        | TagRow _ => true
        | SoundTagRow st =>
            existsb (fun x => (sound_id x =? st_sound_id st)
                              && (or_empty (sound_owner_id x) =? sub)) (sounds t)
        | PlaylistRow p =>
            (playlist_owner_id p =? sub)
            || (cmd_is_select cmd && (playlist_privacy p =? "public"))
        | PlaylistSoundRow ps =>
            existsb (fun p => (playlist_id p =? ps_playlist_id ps)
                              && (playlist_owner_id p =? sub)) (playlists t)
        end
    end.

Definition alice_claims : Claims :=
  mkClaims (Some "a11ce000-0000-4000-8000-000000000001") (RoleText "authenticated")
           (Some "alice@example.org")
           (Some (mkUserMetadata (Some "Alice Liddell") None None None None
                                 (Some "https://img.example.org/alice.png") None)).

(** A token library that accepts the token "alice.jwt", reports
    "expired.jwt" as expired and rejects every other token. *)
Definition example_env : Env :=
  mkEnv (fun token => if (token =? "alice.jwt") || (token =? "expired.jwt")
                      then inr (Some "HS256") else inl PyJWTError)
        (fun _ => inl PyJWTError)
        (fun token _ _ => if token =? "alice.jwt" then inr alice_claims
                          else if token =? "expired.jwt" then inl ExpiredSignatureError
                               else inl PyJWTError)
        "jwt-secret"
        (fun _ _ _ => None)
        (fun path => inr ("https://storage.example.org/sign/" ++ path)%string)
        owner_policy.

(** The same world with an object store that rejects every upload. *)
Definition failing_storage_env (args : list StorageArg) : Env :=
  mkEnv (jwt_get_unverified_header example_env)
        (jwt_get_signing_key_from_jwt example_env)
        (jwt_decode example_env)
        (supabase_jwt_secret example_env)
        (fun _ _ _ => Some args)
        (storage_signed_url example_env)
        owner_policy.

Definition alice : AuthUser :=
  mkAuthUser "a11ce000-0000-4000-8000-000000000001" (Some "authenticated").

Definition bob : AuthUser :=
  mkAuthUser "b0b00000-0000-4000-8000-000000000002" (Some "authenticated").

Definition empty_tables : Tables := mkTables [] [] [] [] [] [] 1 (Some 0).

Definition empty_state : State := mkState empty_tables [] true.

(** Alice's playlist "P" with the sounds A, B and C at positions 1, 2, 3. *)
Definition abc_tables : Tables :=
  mkTables
    [ mkProfile (user_id alice) (Some "alice-liddell-a11ce0") (Some "Alice") None ]
    [ mkSound "A" (Some (user_id alice)) "a" None "a/A/a.mp3" 3 None "public" None (Some 1);
      mkSound "B" (Some (user_id alice)) "b" None "a/B/b.mp3" 3 None "public" None (Some 2);
      mkSound "C" (Some (user_id alice)) "c" None "a/C/c.mp3" 3 None "public" None (Some 3) ]
    [] []
    [ mkPlaylist "P" (user_id alice) "mix" None "link_only"
                 (Some (Sha256.hexdigest "AAAAAAAAAAAAAAAAAAAAAA")) (Some 5) ]
    [ mkPlaylistSound "P" "A" (Some 1%Z);
      mkPlaylistSound "P" "B" (Some 2%Z);
      mkPlaylistSound "P" "C" (Some 3%Z) ]
    1 (Some 9).

Definition abc_state : State := mkState abc_tables [] true.

(** The entropy source that hands out one byte over and over. *)
Definition constant_rng (byte : ascii) : Secrets.entropy := fun _ => byte.

(** A nullable text field that holds a non-empty value. *)
Definition filled (v : option string) : Prop := PyStr.truthy v = true.

(** [new] is [old] with, at most, fields filled that were empty. *)
Definition keeps_filled (old new : Profile) : Prop :=
  profile_id new = profile_id old
  /\ (filled (profile_handle old) -> profile_handle new = profile_handle old)
  /\ (filled (profile_display_name old) ->
      profile_display_name new = profile_display_name old)
  /\ (filled (profile_avatar_url old) -> profile_avatar_url new = profile_avatar_url old).

(** Every row of the table before has, at the same place after, a row that
    keeps its filled fields. *)
Definition profiles_keep_filled (before after : list Profile) : Prop :=
  forall i old, nth_error before i = Some old ->
                exists new, nth_error after i = Some new /\ keeps_filled old new.


(** A computation that leaves the object store and the pool alone. *)
Definition database_only {A} (m : M A) : Prop :=
  forall env s, bucket (snd (m env s)) = bucket s /\ pool (snd (m env s)) = pool s.

Definition clip : UploadFile :=
  mkUploadFile (Some "air horn.mp3") (Some "audio/mpeg") "ID3-bytes".

(** The index, counted from [start], of the last occurrence of [sid] in
    [ids]. *)
Fixpoint last_index (sid : string) (ids : list string) (start : Z) : option Z :=
  match ids with
  | [] => None
  | x :: r =>
      match last_index sid r (start + 1) with
      | Some i => Some i
      | None => if x =? sid then Some start else None
      end
  end.

(** A membership row after a reorder of playlist [pid] with [ids] that the
    policy lets through. *)
Definition reordered (pid : string) (ids : list string) (start : Z) (ps : PlaylistSound)
  : PlaylistSound :=
  if ps_playlist_id ps =? pid then
    match last_index (ps_sound_id ps) ids start with
    | Some i => with_position ps i
    | None => ps
    end
  else ps.

(** A playlist that answers to [token] on the share endpoint. *)
Definition shared_by (token : string) (p : Playlist) : Prop :=
  playlist_share_token_hash p = Some (Sha256.hexdigest token)
  /\ playlist_privacy p = "link_only".

(** The policy lets the caller update every membership of playlist [pid],
    as long as the playlists are those of [t0]. *)
Definition may_reorder (env : Env) (current_user : AuthUser) (pid : string) (t0 : Tables)
  : Prop :=
  forall t ps,
    playlists t = playlists t0 ->
    ps_playlist_id ps = pid ->
    row_security env (bound_scope (Some (user_id current_user)) (user_role current_user))
                 UPDATE t (PlaylistSoundRow ps) = true.

(** The tables [t0] with, at most, other positions in [playlist_sounds]. *)
Definition repositioned (t0 t : Tables) : Prop :=
  exists l, t = set_playlist_sounds t0 l
            /\ map ps_playlist_id l = map ps_playlist_id (playlist_sounds t0)
            /\ map ps_sound_id l = map ps_sound_id (playlist_sounds t0).

(** The policy lets the caller update the membership row [ps], whatever
    the positions of the memberships are. *)
Definition may_update_row (env : Env) (current_user : AuthUser) (t0 : Tables)
           (ps : PlaylistSound) : Prop :=
  forall t pos,
    repositioned t0 t ->
    row_security env (bound_scope (Some (user_id current_user)) (user_role current_user))
                 UPDATE t
                 (PlaylistSoundRow (mkPlaylistSound (ps_playlist_id ps) (ps_sound_id ps) pos))
    = true.

(** The example policy with the membership of one sound closed to UPDATE,
    and the example world under it. *)
Definition pinned_policy (sid : string) : RowSecurity :=
  fun sc cmd t row =>
    match cmd, row with
    | UPDATE, PlaylistSoundRow ps => negb (ps_sound_id ps =? sid) && owner_policy sc cmd t row
    | _, _ => owner_policy sc cmd t row
    end.

Definition pinned_env (sid : string) : Env :=
  mkEnv (jwt_get_unverified_header example_env)
        (jwt_get_signing_key_from_jwt example_env)
        (jwt_decode example_env)
        (supabase_jwt_secret example_env)
        (storage_upload_error example_env)
        (storage_signed_url example_env)
        (pinned_policy sid).

(** [ps'] is the row [ps] with, at most, another position; it is [ps] unless
    [ps] is a membership of [pid] whose sound is listed in [ids]. *)
Definition reorder_frame (pid : string) (ids : list string) (ps ps' : PlaylistSound)
  : Prop :=
  ps_playlist_id ps' = ps_playlist_id ps
  /\ ps_sound_id ps' = ps_sound_id ps
  /\ (ps_playlist_id ps <> pid \/ ~ In (ps_sound_id ps) ids -> ps' = ps).

(** The row [create_playlist] inserts, given the digest it computed. *)
Definition created_playlist_row (payload : PlaylistCreate) (current_user : AuthUser)
           (uuid4 digest : string) (t : Tables) : Playlist :=
  mkPlaylist uuid4 (user_id current_user) (create_name payload)
             (create_description payload)
             (normalize_privacy (Some (create_privacy payload)))
             (Some digest) (default_created_at t).

(** The rows [rotate_share_token] rewrites: those with the id that the
    policy opens to UPDATE. *)
Definition rotation_hit (env : Env) (current_user : AuthUser) (pid : string) (t : Tables)
           (p : Playlist) : bool :=
  (playlist_id p =? pid)
  && row_security env (bound_scope (Some (user_id current_user)) (user_role current_user))
                  UPDATE t (PlaylistRow p).

Definition pool_error : Exn := RuntimeError "Database pool is not initialized.".

Definition mix : PlaylistCreate := mkPlaylistCreate "mix" (Some "late-night") "link-only".

Definition zero_rng : Secrets.entropy := constant_rng "000"%char.
Definition ones_rng : Secrets.entropy := constant_rng "255"%char.

(** The service handle sees every playlist. *)
Definition service_reads_playlists (env : Env) (t : Tables) : Prop :=
  forall p, row_security env ServiceScope SELECT t (PlaylistRow p) = true.

(** The object store signs every path. *)
Definition signing_works (env : Env) : Prop :=
  forall path, exists url, storage_signed_url env path = inr url.

(** * The other handlers of main.py *)

From Stdlib Require Import Sorting.Sorted Sorting.Permutation.

(** ** Playlists: fetch, update, membership *)

(** [current_user.id if current_user else None] and
    [current_user.role if current_user else "anon"] *)
Definition optional_id (current_user : option AuthUser) : option string :=
  match current_user with
  | Some u => Some (user_id u)
  | None => None
  end.

Definition optional_role (current_user : option AuthUser) : option string :=
  match current_user with
  | Some u => user_role u
  | None => Some "anon"
  end.

Definition get_playlist (pid : string) (current_user : option AuthUser)
  : M PlaylistDetail :=
  found <- get_db (optional_id current_user) (optional_role current_user) (fun conn =>
             t <- get_tables ;;
             env <- ask ;;
             match find (fun p => (playlist_id p =? pid)
                                  && row_security env conn SELECT t (PlaylistRow p))
                        (playlists t) with
             | None => raise (not_found "Playlist not found.")
             | Some playlist =>
                 rows <- select_playlist_sounds conn pid ;;
                 ret (playlist, rows)
             end) ;;
  let playlist := fst found in
  let rows := snd found in
  profile_map <- fetch_profiles
                   (playlist_owner_id playlist
                    :: map (fun row => str_of (sound_owner_id (fst row)))
                           (filter (fun row => PyStr.truthy (sound_owner_id (fst row))) rows)) ;;
  mapped_sounds <- sign_rows rows profile_map ;;
  ret (mkPlaylistDetail
         (mkPlaylistOut (playlist_id playlist) (playlist_owner_id playlist)
                        (playlist_name playlist) (playlist_description playlist)
                        (playlist_privacy playlist) (playlist_created_at playlist)
                        (length mapped_sounds) None
                        (dict_get (playlist_owner_id playlist) profile_map))
         mapped_sounds).

Record PlaylistUpdate := mkPlaylistUpdate {
  pupdate_name : option string;
  pupdate_description : option string;
  pupdate_privacy : option string }.

(** [SET name = COALESCE($1, name), description = COALESCE($2, description),
    privacy = COALESCE($3, privacy)] *)
Definition updated_playlist (payload : PlaylistUpdate) (privacy_value : option string)
           (p : Playlist) : Playlist :=
  mkPlaylist (playlist_id p) (playlist_owner_id p)
             (or_empty (COALESCE (pupdate_name payload) (Some (playlist_name p))))
             (COALESCE (pupdate_description payload) (playlist_description p))
             (or_empty (COALESCE privacy_value (Some (playlist_privacy p))))
             (playlist_share_token_hash p) (playlist_created_at p).

Definition update_playlist (pid : string) (payload : PlaylistUpdate)
           (current_user : AuthUser) : M PlaylistOut :=
  let privacy_value := match pupdate_privacy payload with
                       | Some p => Some (normalize_privacy (Some p))
                       | None => None
                       end in
  row <- get_db (Some (user_id current_user)) (user_role current_user) (fun conn =>
           t <- get_tables ;;
           env <- ask ;;
           let hit p := (playlist_id p =? pid)
                        && row_security env conn UPDATE t (PlaylistRow p) in
           put_tables
             (set_playlists t
                (map (fun p => if hit p then updated_playlist payload privacy_value p else p)
                     (playlists t))) ;;;
           ret (option_map (updated_playlist payload privacy_value)
                           (find hit (playlists t)))) ;;
  match row with
  | None => raise (not_found "Playlist not found.")
  | Some row =>
      profile_map <- fetch_profiles [playlist_owner_id row] ;;
      ret (mkPlaylistOut (playlist_id row) (playlist_owner_id row) (playlist_name row)
                         (playlist_description row) (playlist_privacy row)
                         (playlist_created_at row) 0 None
                         (dict_get (playlist_owner_id row) profile_map))
  end.

(** [MAX(position)] over rows: [NULL] positions do not count, and without
    a position the maximum is [NULL]. *)
Fixpoint max_position (rows : list PlaylistSound) : option Z :=
  match rows with
  | [] => None
  | r :: rest =>
      match ps_position r, max_position rest with
      | Some a, Some b => Some (Z.max a b)
      | Some a, None => Some a
      | None, m => m
      end
  end.

(** [SELECT COALESCE(MAX(position), 0) + 1 FROM playlist_sounds WHERE
    playlist_id = $1], on the rows the policy shows to the handle. *)
Definition next_position (env : Env) (sc : Scope) (t : Tables) (pid : string) : Z :=
  Z.add
    match max_position
            (filter (fun ps => (ps_playlist_id ps =? pid)
                               && row_security env sc SELECT t (PlaylistSoundRow ps))
                    (playlist_sounds t)) with
    | Some m => m
    | None => 0%Z
    end 1%Z.

(** The membership of [sid] in [pid], as the key of [playlist_sounds]. *)
Definition is_membership (pid sid : string) (ps : PlaylistSound) : bool :=
  (ps_playlist_id ps =? pid) && (ps_sound_id ps =? sid).

Definition add_sound_to_playlist (pid sid : string) (current_user : AuthUser) : M bool :=
  get_db (Some (user_id current_user)) (user_role current_user) (fun conn =>
    t <- get_tables ;;
    env <- ask ;;
    match find (fun p => (playlist_id p =? pid)
                         && row_security env conn SELECT t (PlaylistRow p))
               (playlists t) with
    | None => raise (not_found "Playlist not found.")
    | Some _ =>
        match find (fun s => (sound_id s =? sid)
                             && row_security env conn SELECT t (SoundRow s))
                   (sounds t) with
        | None => raise (not_found "Sound not found.")
        | Some _ =>
            let position := next_position env conn t pid in
            if existsb (is_membership pid sid) (playlist_sounds t) then ret tt
            else
              let row := mkPlaylistSound pid sid (Some position) in
              ok <- allowed conn INSERT (PlaylistSoundRow row) ;;
              if negb ok then raise rls_violation
              else put_tables (set_playlist_sounds t (playlist_sounds t ++ [row]))
        end
    end) ;;;
  ret true.

Definition remove_sound_from_playlist (pid sid : string) (current_user : AuthUser)
  : M bool :=
  get_db (Some (user_id current_user)) (user_role current_user) (fun conn =>
    t <- get_tables ;;
    env <- ask ;;
    put_tables
      (set_playlist_sounds t
         (filter (fun ps => negb (is_membership pid sid ps
                                  && row_security env conn DELETE t (PlaylistSoundRow ps)))
                 (playlist_sounds t)))) ;;;
  ret true.

(** ** Sounds: delete *)

(** [delete_path]: the store's answer to the removal of a path is an
    argument; a removal that goes through takes the object away. *)
Definition delete_path (storage_remove_error : string -> option (list StorageArg))
           (path : string) : M unit :=
  fun _ s =>
    match storage_remove_error path with
    | Some args => (Raise (StorageException args), s)
    | None =>
        (Return tt,
         mkState (db s) (filter (fun o => negb (fst o =? path)) (bucket s)) (pool s))
    end.

(** [DELETE FROM sounds WHERE id = $1] acts on the table [sounds]; what the
    schema does to rows that refer to a deleted sound is not in the
    repository and not modelled. *)
Definition delete_sound (storage_remove_error : string -> option (list StorageArg))
           (sid : string) (current_user : AuthUser) : M bool :=
  row <- get_db (Some (user_id current_user)) (user_role current_user) (fun conn =>
           t <- get_tables ;;
           env <- ask ;;
           match find (fun s => (sound_id s =? sid)
                                && row_security env conn SELECT t (SoundRow s))
                      (sounds t) with
           | None => raise (not_found "Sound not found.")
           | Some row =>
               put_tables
                 (set_sounds t
                    (filter (fun s => negb ((sound_id s =? sid)
                                            && row_security env conn DELETE t (SoundRow s)))
                            (sounds t))) ;;;
               ret row
           end) ;;
  delete_path storage_remove_error (sound_storage_path row) ;;;
  ret true.

(** ** Vocabulary of the further statements *)

(** The body of a well-formed slug, read after a hyphen or the start
    ([after_hyphen] = true) or after a letter or digit: lower-case ASCII
    letters and digits, with single hyphens between them only. *)
Fixpoint slug_body (after_hyphen : bool) (s : string) : bool :=
  match s with
  | EmptyString => negb after_hyphen
  | String c r =>
      if is_slug_char c then slug_body false r
      else Ascii.eqb c "-" && negb after_hyphen && slug_body true r
  end.

(** A slug: empty, or groups of lower-case letters and digits joined by
    single hyphens. *)
Definition is_slug (s : string) : bool := PyStr.is_empty s || slug_body true s.

(** No two hyphens in a row, and none first when [after_hyphen]. *)
Fixpoint single_hyphens (after_hyphen : bool) (s : string) : bool :=
  match s with
  | EmptyString => true
  | String c r =>
      if is_slug_char c then single_hyphens false r
      else Ascii.eqb c "-" && negb after_hyphen && single_hyphens true r
  end.

Definition is_comma (c : ascii) : bool := Ascii.eqb c ",".

(** A tag as [normalize_tags] hands it on: not empty, without white space
    at either end, without a comma. *)
Definition clean_tag (tag : string) : Prop :=
  tag <> "" /\ PyStr.strip tag = tag /\ any_char is_comma tag = false.

(** [",".join(tags)] *)
Fixpoint join_commas (tag_list : list string) : string :=
  match tag_list with
  | [] => ""
  | [tag] => tag
  | tag :: rest => (tag ++ "," ++ join_commas rest)%string
  end.

(** The key discipline of [tags]: one row per slug, every slug a non-empty
    well-formed slug, one row per id, every id taken from the sequence. *)
Definition tags_consistent (t : Tables) : Prop :=
  NoDup (map tag_slug (tags t))
  /\ NoDup (map tag_id (tags t))
  /\ Forall (fun g => tag_id g < tags_id_seq t
                      /\ tag_slug g <> "" /\ is_slug (tag_slug g) = true)
            (tags t).

(** [after] has every tag of [before], in place, under the same id and
    slug: tags are never deleted or renamed. *)
Definition tags_kept (before after : list Tag) : Prop :=
  exists added,
    map tag_id after = map tag_id before ++ map tag_id added
    /\ map tag_slug after = map tag_slug before ++ map tag_slug added.

(** A computation that keeps a property of the tables, whatever its
    outcome. *)
Definition keeps {A} (P : Tables -> Prop) (m : M A) : Prop :=
  forall env s, P (db s) -> P (db (snd (m env s))).

(** A computation that leaves the tables as they are. *)
Definition reads_only {A} (m : M A) : Prop :=
  forall env s, db (snd (m env s)) = db s.

(** The rows the policy shows to a handle for reading. *)
Definition visible_playlist (env : Env) (sc : Scope) (t : Tables) (pid : string)
           (p : Playlist) : bool :=
  (playlist_id p =? pid) && row_security env sc SELECT t (PlaylistRow p).

Definition visible_sound (env : Env) (sc : Scope) (t : Tables) (sid : string)
           (x : Sound) : bool :=
  (sound_id x =? sid) && row_security env sc SELECT t (SoundRow x).

Definition visible_member (env : Env) (sc : Scope) (t : Tables) (pid : string)
           (ps : PlaylistSound) : bool :=
  (ps_playlist_id ps =? pid) && row_security env sc SELECT t (PlaylistSoundRow ps).

(** The scope of an authenticated caller's handle. *)
Definition user_scope (current_user : AuthUser) : Scope :=
  bound_scope (Some (user_id current_user)) (user_role current_user).

(** The example world with one more sound of Alice's, "D", in no playlist. *)
Definition abcd_tables : Tables :=
  set_sounds abc_tables
    (sounds abc_tables
     ++ [mkSound "D" (Some (user_id alice)) "d" None "a/D/d.mp3" 3 None "private" None
                 (Some 4)]).

Definition abcd_state : State := mkState abcd_tables [] true.

(** One of the three values of the privacy column. *)
Definition canonical_privacy (v : string) : Prop :=
  v = "public" \/ v = "private" \/ v = "link_only".

(** [p'] is [p] with, at most, another name, description and privacy; it
    is [p] unless [p] has the id [pid]. *)
Definition playlist_update_frame (pid : string) (p p' : Playlist) : Prop :=
  playlist_id p' = playlist_id p
  /\ playlist_owner_id p' = playlist_owner_id p
  /\ playlist_share_token_hash p' = playlist_share_token_hash p
  /\ playlist_created_at p' = playlist_created_at p
  /\ (playlist_id p <> pid -> p' = p).

(** The rows [update_playlist] rewrites. *)
Definition update_hit (env : Env) (current_user : AuthUser) (pid : string) (t : Tables)
           (p : Playlist) : bool :=
  (playlist_id p =? pid) && row_security env (user_scope current_user) UPDATE t (PlaylistRow p).

(** [normalize_privacy(payload.privacy) if payload.privacy is not None else
    None] *)
Definition update_privacy_value (privacy : option string) : option string :=
  match privacy with
  | Some p => Some (normalize_privacy (Some p))
  | None => None
  end.

(** Every playlist and every sound carries one of the three privacy
    values. *)
Definition privacy_canonical (t : Tables) : Prop :=
  Forall (fun p => canonical_privacy (playlist_privacy p)) (playlists t)
  /\ Forall (fun x => canonical_privacy (sound_privacy x)) (sounds t).

(** The rows [delete_sound] and [update_sound] select, and the rows the
    DELETE of [delete_sound] removes. *)
Definition sound_seen (env : Env) (current_user : AuthUser) (sid : string) (t : Tables)
           (x : Sound) : bool :=
  (sound_id x =? sid) && row_security env (user_scope current_user) SELECT t (SoundRow x).

Definition delete_hit (env : Env) (current_user : AuthUser) (sid : string) (t : Tables)
           (x : Sound) : bool :=
  (sound_id x =? sid) && row_security env (user_scope current_user) DELETE t (SoundRow x).

(** The object stored at a path, if any. *)
Definition stored_at (path : string) (b : Bucket) : bool :=
  existsb (fun o => fst o =? path) b.

(** The example world with the files of the sounds A and B in the store. *)
Definition stocked_state : State :=
  mkState abc_tables
          [ ("a/A/a.mp3", ("RIFF", "audio/mpeg")); ("a/B/b.mp3", ("RIFF", "audio/mpeg")) ]
          true.

(** A store that removes what it is asked to, and one that refuses. *)
Definition removing_store : string -> option (list StorageArg) := fun _ => None.

Definition refusing_store (args : list StorageArg) : string -> option (list StorageArg) :=
  fun _ => Some args.

(** The UPDATE of [update_sound]: the rows it rewrites, what it makes of a
    row, and the tables after it. *)
Definition sound_update_hit (env : Env) (current_user : AuthUser) (sid : string) (t : Tables)
           (x : Sound) : bool :=
  (sound_id x =? sid) && row_security env (user_scope current_user) UPDATE t (SoundRow x).

Definition updated_sound (payload : SoundUpdate) (x : Sound) : Sound :=
  mkSound (sound_id x) (sound_owner_id x)
          (or_empty (COALESCE (update_name payload) (Some (sound_name x))))
          (sound_description x) (sound_storage_path x)
          (sound_size_bytes x) (sound_format x)
          (or_empty (COALESCE (update_privacy_value (update_privacy payload))
                              (Some (sound_privacy x))))
          (sound_duration_seconds x) (sound_created_at x).

Definition sounds_updated (env : Env) (current_user : AuthUser) (sid : string)
           (payload : SoundUpdate) (t : Tables) : Tables :=
  set_sounds t (map (fun x => if sound_update_hit env current_user sid t x
                              then updated_sound payload x else x)
                    (sounds t)).

(** The links of a sound that its [DELETE FROM sound_tags] removes, and
    the tables after it. *)
Definition link_delete_hit (env : Env) (current_user : AuthUser) (sid : string) (t : Tables)
           (st : SoundTag) : bool :=
  (st_sound_id st =? sid) && row_security env (user_scope current_user) DELETE t (SoundTagRow st).

Definition links_deleted (env : Env) (current_user : AuthUser) (sid : string) (t : Tables)
  : Tables :=
  set_sound_tags t (filter (fun st => negb (link_delete_hit env current_user sid t st))
                           (sound_tags t)).

(** [x'] is [x] with, at most, another name and privacy; it is [x] unless
    [x] has the id [sid]. *)
Definition sound_update_frame (sid : string) (x x' : Sound) : Prop :=
  sound_id x' = sound_id x
  /\ sound_owner_id x' = sound_owner_id x
  /\ sound_description x' = sound_description x
  /\ sound_storage_path x' = sound_storage_path x
  /\ sound_size_bytes x' = sound_size_bytes x
  /\ sound_format x' = sound_format x
  /\ sound_duration_seconds x' = sound_duration_seconds x
  /\ sound_created_at x' = sound_created_at x
  /\ (sound_id x <> sid -> x' = x).

(** The link of a sound to the tag of one of the listed tags. *)
Definition links_listed_tag (sid : string) (tag_list : list string) (t : Tables)
           (x : SoundTag) : Prop :=
  exists g tag, x = mkSoundTag sid (tag_id g) /\ In g (tags t)
                /\ In tag tag_list /\ has_slug tag = true /\ tag_slug g = slugify tag.

(** The join of [select_playlist_sounds] before its ORDER BY: each
    membership of the playlist with its sound and the sound's tag names, on
    the rows the policy shows to the handle. *)
Definition playlist_join (env : Env) (sc : Scope) (t : Tables) (pid : string)
  : list (PlaylistSound * SoundTagsRow) :=
  let visible := row_security env sc SELECT t in
  let tag_names (s : Sound) :=
    flat_map (fun st =>
                map tag_display
                    (filter (fun g => (tag_id g =? st_tag_id st)%nat && visible (TagRow g))
                            (tags t)))
             (filter (fun st => (st_sound_id st =? sound_id s) && visible (SoundTagRow st))
                     (sound_tags t)) in
  flat_map (fun ps =>
              map (fun s => (ps, (s, tag_names s)))
                  (filter (fun s => (sound_id s =? ps_sound_id ps) && visible (SoundRow s))
                          (sounds t)))
           (filter (fun ps => (ps_playlist_id ps =? pid) && visible (PlaylistSoundRow ps))
                   (playlist_sounds t)).

(** [a] is not after [b] in [ORDER BY ps.position ASC NULLS LAST,
    s.created_at DESC]. *)
Definition row_le (a b : PlaylistSound * SoundTagsRow) : bool :=
  ordered_before a b || negb (ordered_before b a).

(** The handle [get_playlist] reads with. *)
Definition viewer_scope (current_user : option AuthUser) : Scope :=
  bound_scope (optional_id current_user) (optional_role current_user).

(** The rows [get_playlist] selects the playlist from. *)
Definition playlist_seen (env : Env) (current_user : option AuthUser) (pid : string)
           (t : Tables) (p : Playlist) : bool :=
  (playlist_id p =? pid) && row_security env (viewer_scope current_user) SELECT t (PlaylistRow p).

(** The sounds of a detail are the rows of the join for its playlist, each
    once, in the order of the query. *)
Definition detail_in_order (env : Env) (sc : Scope) (t : Tables) (detail : PlaylistDetail)
  : Prop :=
  exists rows,
    Permutation rows (playlist_join env sc t (pout_id (detail_playlist detail)))
    /\ StronglySorted (fun a b => row_le a b = true) rows
    /\ map out_id (detail_sounds detail) = map (fun r => sound_id (fst (snd r))) rows
    /\ pout_sound_count (detail_playlist detail) = length rows.

(** The sounds of a playlist, in table order. *)
Definition members (pid : string) (t : Tables) : list string :=
  map ps_sound_id (filter (fun ps => ps_playlist_id ps =? pid) (playlist_sounds t)).

(** What a handle must be shown of a playlist to read all of it: the
    playlist, its memberships and their sounds. *)
Definition shows_playlist (env : Env) (sc : Scope) (t : Tables) (pid : string) : Prop :=
  (exists p, In p (playlists t) /\ playlist_id p = pid
             /\ row_security env sc SELECT t (PlaylistRow p) = true)
  /\ (forall ps, In ps (playlist_sounds t) -> ps_playlist_id ps = pid ->
                 row_security env sc SELECT t (PlaylistSoundRow ps) = true)
  /\ (forall x, In x (sounds t) -> In (sound_id x) (members pid t) ->
                row_security env sc SELECT t (SoundRow x) = true).

(** [a] is not after [b] by the index the ids have in [ids]. *)
Definition index_le (ids : list string) (a b : string) : Prop :=
  position_lt (last_index b ids 1) (last_index a ids 1) = false.

(** The text of a uuid value as [str] prints it: 8-4-4-4-12 lower-case
    hexadecimal digits. *)
Definition is_hex_lower (c : ascii) : bool := PyStr.is_digit c || PyStr.between 97 102 c.

Fixpoint skip_hex (n : nat) (s : string) : option string :=
  match n, s with
  | O, _ => Some s
  | S m, String c r => if is_hex_lower c then skip_hex m r else None
  | S _, EmptyString => None
  end.

Definition skip_hyphen (s : option string) : option string :=
  match s with
  | Some (String "-" r) => Some r
  | _ => None
  end.

Definition is_uuid_text (s : string) : bool :=
  match skip_hyphen (skip_hex 8 s) with
  | Some r1 =>
      match skip_hyphen (skip_hex 4 r1) with
      | Some r2 =>
          match skip_hyphen (skip_hex 4 r2) with
          | Some r3 =>
              match skip_hyphen (skip_hex 4 r3) with
              | Some r4 =>
                  match skip_hex 12 r4 with
                  | Some EmptyString => true
                  | _ => false
                  end
              | None => false
              end
          | None => false
          end
      | None => false
      end
  | None => false
  end.

(** Ids that the uuid cast of [fetch_profiles] takes as they are: uuid
    texts, and the empty texts that are dropped before the cast. *)
Definition uuid_ids (ids : list string) : Prop :=
  Forall (fun i => i = "" \/ is_uuid_text i = true) ids.

(** * Properties *)

(** ** Sanity checks of the primitives *)

Example slugify_hello : slugify "  Hello, World!! " = "hello-world".
Proof. reflexivity. Qed.

Example slugify_symbols : slugify " !!--?? " = "".
Proof. reflexivity. Qed.

Example normalize_tags_ex : normalize_tags (Some " a, ,b ,, C d ") = ["a"; "b"; "C d"].
Proof. reflexivity. Qed.

Example sha256_abc :
  Sha256.hexdigest "abc"
  = "ba7816bf8f01cfea414140de5dae2223b00361a396177a9cb410ff61f20015ad".
Proof. vm_compute. reflexivity. Qed.

Example sha256_empty :
  Sha256.hexdigest ""
  = "e3b0c44298fc1c149afbf4c8996fb92427ae41e4649b934ca495991b7852b855".
Proof. vm_compute. reflexivity. Qed.

Example sha256_two_blocks :
  Sha256.hexdigest "abcdbcdecdefdefgefghfghighijhijkijkljklmklmnlmnomnopnopq"
  = "248d6a61d20638b8e5c026930c3e6039a33ce45964ff2167f6ecedd419db06c1".
Proof. vm_compute. reflexivity. Qed.

Example token_urlsafe_zero :
  Secrets.token_urlsafe (fun _ => "000"%char) 16 = "AAAAAAAAAAAAAAAAAAAAAA".
Proof. reflexivity. Qed.

Example b64_hello :
  Secrets.urlsafe_b64encode (list_ascii_of_string "hello?>") = "aGVsbG8_Pg==".
Proof. reflexivity. Qed.

Example safe_name_ex : safe_name " my clip (1).mp3 " = "my-clip--1-.mp3".
Proof. reflexivity. Qed.

Example slugify_handle_ex : _slugify_handle " Jane  O'Neil " = "jane-o-neil".
Proof. reflexivity. Qed.

Example slugify_handle_fallback : _slugify_handle "***" = "creator".
Proof. reflexivity. Qed.

(** ** Strings: what stripping and substitution keep *)

Section StringFacts.

Lemma is_empty_true (s : string) : PyStr.is_empty s = true <-> s = "".
Proof. destruct s; simpl; split; congruence. Qed.

Lemma is_empty_rstrip (p : ascii -> bool) (s : string) :
  PyStr.is_empty (PyStr.rstrip_by p s) = all_char p s.
Proof.
  induction s as [|c r IH]; simpl; [reflexivity|].
  rewrite IH. destruct (all_char p r), (p c); reflexivity.
Qed.

Lemma all_char_lstrip (p : ascii -> bool) (s : string) :
  all_char p (PyStr.lstrip_by p s) = all_char p s.
Proof.
  induction s as [|c r IH]; simpl; [reflexivity|].
  destruct (p c) eqn:E; simpl; [exact IH | now rewrite E].
Qed.

Lemma is_empty_strip_by (p : ascii -> bool) (s : string) :
  PyStr.is_empty (PyStr.strip_by p s) = all_char p s.
Proof.
  unfold PyStr.strip_by. now rewrite is_empty_rstrip, all_char_lstrip.
Qed.

Variables p q : ascii -> bool.
Hypothesis disjoint : forall c, p c = true -> q c = false.

Lemma any_char_lstrip (s : string) :
  any_char q (PyStr.lstrip_by p s) = any_char q s.
Proof.
  induction s as [|c r IH]; simpl; [reflexivity|].
  destruct (p c) eqn:E; simpl; [|reflexivity].
  now rewrite IH, (disjoint c E).
Qed.

Lemma any_char_rstrip (s : string) :
  any_char q (PyStr.rstrip_by p s) = any_char q s.
Proof.
  induction s as [|c r IH]; simpl; [reflexivity|].
  rewrite <- IH.
  destruct (PyStr.rstrip_by p r) as [|c' r']; simpl; [|reflexivity].
  destruct (p c) eqn:Ep; simpl; [|reflexivity].
  now rewrite (disjoint c Ep).
Qed.

Lemma any_char_strip_by (s : string) :
  any_char q (PyStr.strip_by p s) = any_char q s.
Proof. unfold PyStr.strip_by. now rewrite any_char_rstrip, any_char_lstrip. Qed.

End StringFacts.

Lemma any_char_sub_runs (keep : ascii -> bool) (repl : ascii) (s : string) :
  keep repl = false ->
  forall b, any_char keep (PyStr.sub_runs keep repl b s) = any_char keep s.
Proof.
  intros Hr. induction s as [|c r IH]; intros b; simpl; [reflexivity|].
  destruct (keep c) eqn:E; simpl.
  - now rewrite E.
  - destruct b; simpl; rewrite ?Hr, IH; reflexivity.
Qed.

Lemma all_repl_sub_runs (keep : ascii -> bool) (repl : ascii) (s : string) :
  keep repl = false ->
  forall b, all_char (Ascii.eqb repl) (PyStr.sub_runs keep repl b s)
            = negb (any_char keep s).
Proof.
  intros Hr. induction s as [|c r IH]; intros b; simpl; [reflexivity|].
  destruct (keep c) eqn:E; simpl.
  - destruct (Ascii.eqb repl c) eqn:Ec; [|reflexivity].
    apply Ascii.eqb_eq in Ec. congruence.
  - destruct b; simpl; rewrite ?Ascii.eqb_refl, IH; reflexivity.
Qed.

Lemma slug_char_lower (c : ascii) : is_slug_char (PyStr.lower_char c) = is_alnum c.
Proof.
  destruct c as [[] [] [] [] [] [] [] []]; reflexivity.
Qed.

Lemma any_slug_char_lower (s : string) :
  any_char is_slug_char (PyStr.lower s) = any_char is_alnum s.
Proof.
  induction s as [|c r IH]; simpl; [reflexivity|].
  now rewrite slug_char_lower, IH.
Qed.

Lemma space_not_alnum (c : ascii) : PyStr.is_space c = true -> is_alnum c = false.
Proof.
  destruct c as [[] [] [] [] [] [] [] []]; simpl; intros H;
    solve [reflexivity | discriminate H].
Qed.

(** The slug of a tag is empty exactly when the tag has no ASCII letter or
    digit. *)
Lemma slugify_empty (tag : string) :
  PyStr.is_empty (slugify tag) = negb (any_char is_alnum tag).
Proof.
  unfold slugify, PyStr.strip_char.
  rewrite is_empty_strip_by, all_repl_sub_runs by reflexivity.
  rewrite any_slug_char_lower.
  unfold PyStr.strip. now rewrite (any_char_strip_by _ _ space_not_alnum).
Qed.

(** ** C5: privacy normalization *)

(** C5. [normalize_privacy] returns each of "public", "private" and
    "link_only" unchanged, and returns "link_only" for "link-only" and for
    every other input, [None] included. *)
Theorem normalize_privacy_canonical (value : option string) :
  normalize_privacy (Some "public") = "public"
  /\ normalize_privacy (Some "private") = "private"
  /\ normalize_privacy (Some "link_only") = "link_only"
  /\ normalize_privacy (Some "link-only") = "link_only"
  /\ ((In value [Some "public"; Some "private"; Some "link_only"]
       /\ Some (normalize_privacy value) = value)
      \/ (~ In value [Some "public"; Some "private"; Some "link_only"]
          /\ normalize_privacy value = "link_only")).
Proof.
  repeat split; try reflexivity.
  destruct value as [v|]; simpl.
  - destruct (v =? "public") eqn:E1; [apply String.eqb_eq in E1; subst; left; simpl; auto|].
    destruct (v =? "private") eqn:E2; [apply String.eqb_eq in E2; subst; left; simpl; auto|].
    destruct (v =? "link_only") eqn:E3; [apply String.eqb_eq in E3; subst; left; simpl; auto|].
    apply String.eqb_neq in E1, E2, E3. right. split.
    + intros [H|[H|[H|[]]]]; congruence.
    + simpl. destruct (v =? "link-only"); reflexivity.
  - right. split; [|reflexivity]. intros [H|[H|[H|[]]]]; discriminate.
Qed.

(** ** C10: tags whose slug is empty *)

Lemma ensure_tags_filter (conn : Scope) (tag_list : list string) :
  forall env s,
    ensure_tags conn tag_list env s = ensure_tags conn (filter has_slug tag_list) env s.
Proof.
  induction tag_list as [|tag rest IH]; intros env s; simpl; [reflexivity|].
  unfold has_slug at 1.
  destruct (PyStr.is_empty (slugify tag)) eqn:E; simpl; [apply IH|].
  rewrite E. unfold bind.
  destruct (upsert_tag conn (slugify tag) tag env s) as [[id|e] s1]; [|reflexivity].
  now rewrite IH.
Qed.

Lemma filter_has_slug_nil (tag_list : list string) :
  Forall (fun tag => slugify tag = "") tag_list -> filter has_slug tag_list = [].
Proof.
  induction 1 as [|tag rest H _ IH]; simpl; [reflexivity|].
  unfold has_slug at 1. rewrite H. exact IH.
Qed.

(** C10. A raw tag whose slug is empty is skipped by the tag attachment of
    sound creation and update, and such a tag has no ASCII letter or digit
    (a tag that has one has a slug and is not skipped): [ensure_tags] and
    [attach_tags] act on the database, and fail or not, exactly as on the
    list without the tags whose slug is empty; a list made of such tags only
    leaves the database as it is and raises nothing. *)
Theorem empty_slug_tags_skipped (conn : Scope) (sid : string) (tag_list : list string)
        (env : Env) (s : State) :
  (forall tag, slugify tag = "" -> any_char is_alnum tag = false)
  /\ ensure_tags conn tag_list env s = ensure_tags conn (filter has_slug tag_list) env s
  /\ snd (attach_tags conn sid tag_list env s)
     = snd (attach_tags conn sid (filter has_slug tag_list) env s)
  /\ (forall e, fst (attach_tags conn sid tag_list env s) = Raise e
                <-> fst (attach_tags conn sid (filter has_slug tag_list) env s) = Raise e)
  /\ (Forall (fun tag => slugify tag = "") tag_list ->
      ensure_tags conn tag_list env s = (Return [], s)
      /\ attach_tags conn sid tag_list env s = (Return [], s)).
Proof.
  split; [|split; [|split; [|split]]].
  - intros tag. rewrite <- is_empty_true, slugify_empty.
    destruct (any_char is_alnum tag); simpl; congruence.
  - apply ensure_tags_filter.
  - unfold attach_tags, bind. rewrite <- ensure_tags_filter.
    destruct (ensure_tags conn tag_list env s) as [[[|i ids]|e] s1]; try reflexivity.
    unfold bind.
    destruct (for_each (i :: ids) (fun tid => insert_sound_tag conn sid tid) env s1)
      as [[[]|e] s2]; reflexivity.
  - intros e. unfold attach_tags, bind. rewrite <- ensure_tags_filter.
    destruct (ensure_tags conn tag_list env s) as [[[|i ids]|e'] s1];
      try (simpl; split; congruence).
    unfold bind.
    destruct (for_each (i :: ids) (fun tid => insert_sound_tag conn sid tid) env s1)
      as [[[]|e'] s2]; simpl; split; congruence.
  - intros Hall.
    assert (E : ensure_tags conn tag_list env s = (Return [], s)).
    { rewrite ensure_tags_filter, (filter_has_slug_nil _ Hall). reflexivity. }
    split; [exact E|]. unfold attach_tags, bind. now rewrite E.
Qed.

Lemma empty_slug_tags_skipped_witness :
  Forall (fun tag => slugify tag = "") ["!!"; " -- "; "?"]
  /\ attach_tags (UserScope (user_id alice) (Some "authenticated")) "A" ["!!"; " -- "; "?"]
                 example_env abc_state
     = (Return [], abc_state).
Proof.
  assert (H : Forall (fun tag => slugify tag = "") ["!!"; " -- "; "?"])
    by (repeat constructor).
  split; [exact H|].
  apply (empty_slug_tags_skipped (UserScope (user_id alice) (Some "authenticated")) "A"
                                 ["!!"; " -- "; "?"] example_env abc_state).
  exact H.
Defined.

(** ** C2: the session context is bound for the transaction only *)

Lemma run_app (a b : list Pg.statement) (c : Pg.connection) :
  Pg.run (a ++ b) c = Pg.run b (Pg.run a c).
Proof. unfold Pg.run. apply fold_left_app. Qed.

(** A query leaves the settings of the connection as they are. *)
Lemma execute_query (sql : string) (c : Pg.connection) : Pg.execute (Pg.Other sql) c = c.
Proof. destruct c as [sess [ov|]]; reflexivity. Qed.

Lemma run_queries (queries : list string) (c : Pg.connection) :
  Pg.run (map Pg.Other queries) c = c.
Proof.
  unfold Pg.run. induction queries as [|q r IH]; simpl; [reflexivity|].
  rewrite execute_query. exact IH.
Qed.

Lemma get_db_transaction_local (user_id role : option string) :
  forallb Pg.transaction_local (Pg.get_db user_id role) = true.
Proof. unfold Pg.get_db. destruct (PyStr.truthy user_id); reflexivity. Qed.

(** Outside a transaction block the statements of [get_db] leave nothing
    but the two claim options defined. *)
Lemma get_db_idle (user_id role : option string) (c : Pg.connection) :
  Pg.block c = None -> Pg.run (Pg.get_db user_id role) c = Pg.claims_defined c.
Proof.
  intros Hb. destruct c as [sess b]. cbn [Pg.block] in Hb. subst b.
  unfold Pg.get_db. destruct (PyStr.truthy user_id); reflexivity.
Qed.

Lemma with_get_db_idle (user_id role : option string) (queries : list string)
      (c : Pg.connection) :
  Pg.block c = None -> Pg.with_get_db user_id role queries c = Pg.claims_defined c.
Proof.
  intros Hb. unfold Pg.with_get_db. rewrite run_app, run_queries. now apply get_db_idle.
Qed.

(** The same statements in one transaction block, committed or rolled
    back. *)
Lemma get_db_in_block (user_id role : option string) (queries : list string)
      (c : Pg.connection) (closing : Pg.statement) :
  Pg.block c = None ->
  closing = Pg.COMMIT \/ closing = Pg.ROLLBACK ->
  Pg.run (Pg.BEGIN :: Pg.get_db user_id role ++ map Pg.Other queries ++ [closing]) c
  = Pg.claims_defined c.
Proof.
  intros Hb Hclose. destruct c as [sess b]. cbn [Pg.block] in Hb. subst b.
  change (Pg.BEGIN :: Pg.get_db user_id role ++ map Pg.Other queries ++ [closing])
    with ((Pg.BEGIN :: Pg.get_db user_id role) ++ map Pg.Other queries ++ [closing]).
  rewrite !run_app, run_queries.
  unfold Pg.get_db. destruct Hclose as [-> | ->]; destruct (PyStr.truthy user_id); reflexivity.
Qed.

Lemma lookup_placeholder (name option_name : string) (sess : Pg.settings) :
  Pg.lookup name (Pg.placeholder option_name sess)
  = match Pg.lookup name sess with
    | Some v => Some v
    | None => if Pg.is_custom option_name && (option_name =? name) then Some "" else None
    end.
Proof.
  unfold Pg.placeholder. destruct (Pg.is_custom option_name); cbn [andb].
  - destruct (Pg.lookup option_name sess) as [v|] eqn:E.
    + destruct (Pg.lookup name sess) as [w|] eqn:F; [reflexivity|].
      destruct (option_name =? name) eqn:N; [|reflexivity].
      apply String.eqb_eq in N. congruence.
    + cbn [Pg.lookup]. destruct (option_name =? name) eqn:N.
      * apply String.eqb_eq in N. subst. now rewrite E.
      * now destruct (Pg.lookup name sess).
  - now destruct (Pg.lookup name sess).
Qed.

Lemma current_setting_claims_defined (name : string) (c : Pg.connection) :
  Pg.block c = None ->
  Pg.current_setting name (Pg.claims_defined c)
  = match Pg.current_setting name c with
    | Some v => Some v
    | None => if (name =? Pg.sub_name) || (name =? Pg.role_name) then Some "" else None
    end.
Proof.
  intros Hb. unfold Pg.current_setting, Pg.claims_defined. cbn [Pg.block Pg.session].
  rewrite Hb, !lookup_placeholder.
  destruct (Pg.lookup name (Pg.session c)); [reflexivity|].
  rewrite (String.eqb_sym name Pg.sub_name), (String.eqb_sym name Pg.role_name).
  change (Pg.is_custom Pg.sub_name) with true. change (Pg.is_custom Pg.role_name) with true.
  cbn [andb]. destruct (Pg.sub_name =? name), (Pg.role_name =? name); reflexivity.
Qed.

(** C2. The three settings of [get_db] (the row-security switch, the
    subject id and the role, with the caller's values or those of the
    anonymous caller) are each written as the transaction-local value of the
    transaction their statement runs in, none at session level. A pooled
    connection that a handler has used through [get_db] is, once released,
    what it was when acquired but for the two claim options, which are defined
    from then on and read as the empty text where they were undefined. This
    state does not depend on who the caller was, so each statement a later
    caller runs on the connection is evaluated under the same context
    whoever the earlier caller was. The same holds had the handler's
    statements been sent inside one transaction block, committed or rolled
    back. *)
Theorem get_db_context_is_transaction_local
        (user_id role other_id other_role : option string)
        (queries other_queries : list string)
        (later : list Pg.statement) (c : Pg.connection) :
  Pg.block c = None ->
  let released := Pg.with_get_db user_id role queries c in
  forallb Pg.transaction_local (Pg.get_db user_id role) = true
  /\ map Pg.written (Pg.get_db user_id role)
     = [ [("row_security", "on", true)];
         [(Pg.sub_name, if PyStr.truthy user_id then or_empty user_id else "", true)];
         [(Pg.role_name, if PyStr.truthy user_id then or_empty role else "anon", true)] ]
  /\ released = Pg.claims_defined c
  /\ (forall name,
         Pg.current_setting name released
         = match Pg.current_setting name c with
           | Some v => Some v
           | None => if (name =? Pg.sub_name) || (name =? Pg.role_name) then Some "" else None
           end)
  /\ Pg.with_get_db other_id other_role other_queries c = released
  /\ Pg.observations later released
     = Pg.observations later (Pg.with_get_db other_id other_role other_queries c)
  /\ Pg.run (Pg.BEGIN :: Pg.get_db user_id role ++ map Pg.Other queries ++ [Pg.COMMIT]) c
     = released
  /\ Pg.run (Pg.BEGIN :: Pg.get_db user_id role ++ map Pg.Other queries ++ [Pg.ROLLBACK]) c
     = released.
Proof.
  intros Hb released. subst released.
  rewrite !(with_get_db_idle _ _ _ c Hb).
  split; [apply get_db_transaction_local|].
  split.
  { unfold Pg.get_db. destruct (PyStr.truthy user_id); [|reflexivity].
    destruct user_id, role; reflexivity. }
  split; [reflexivity|].
  split; [intros name; now apply current_setting_claims_defined|].
  split; [reflexivity|]. split; [reflexivity|].
  split; apply get_db_in_block; auto.
Qed.

Lemma get_db_context_is_transaction_local_witness :
  let c := Pg.mkConnection [("row_security", "on")] None in
  let later := Pg.get_service_db ++ [Pg.Other "select id from profiles"] in
  Pg.observations later
    (Pg.with_get_db (Some (user_id alice)) (Some "authenticated") ["select id from playlists"] c)
  = Pg.observations later (Pg.with_get_db (Some (user_id bob)) (Some "admin") [] c)
  /\ Pg.current_setting Pg.sub_name
       (Pg.with_get_db (Some (user_id alice)) (Some "authenticated")
                       ["select id from playlists"] c)
     = Some "".
Proof.
  intros c later.
  pose proof (get_db_context_is_transaction_local
                (Some (user_id alice)) (Some "authenticated") (Some (user_id bob)) (Some "admin")
                ["select id from playlists"] [] later c eq_refl) as H.
  cbv zeta in H. destruct H as (_ & _ & _ & Hname & _ & Hlater & _).
  split; [exact Hlater|]. rewrite Hname. reflexivity.
Defined.

(** For comparison: bound at session level, the subject id stays on the
    connection and the next caller's statement is evaluated under it. *)
Example session_level_binding_leaks :
  let c := Pg.mkConnection [] None in
  let c' := Pg.run (Pg.get_db_session_level (Some (user_id alice)) (Some "authenticated")
                    ++ [Pg.Other "select id from playlists"]) c in
  map Pg.ctx_sub
      (Pg.observations (Pg.get_service_db ++ [Pg.Other "select id from profiles"]) c')
  = [Some (user_id alice); Some (user_id alice)].
Proof. reflexivity. Qed.

(** Inside a transaction block the bound context is what the statements
    of the block are evaluated under, and it ends with the block. *)
Example binding_scoped_to_block :
  let c := Pg.mkConnection [] None in
  let sts := Pg.BEGIN :: Pg.get_db (Some (user_id alice)) (Some "authenticated")
                      ++ [Pg.Other "select id from playlists"] in
  Pg.context_of (Pg.run sts c)
  = Pg.mkContext (Some "on") (Some (user_id alice)) (Some "authenticated")
  /\ Pg.run (sts ++ [Pg.COMMIT]) c = Pg.claims_defined c
  /\ Pg.run (sts ++ [Pg.ROLLBACK]) c = Pg.claims_defined c
  /\ Pg.context_of (Pg.claims_defined c) = Pg.mkContext None (Some "") (Some "").
Proof. repeat split. Qed.

(** ** C3: failed credentials on routes with optional authentication *)

Lemma decode_token_outcome (token : string) (env : Env) (s : State) :
  snd (decode_token token env s) = s
  /\ forall e, fst (decode_token token env s) = Raise e ->
               e = unauthorized "Token expired." \/ e = unauthorized "Invalid token.".
Proof.
  unfold decode_token.
  match goal with
  | |- context [match ?r with inl e => (Raise (jwt_error e), s) | inr c => _ end] =>
      destruct r as [[|]|claims]
  end; simpl; split; try reflexivity; intros e H; inversion H; auto.
Qed.

Lemma decode_token_raises (token : string) (env : Env) (s : State) (e : Exn) :
  fst (decode_token token env s) = Raise e -> decode_token token env s = (Raise e, s).
Proof.
  intros H. destruct (decode_token_outcome token env s) as [Hs _].
  destruct (decode_token token env s) as [r s']. simpl in *. congruence.
Qed.

Lemma decode_token_returns (token : string) (env : Env) (s : State) (payload : Claims) :
  fst (decode_token token env s) = Return payload ->
  decode_token token env s = (Return payload, s).
Proof.
  intros H. destruct (decode_token_outcome token env s) as [Hs _].
  destruct (decode_token token env s) as [r s']. simpl in *. congruence.
Qed.

(** C3, as the code has it. On a route with optional authentication a
    request without a credential, or with a verified token that names no
    subject, is handled as anonymous. A presented credential that fails
    verification is rejected there as on a route that requires
    authentication: the 401 of [decode_token] ("Token expired." or
    "Invalid token.") is the response and the handler does not run. *)
Theorem optional_route_rejects_failed_credential
        {A : Type} (handler : option AuthUser -> M A) (token : string)
        (env : Env) (s : State) :
  route_optional handler None env s = handler None env s
  /\ get_current_user None env s = (Raise (unauthorized "Missing bearer token."), s)
  /\ (forall payload,
         fst (decode_token token env s) = Return payload ->
         PyStr.truthy (claim_sub payload) = false ->
         route_optional handler (Some token) env s = handler None env s)
  /\ (forall e,
         fst (decode_token token env s) = Raise e ->
         (e = unauthorized "Token expired." \/ e = unauthorized "Invalid token.")
         /\ get_optional_user (Some token) env s = (Raise e, s)
         /\ route_optional handler (Some token) env s = (Raise e, s)
         /\ get_current_user (Some token) env s = (Raise e, s)).
Proof.
  split; [|split; [|split]].
  - unfold route_optional, get_optional_user, bind, ret.
    destruct (handler None env s); reflexivity.
  - reflexivity.
  - intros payload Hd Hsub. apply decode_token_returns in Hd.
    unfold route_optional, get_optional_user, bind. rewrite Hd.
    rewrite Hsub. reflexivity.
  - intros e Hd. split; [now apply (decode_token_outcome token env s)|].
    apply decode_token_raises in Hd.
    unfold route_optional, get_optional_user, get_current_user, bind.
    rewrite Hd. auto.
Qed.

Lemma optional_route_rejects_failed_credential_witness :
  fst (decode_token "expired.jwt" example_env abc_state)
  = Raise (unauthorized "Token expired.")
  /\ route_optional (fun u => ret u) (Some "expired.jwt") example_env abc_state
     = (Raise (unauthorized "Token expired."), abc_state).
Proof.
  assert (H : fst (decode_token "expired.jwt" example_env abc_state)
              = Raise (unauthorized "Token expired.")) by reflexivity.
  split; [exact H|].
  apply (optional_route_rejects_failed_credential
           (fun u => ret u) "expired.jwt" example_env abc_state).
  exact H.
Defined.

(** C3 as stated fails: with an expired or an invalid token, a route with
    optional authentication answers 401 and does not proceed as
    anonymous. *)
Lemma optional_route_does_not_soft_fail :
  route_optional (fun u => ret u) (Some "expired.jwt") example_env abc_state
  = (Raise (HTTPException 401 "Token expired."), abc_state)
  /\ route_optional (fun u => ret u) (Some "not-a-token") example_env abc_state
     = (Raise (HTTPException 401 "Invalid token."), abc_state)
  /\ route_optional (fun u => ret u) None example_env abc_state
     = (Return None, abc_state)
  /\ route_optional (fun u => ret u) (Some "expired.jwt") example_env abc_state
     <> route_optional (fun u => ret u) None example_env abc_state
  /\ route_optional (fun u => ret u) (Some "not-a-token") example_env abc_state
     <> route_optional (fun u => ret u) None example_env abc_state.
Proof.
  repeat split; try reflexivity; intros H; vm_compute in H; discriminate H.
Qed.

(** ** C9: the generated handle *)

Lemma append_not_empty (a : string) (c : ascii) (b : string) :
  (a ++ String c b)%string <> "".
Proof. destruct a; discriminate. Qed.

Lemma length_append (a b : string) :
  String.length (a ++ b)%string = String.length a + String.length b.
Proof. induction a as [|c a IH]; simpl; [reflexivity | now rewrite IH]. Qed.

Lemma append_assoc (a b c : string) :
  (a ++ (b ++ c))%string = ((a ++ b) ++ c)%string.
Proof. induction a as [|x a IH]; simpl; [reflexivity | now rewrite IH]. Qed.

Lemma append_suffix_inj (a b p q : string) :
  String.length p = String.length q ->
  (a ++ p)%string = (b ++ q)%string -> a = b /\ p = q.
Proof.
  revert b. induction a as [|c a IH]; intros b Hlen H.
  - destruct b as [|d b]; simpl in H; [auto|].
    exfalso. apply (f_equal String.length) in H. simpl in H.
    rewrite length_append in H. lia.
  - destruct b as [|d b]; simpl in H.
    + exfalso. apply (f_equal String.length) in H. simpl in H.
      rewrite length_append in H. lia.
    + inversion H; subst. destruct (IH b Hlen) as [-> ->]; auto.
Qed.

Lemma take_length (n : nat) (s : string) :
  n <= String.length s -> String.length (PyStr.take n s) = n.
Proof.
  revert s. induction n as [|n IH]; intros s H; [reflexivity|].
  destruct s as [|c r]; simpl in *; [lia|]. rewrite IH; lia.
Qed.

Lemma slugify_handle_not_empty (value : string) : _slugify_handle value <> "".
Proof.
  unfold _slugify_handle.
  destruct (PyStr.strip_char "-" _) eqn:E; simpl; discriminate.
Qed.

(** C9, as the code has it. The generated handle is never empty: it is a
    non-empty base, a hyphen and the first six characters of the subject
    id. Two identities whose subject ids (of six characters or more) differ
    within their first six characters get different handles. *)
Theorem generated_handle_suffix (uid1 uid2 : string) (payload1 payload2 : Claims) :
  ensure_profile_handle uid1 payload1 <> ""
  /\ (exists base, base <> ""
        /\ ensure_profile_handle uid1 payload1 = (base ++ "-" ++ PyStr.take 6 uid1)%string)
  /\ (6 <= String.length uid1 -> String.length (PyStr.take 6 uid1) = 6)
  /\ (6 <= String.length uid1 -> 6 <= String.length uid2 ->
      PyStr.take 6 uid1 <> PyStr.take 6 uid2 ->
      ensure_profile_handle uid1 payload1 <> ensure_profile_handle uid2 payload2).
Proof.
  split; [|split; [|split]].
  - unfold ensure_profile_handle. apply append_not_empty.
  - unfold ensure_profile_handle. eexists. split; [|reflexivity].
    apply slugify_handle_not_empty.
  - apply take_length.
  - intros H1 H2 Hne Heq. unfold ensure_profile_handle in Heq.
    rewrite !append_assoc in Heq.
    apply append_suffix_inj in Heq; [tauto|].
    rewrite !take_length; auto.
Qed.

Lemma generated_handle_suffix_witness :
  ensure_profile_handle (user_id alice) alice_claims
  <> ensure_profile_handle (user_id bob) alice_claims.
Proof.
  apply (generated_handle_suffix (user_id alice) (user_id bob) alice_claims alice_claims);
    simpl; try lia; discriminate.
Defined.

(** C9 as stated fails: two distinct identities whose ids share their first
    six characters and whose names give the same base get one handle. *)
Lemma distinct_identities_same_handle :
  "a11ce000-0000-4000-8000-000000000001" <> "a11ce000-0000-4000-8000-00000000beef"
  /\ ensure_profile_handle "a11ce000-0000-4000-8000-000000000001" alice_claims
     = "alice-liddell-a11ce0"
  /\ ensure_profile_handle "a11ce000-0000-4000-8000-00000000beef" alice_claims
     = "alice-liddell-a11ce0".
Proof. repeat split; discriminate. Qed.

(** ** C7: the profile upsert only fills empty fields *)

Lemma keeps_filled_refl (p : Profile) : keeps_filled p p.
Proof. unfold keeps_filled; auto. Qed.

Lemma merge_profile_keeps_filled (old excluded : Profile) :
  keeps_filled old (merge_profile old excluded).
Proof.
  unfold keeps_filled, merge_profile, filled; simpl.
  repeat split.
  - destruct (profile_handle old); simpl; [reflexivity | discriminate].
  - destruct (profile_display_name old) as [[|c r]|]; simpl; try discriminate; reflexivity.
  - destruct (profile_avatar_url old) as [[|c r]|]; simpl; try discriminate; reflexivity.
Qed.

Lemma profiles_keep_filled_refl (l : list Profile) : profiles_keep_filled l l.
Proof. intros i old H. exists old. split; [exact H | apply keeps_filled_refl]. Qed.

Lemma profiles_keep_filled_trans (l1 l2 l3 : list Profile) :
  profiles_keep_filled l1 l2 -> profiles_keep_filled l2 l3 -> profiles_keep_filled l1 l3.
Proof.
  intros H12 H23 i old H. destruct (H12 i old H) as [mid [Hm Km]].
  destruct (H23 i mid Hm) as [new [Hn Kn]]. exists new. split; [exact Hn|].
  unfold keeps_filled in *. destruct Km as [K1 [K2 [K3 K4]]], Kn as [N1 [N2 [N3 N4]]].
  unfold filled in *.
  repeat split.
  - congruence.
  - intros F. rewrite <- (K2 F). apply N2. now rewrite (K2 F).
  - intros F. rewrite <- (K3 F). apply N3. now rewrite (K3 F).
  - intros F. rewrite <- (K4 F). apply N4. now rewrite (K4 F).
Qed.

Lemma upsert_profile_keeps_filled (sc : Scope) (row : Profile) (env : Env) (s : State) :
  profiles_keep_filled (profiles (db s)) (profiles (db (snd (upsert_profile sc row env s)))).
Proof.
  unfold upsert_profile, bind, get_tables, allowed, put_tables, raise.
  destruct (find _ (profiles (db s))) as [found|]; simpl.
  - destruct (row_security env sc UPDATE (db s) (ProfileRow found)); simpl;
      [|apply profiles_keep_filled_refl].
    intros i old H. rewrite nth_error_map, H. simpl.
    destruct (profile_id old =? profile_id row).
    + eexists. split; [reflexivity | apply merge_profile_keeps_filled].
    + eexists. split; [reflexivity | apply keeps_filled_refl].
  - destruct (row_security env sc INSERT (db s) (ProfileRow row)); simpl;
      [|apply profiles_keep_filled_refl].
    intros i old H. exists old. split; [|apply keeps_filled_refl].
    rewrite nth_error_app1; [exact H|]. apply nth_error_Some. congruence.
Qed.

Lemma ensure_profile_keeps_filled (uid : string) (payload : Claims) (env : Env) (s : State) :
  profiles_keep_filled (profiles (db s))
                       (profiles (db (snd (ensure_profile uid payload env s)))).
Proof.
  unfold ensure_profile, get_service_db, pool_guard, bind.
  destruct (pool s); simpl; [|apply profiles_keep_filled_refl].
  match goal with
  | |- context [upsert_profile ?sc ?row env s] =>
      pose proof (upsert_profile_keeps_filled sc row env s) as H;
      destruct (upsert_profile sc row env s) as [[[]|e] s1]; exact H
  end.
Qed.

Lemma get_current_user_keeps_filled (credentials : option string) (env : Env) (s : State) :
  profiles_keep_filled (profiles (db s))
                       (profiles (db (snd (get_current_user credentials env s)))).
Proof.
  destruct credentials as [token|]; [|apply profiles_keep_filled_refl].
  unfold get_current_user, bind.
  pose proof (decode_token_outcome token env s) as [Hs _].
  destruct (decode_token token env s) as [[payload|e] s0]; simpl in Hs; subst s0;
    [|apply profiles_keep_filled_refl].
  destruct (PyStr.truthy (claim_sub payload)); simpl; [|apply profiles_keep_filled_refl].
  pose proof (ensure_profile_keeps_filled (or_empty (claim_sub payload)) payload env s) as H.
  destruct (ensure_profile (or_empty (claim_sub payload)) payload env s) as [[[]|e] s1];
    exact H.
Qed.

Lemma get_optional_user_keeps_filled (credentials : option string) (env : Env) (s : State) :
  profiles_keep_filled (profiles (db s))
                       (profiles (db (snd (get_optional_user credentials env s)))).
Proof.
  destruct credentials as [token|]; [|apply profiles_keep_filled_refl].
  unfold get_optional_user, bind.
  pose proof (decode_token_outcome token env s) as [Hs _].
  destruct (decode_token token env s) as [[payload|e] s0]; simpl in Hs; subst s0;
    [|apply profiles_keep_filled_refl].
  destruct (PyStr.truthy (claim_sub payload)); simpl; [|apply profiles_keep_filled_refl].
  pose proof (ensure_profile_keeps_filled (or_empty (claim_sub payload)) payload env s) as H.
  destruct (ensure_profile (or_empty (claim_sub payload)) payload env s) as [[[]|e] s1];
    exact H.
Qed.

(** C7. Whatever the claims of the token, the upsert of [ensure_profile],
    and with it every authentication through [get_current_user] or
    [get_optional_user], leaves each existing profile in its place with its
    id and with every field that was non-empty ([handle], [display_name],
    [avatar_url]) unchanged. *)
Theorem reauthentication_keeps_filled_fields
        (uid : string) (payload : Claims) (credentials : option string)
        (env : Env) (s : State) (i : nat) (old : Profile) :
  nth_error (profiles (db s)) i = Some old ->
  (exists new,
      nth_error (profiles (db (snd (ensure_profile uid payload env s)))) i = Some new
      /\ keeps_filled old new)
  /\ (exists new,
         nth_error (profiles (db (snd (get_current_user credentials env s)))) i = Some new
         /\ keeps_filled old new)
  /\ (exists new,
         nth_error (profiles (db (snd (get_optional_user credentials env s)))) i = Some new
         /\ keeps_filled old new).
Proof.
  intros H. split; [|split].
  - exact (ensure_profile_keeps_filled uid payload env s i old H).
  - exact (get_current_user_keeps_filled credentials env s i old H).
  - exact (get_optional_user_keeps_filled credentials env s i old H).
Qed.

Lemma reauthentication_keeps_filled_fields_witness :
  exists new,
    nth_error (profiles (db (snd (get_current_user (Some "alice.jwt") example_env abc_state)))) 0
    = Some new
    /\ keeps_filled (mkProfile (user_id alice) (Some "alice-liddell-a11ce0") (Some "Alice") None)
                    new.
Proof.
  apply (reauthentication_keeps_filled_fields
           (user_id alice) alice_claims (Some "alice.jwt") example_env abc_state 0).
  reflexivity.
Defined.

(** Alice signs in again with the full name "Alice Liddell" and an avatar:
    the display name "Alice" stays, the missing avatar is filled in. *)
Example reauthentication_fills_avatar_only :
  get_current_user (Some "alice.jwt") example_env abc_state
  = (Return alice,
     mkState (set_profiles abc_tables
                [ mkProfile (user_id alice) (Some "alice-liddell-a11ce0") (Some "Alice")
                            (Some "https://img.example.org/alice.png") ])
             [] true).
Proof. vm_compute. reflexivity. Qed.

(** ** Running a handler step by step *)

Lemma bind_run {A B} (m : M A) (k : A -> M B) (env : Env) (s : State) :
  bind m k env s
  = match m env s with
    | (Return a, s') => k a env s'
    | (Raise e, s') => (Raise e, s')
    end.
Proof. reflexivity. Qed.

(** ** C8: the upload comes before the row *)

Lemma database_only_ret {A} (a : A) : database_only (ret a).
Proof. intros env s; simpl; auto. Qed.

Lemma database_only_raise {A} (e : Exn) : database_only (@raise A e).
Proof. intros env s; simpl; auto. Qed.

Lemma database_only_bind {A B} (m : M A) (k : A -> M B) :
  database_only m -> (forall a, database_only (k a)) -> database_only (bind m k).
Proof.
  intros Hm Hk env s. unfold bind. specialize (Hm env s).
  destruct (m env s) as [[a|e] s1]; simpl in *; [|exact Hm].
  destruct (Hk a env s1) as [H1 H2]. destruct Hm as [H3 H4]. split; congruence.
Qed.

Lemma database_only_get_tables : database_only get_tables.
Proof. intros env s; simpl; auto. Qed.

Lemma database_only_put_tables (t : Tables) : database_only (put_tables t).
Proof. intros env s; simpl; auto. Qed.

Lemma database_only_ask : database_only ask.
Proof. intros env s; simpl; auto. Qed.

Lemma database_only_allowed (sc : Scope) (cmd : Command) (r : Row) :
  database_only (allowed sc cmd r).
Proof. intros env s; simpl; auto. Qed.

Lemma database_only_pool_guard : database_only pool_guard.
Proof. intros env s; unfold pool_guard; destruct (pool s) eqn:E; simpl; auto. Qed.

Lemma database_only_for_each {A} (xs : list A) (body : A -> M unit) :
  (forall x, database_only (body x)) -> database_only (for_each xs body).
Proof.
  intros Hb. induction xs as [|x r IH]; simpl.
  - apply database_only_ret.
  - apply database_only_bind; auto.
Qed.

Lemma database_only_create_signed_url (path : string) :
  database_only (create_signed_url path).
Proof.
  intros env s. unfold create_signed_url.
  destruct (storage_signed_url env path); simpl; auto.
Qed.

Create HintDb frame.
#[local] Hint Resolve database_only_ret database_only_raise database_only_get_tables
  database_only_put_tables database_only_ask database_only_allowed
  database_only_pool_guard database_only_create_signed_url : frame.

Ltac frame :=
  repeat first
    [ progress eauto with frame
    | apply database_only_bind; [|intros ?]
    | apply database_only_for_each; intros ?
    | match goal with
      | |- database_only (if ?b then _ else _) => destruct b
      | |- database_only (match ?x with _ => _ end) => destruct x
      end ].

Lemma database_only_upsert_tag (sc : Scope) (slug display : string) :
  database_only (upsert_tag sc slug display).
Proof. unfold upsert_tag. frame. Qed.

Lemma database_only_ensure_tags (conn : Scope) (tag_list : list string) :
  database_only (ensure_tags conn tag_list).
Proof.
  induction tag_list as [|tag rest IH]; simpl; [frame|].
  destruct (PyStr.is_empty (slugify tag)); [exact IH|].
  apply database_only_bind; [apply database_only_upsert_tag|intros id].
  apply database_only_bind; [exact IH|intros ids]. frame.
Qed.

Lemma database_only_insert_sound_tag (sc : Scope) (sid : string) (tid : nat) :
  database_only (insert_sound_tag sc sid tid).
Proof. unfold insert_sound_tag. frame. Qed.

Lemma database_only_attach_tags (conn : Scope) (sid : string) (tag_list : list string) :
  database_only (attach_tags conn sid tag_list).
Proof.
  unfold attach_tags.
  apply database_only_bind; [apply database_only_ensure_tags|intros ids].
  destruct ids; [frame|].
  apply database_only_bind; [|intros ?; frame].
  apply database_only_for_each. intros tid. apply database_only_insert_sound_tag.
Qed.

Lemma database_only_get_db {A} (uid : option string) (role : option string)
      (body : Scope -> M A) :
  (forall sc, database_only (body sc)) -> database_only (get_db uid role body).
Proof. intros H. unfold get_db. frame; apply H. Qed.

Lemma database_only_get_service_db {A} (body : Scope -> M A) :
  (forall sc, database_only (body sc)) -> database_only (get_service_db body).
Proof. intros H. unfold get_service_db. frame; apply H. Qed.

Lemma database_only_fetch_profiles (ids : list string) :
  database_only (fetch_profiles ids).
Proof.
  unfold fetch_profiles. destruct ids; [frame|].
  apply database_only_get_service_db. intros sc. frame.
Qed.

Lemma upload_failure_detail_message (message : string) (rest : list StorageArg) :
  message <> "" -> upload_failure_detail (ArgDict (Some message) :: rest) = message.
Proof. intros H. destruct message; [congruence | reflexivity]. Qed.

(** C8. [create_sound] uploads before it inserts. Whatever the request, it
    either leaves the world as it was or has stored the object under the
    sound's path. If the object store fails the upload, the request fails
    with status 502 and nothing is changed (no row in [sounds]); the detail
    is the store's message when there is one, and "Storage upload failed."
    otherwise. *)
Theorem create_sound_upload_failure
        (file : UploadFile) (name description tag_text privacy : string)
        (current_user : AuthUser) (uuid4 : string) (env : Env) (s : State) :
  let display_name := or_empty (create_sound_display_name file name) in
  let path := create_sound_storage_path file display_name current_user uuid4 in
  let ctype := upload_content_type (file_content_type file) in
  let r := create_sound file name description tag_text privacy current_user uuid4 env s in
  (snd r = s \/ bucket (snd r) = (path, (file_data file, ctype)) :: bucket s)
  /\ (forall args,
         display_name <> "" ->
         storage_upload_error env path (file_data file) ctype = Some args ->
         r = (Raise (HTTPException 502 (upload_failure_detail args)), s)
         /\ (forall message rest,
                args = ArgDict (Some message) :: rest -> message <> "" ->
                upload_failure_detail args = message)
         /\ (args = [] \/ (exists text rest, args = ArgOther text :: rest)
             \/ (exists rest, args = ArgDict None :: rest)
             \/ (exists rest, args = ArgDict (Some "") :: rest) ->
             upload_failure_detail args = "Storage upload failed.")).
Proof.
  intros display_name path ctype r. subst r. unfold create_sound.
  fold display_name. split.
  - destruct (PyStr.truthy (create_sound_display_name file name)); cbn [negb];
      [|now left].
    fold path. rewrite bind_run.
    unfold except_StorageException, upload_bytes.
    fold ctype. destruct (storage_upload_error env path (file_data file) ctype) as [args|].
    + now left.
    + right.
      match goal with
      | |- bucket (snd (?m env ?s1)) = _ =>
          assert (Hm : database_only m); [|exact (proj1 (Hm env s1))]
      end.
      apply database_only_bind; [|intros ?].
      * apply database_only_get_db. intros sc.
        apply database_only_bind; [frame|intros t].
        apply database_only_bind; [frame|intros ok].
        destruct ok; simpl; [|frame].
        apply database_only_bind; [frame|intros ?].
        apply database_only_attach_tags.
      * apply database_only_bind; [frame|intros url].
        apply database_only_bind; [apply database_only_fetch_profiles|intros pm]. frame.
  - intros args Hname Hup. split; [|split].
    + assert (Ht : PyStr.truthy (create_sound_display_name file name) = true).
      { subst display_name. destruct (create_sound_display_name file name) as [[|c d]|];
          simpl in *; congruence. }
      rewrite Ht. cbn [negb]. fold path. rewrite bind_run.
      unfold except_StorageException, upload_bytes. fold ctype. rewrite Hup. reflexivity.
    + intros message rest -> Hm. now apply upload_failure_detail_message.
    + intros [->|[[text [rest ->]]|[[rest ->]|[rest ->]]]]; reflexivity.
Qed.

Lemma create_sound_upload_failure_witness :
  create_sound clip "Air Horn" "" "meme, LOUD" "public" alice "S1"
               (failing_storage_env [ArgDict (Some "Bucket not found")]) abc_state
  = (Raise (HTTPException 502 "Bucket not found"), abc_state).
Proof.
  pose proof (create_sound_upload_failure clip "Air Horn" "" "meme, LOUD" "public" alice "S1"
                (failing_storage_env [ArgDict (Some "Bucket not found")]) abc_state) as H.
  cbv zeta in H. destruct H as [_ H].
  destruct (H [ArgDict (Some "Bucket not found")]) as [E _].
  - discriminate.
  - reflexivity.
  - exact E.
Defined.

(** With a store that takes the upload, the same request stores the
    object, inserts the row and attaches the two tags. *)
Example create_sound_success :
  let r := create_sound clip "Air Horn" "" "meme, LOUD" "public" alice "S1"
                        example_env abc_state in
  bucket (snd r)
  = [("a11ce000-0000-4000-8000-000000000001/S1/air-horn.mp3", ("ID3-bytes", "audio/mpeg"))]
  /\ map sound_id (sounds (db (snd r))) = ["A"; "B"; "C"; "S1"]
  /\ tags (db (snd r)) = [mkTag 1 "meme" "meme"; mkTag 2 "loud" "LOUD"]
  /\ sound_tags (db (snd r)) = [mkSoundTag "S1" 1; mkSoundTag "S1" 2]
  /\ match fst r with
     | Return out => out_tags out = ["meme"; "LOUD"] /\ out_privacy out = "public"
     | Raise _ => False
     end.
Proof. vm_compute. repeat split. Qed.

(** ** C6: reordering a playlist *)

Lemma last_index_none (sid : string) (ids : list string) (start : Z) :
  ~ In sid ids -> last_index sid ids start = None.
Proof.
  revert start. induction ids as [|x r IH]; intros start H; simpl; [reflexivity|].
  rewrite IH by (intros HI; apply H; now right).
  destruct (x =? sid) eqn:E; [|reflexivity].
  apply String.eqb_eq in E. exfalso. apply H. now left.
Qed.

Lemma last_index_last (sid : string) (l1 l2 : list string) (start : Z) :
  ~ In sid l2 ->
  last_index sid (l1 ++ sid :: l2) start = Some (start + Z.of_nat (length l1))%Z.
Proof.
  intros H. revert start. induction l1 as [|x r IH]; intros start; simpl.
  - rewrite (last_index_none sid l2 (start + 1) H), String.eqb_refl.
    f_equal. lia.
  - rewrite IH. f_equal. lia.
Qed.

Lemma reorder_frame_refl (pid : string) (ids : list string) (l : list PlaylistSound) :
  Forall2 (reorder_frame pid ids) l l.
Proof. induction l; constructor; auto. unfold reorder_frame; auto. Qed.

Lemma reorder_frame_step (pid sid : string) (ids : list string)
      (l1 l2 l3 : list PlaylistSound) :
  Forall2 (reorder_frame pid [sid]) l1 l2 ->
  Forall2 (reorder_frame pid ids) l2 l3 ->
  Forall2 (reorder_frame pid (sid :: ids)) l1 l3.
Proof.
  intros H12. revert l3. induction H12 as [|a b l1 l2 [A1 [A2 A3]] _ IH]; intros l3 H23.
  - inversion H23. constructor.
  - inversion H23 as [|b' c l2' l3' [B1 [B2 B3]] Hr]; subst. constructor; [|now apply IH].
    unfold reorder_frame. repeat split; try congruence.
    intros Hno.
    assert (Eab : b = a).
    { apply A3. destruct Hno as [Hno|Hno]; [now left|right].
      intros [Hin|[]]. apply Hno. now left. }
    subst b. apply B3. destruct Hno as [Hno|Hno]; [now left|right].
    intros Hin. apply Hno. now right.
Qed.

(** One [UPDATE playlist_sounds] changes that table only. *)
Lemma update_position_run (sc : Scope) (index : Z) (pid sid : string) (env : Env) (s : State) :
  update_position sc index pid sid env s
  = (Return tt,
     mkState
       (set_playlist_sounds (db s)
          (map (fun ps => if (ps_playlist_id ps =? pid) && (ps_sound_id ps =? sid)
                             && row_security env sc UPDATE (db s) (PlaylistSoundRow ps)
                          then with_position ps index else ps)
               (playlist_sounds (db s))))
       (bucket s) (pool s)).
Proof. reflexivity. Qed.

Lemma update_position_frame (sc : Scope) (index : Z) (pid sid : string) (env : Env)
      (l : list PlaylistSound) (t : Tables) :
  Forall2 (reorder_frame pid [sid]) l
          (map (fun ps => if (ps_playlist_id ps =? pid) && (ps_sound_id ps =? sid)
                             && row_security env sc UPDATE t (PlaylistSoundRow ps)
                          then with_position ps index else ps) l).
Proof.
  induction l as [|ps r IH]; simpl; constructor; [|exact IH].
  unfold reorder_frame.
  destruct (ps_playlist_id ps =? pid) eqn:E1; simpl; [|auto].
  destruct (ps_sound_id ps =? sid) eqn:E2; simpl; [|auto].
  destruct (row_security env sc UPDATE t (PlaylistSoundRow ps)); simpl; [|auto].
  apply String.eqb_eq in E1, E2. repeat split.
  intros [H|H]; [congruence|]. exfalso. apply H. now left.
Qed.

Lemma reorder_loop_frame (sc : Scope) (pid : string) (env : Env) (ids : list string) :
  forall (start : Z) (s : State),
  exists l',
    for_each (enumerate ids start) (fun '(index, sid) => update_position sc index pid sid)
             env s
    = (Return tt, mkState (set_playlist_sounds (db s) l') (bucket s) (pool s))
    /\ Forall2 (reorder_frame pid ids) (playlist_sounds (db s)) l'.
Proof.
  induction ids as [|x r IH]; intros start s; simpl.
  - exists (playlist_sounds (db s)). split; [|apply reorder_frame_refl].
    unfold ret. destruct s as [[] ? ?]; reflexivity.
  - rewrite bind_run, update_position_run.
    match goal with
    | |- context [for_each _ _ env ?s1] => destruct (IH (start + 1)%Z s1) as [l' [E F]]
    end.
    exists l'. split; [rewrite E; reflexivity|].
    simpl in F. eapply reorder_frame_step; [apply update_position_frame | exact F].
Qed.

Lemma reordered_step (pid x : string) (r : list string) (start : Z) (ps : PlaylistSound) :
  reordered pid r (start + 1)
            (if (ps_playlist_id ps =? pid) && (ps_sound_id ps =? x) && true
             then with_position ps start else ps)
  = reordered pid (x :: r) start ps.
Proof.
  unfold reordered. simpl.
  destruct (ps_playlist_id ps =? pid) eqn:E1; simpl.
  - rewrite (String.eqb_sym x).
    destruct (ps_sound_id ps =? x) eqn:E2; simpl; rewrite E1;
      destruct (last_index (ps_sound_id ps) r (start + 1)); reflexivity.
  - now rewrite E1.
Qed.

Lemma map_reordered_nil (pid : string) (start : Z) (l : list PlaylistSound) :
  map (reordered pid [] start) l = l.
Proof.
  induction l as [|ps l IH]; simpl; [reflexivity|].
  rewrite IH. f_equal. unfold reordered. destruct (ps_playlist_id ps =? pid); reflexivity.
Qed.

Lemma reorder_loop_exact (sc : Scope) (pid : string) (env : Env) (ids : list string) :
  forall (start : Z) (s : State),
    (forall t ps, playlists t = playlists (db s) -> ps_playlist_id ps = pid ->
                  row_security env sc UPDATE t (PlaylistSoundRow ps) = true) ->
    for_each (enumerate ids start) (fun '(index, sid) => update_position sc index pid sid)
             env s
    = (Return tt,
       mkState (set_playlist_sounds (db s)
                  (map (reordered pid ids start) (playlist_sounds (db s))))
               (bucket s) (pool s)).
Proof.
  induction ids as [|x r IH]; intros start s Hp; simpl.
  - rewrite map_reordered_nil. unfold ret. destruct s as [[] ? ?]; reflexivity.
  - rewrite bind_run, update_position_run.
    rewrite IH by (intros t ps Ht; apply Hp; exact Ht).
    cbn [db bucket pool]. unfold set_playlist_sounds.
    cbn [profiles sounds tags sound_tags playlists playlist_sounds tags_id_seq
         default_created_at].
    rewrite map_map. do 3 f_equal.
    apply map_ext_in. intros ps _.
    rewrite <- reordered_step. f_equal.
    destruct (ps_playlist_id ps =? pid) eqn:E1; simpl; [|reflexivity].
    apply String.eqb_eq in E1.
    now rewrite (Hp (db s) ps eq_refl E1).
Qed.

Lemma repositioned_refl (t : Tables) : repositioned t t.
Proof. exists (playlist_sounds t). split; [now destruct t | split; reflexivity]. Qed.

Lemma repositioned_update (sc : Scope) (index : Z) (pid sid : string) (env : Env)
      (t0 t : Tables) :
  repositioned t0 t ->
  repositioned t0
    (set_playlist_sounds t
       (map (fun ps => if (ps_playlist_id ps =? pid) && (ps_sound_id ps =? sid)
                          && row_security env sc UPDATE t (PlaylistSoundRow ps)
                       then with_position ps index else ps)
            (playlist_sounds t))).
Proof.
  intros [l [-> [Hp Hs]]].
  eexists. split; [reflexivity|]. cbn [playlist_sounds set_playlist_sounds].
  rewrite <- Hp, <- Hs, !map_map.
  split; apply map_ext; intros ps;
    destruct ((ps_playlist_id ps =? pid) && (ps_sound_id ps =? sid)
              && row_security env sc UPDATE _ (PlaylistSoundRow ps)); reflexivity.
Qed.

(** The loop of [reorder_playlist_sounds], read at one row that the policy
    lets through. *)
Lemma reorder_loop_row (sc : Scope) (pid : string) (env : Env) (t0 : Tables)
      (ids : list string) :
  forall (start : Z) (s : State) (i : nat) (ps : PlaylistSound),
    repositioned t0 (db s) ->
    nth_error (playlist_sounds (db s)) i = Some ps ->
    ps_playlist_id ps = pid ->
    (forall t pos,
        repositioned t0 t ->
        row_security env sc UPDATE t
                     (PlaylistSoundRow (mkPlaylistSound (ps_playlist_id ps) (ps_sound_id ps) pos))
        = true) ->
    nth_error
      (playlist_sounds
         (db (snd (for_each (enumerate ids start)
                            (fun '(index, sid) => update_position sc index pid sid) env s))))
      i
    = Some (reordered pid ids start ps).
Proof.
  induction ids as [|x r IH]; intros start s i ps Hrep Hnth Hpid Hmay.
  - cbn. rewrite Hnth. f_equal. unfold reordered. rewrite Hpid, String.eqb_refl. reflexivity.
  - cbn [enumerate for_each]. rewrite bind_run, update_position_run.
    rewrite <- reordered_step.
    apply IH.
    + cbn [db]. apply repositioned_update. exact Hrep.
    + cbn [db]. unfold set_playlist_sounds. cbn [playlist_sounds].
      rewrite nth_error_map, Hnth. cbn [option_map]. f_equal.
      rewrite Hpid, String.eqb_refl. cbn [andb].
      destruct (ps_sound_id ps =? x); [|reflexivity]. cbn [andb].
      assert (E : row_security env sc UPDATE (db s) (PlaylistSoundRow ps) = true).
      { specialize (Hmay (db s) (ps_position ps) Hrep). now destruct ps. }
      now rewrite E.
    + destruct ((ps_playlist_id ps =? pid) && (ps_sound_id ps =? x) && true); [|exact Hpid].
      exact Hpid.
    + intros t pos Ht.
      destruct ((ps_playlist_id ps =? pid) && (ps_sound_id ps =? x) && true);
        apply Hmay; exact Ht.
Qed.

(** C6, as the code has it. A reorder request always succeeds and changes
    nothing but positions in [playlist_sounds]: no row is added for a listed
    id that is not a member, and a row of another playlist or of a member
    that is not listed stays as it is. Every listed member whose own
    membership row the policy lets the caller update gets the 1-based index
    of its (last) occurrence in the list, whatever the policy says of the
    other rows. From A:1, B:2, C:3 the request [C, A] gives C:1, A:2 and
    leaves B at 2. *)
Theorem reorder_rewrites_listed_members
        (pid : string) (sound_ids : list string) (current_user : AuthUser)
        (env : Env) (s : State) :
  pool s = true ->
  let r := reorder_playlist_sounds pid sound_ids current_user env s in
  let before := playlist_sounds (db s) in
  let after := playlist_sounds (db (snd r)) in
  fst r = Return true
  /\ snd r = mkState (set_playlist_sounds (db s) after) (bucket s) (pool s)
  /\ Forall2 (reorder_frame pid sound_ids) before after
  /\ (forall i ps,
         nth_error before i = Some ps ->
         ps_playlist_id ps = pid ->
         may_update_row env current_user (db s) ps ->
         nth_error after i = Some (reordered pid sound_ids 1 ps)
         /\ forall l1 l2,
              sound_ids = l1 ++ ps_sound_id ps :: l2 ->
              ~ In (ps_sound_id ps) l2 ->
              nth_error after i = Some (with_position ps (Z.of_nat (length l1) + 1)))
  /\ (may_reorder env current_user pid (db s) ->
      after = map (reordered pid sound_ids 1) before)
  /\ playlist_sounds
       (db (snd (reorder_playlist_sounds "P" ["C"; "A"] alice example_env abc_state)))
     = [ mkPlaylistSound "P" "A" (Some 2%Z);
         mkPlaylistSound "P" "B" (Some 2%Z);
         mkPlaylistSound "P" "C" (Some 1%Z) ].
Proof.
  intros Hpool r before after.
  assert (Erun :
             reorder_playlist_sounds pid sound_ids current_user env s
             = match for_each (enumerate sound_ids 1)
                       (fun '(index, sid) =>
                          update_position
                            (bound_scope (Some (user_id current_user)) (user_role current_user))
                            index pid sid) env s with
               | (Return _, s') => (Return true, s')
               | (Raise e, s') => (Raise e, s')
               end).
  { unfold reorder_playlist_sounds, get_db.
    rewrite !bind_run. unfold pool_guard. rewrite Hpool. reflexivity. }
  destruct (reorder_loop_frame
              (bound_scope (Some (user_id current_user)) (user_role current_user))
              pid env sound_ids 1%Z s) as [l' [E F]].
  assert (Er : r = (Return true, mkState (set_playlist_sounds (db s) l') (bucket s) (pool s))).
  { subst r. rewrite Erun, E. reflexivity. }
  assert (Ea : after = l') by (subst after; rewrite Er; reflexivity).
  split; [now rewrite Er|]. split; [rewrite Er, Ea; reflexivity|].
  split; [rewrite Ea; exact F|]. split; [|split].
  - intros i ps Hnth Hpid Hmay.
    assert (Erow : nth_error after i = Some (reordered pid sound_ids 1 ps)).
    { subst after r. rewrite Erun.
      pose proof (reorder_loop_row
                    (bound_scope (Some (user_id current_user)) (user_role current_user))
                    pid env (db s) sound_ids 1%Z s i ps (repositioned_refl (db s))
                    Hnth Hpid Hmay) as Hrow.
      destruct (for_each (enumerate sound_ids 1) _ env s) as [[[]|e] s1]; exact Hrow. }
    split; [exact Erow|].
    intros l1 l2 Hids Hlast. rewrite Erow. f_equal.
    unfold reordered. rewrite Hpid, String.eqb_refl, Hids.
    rewrite (last_index_last _ l1 l2 1%Z Hlast). f_equal. lia.
  - intros Hmay. subst after r. rewrite Erun.
    rewrite (reorder_loop_exact _ pid env sound_ids 1%Z s Hmay). reflexivity.
  - vm_compute. reflexivity.
Qed.

Lemma alice_may_reorder : may_reorder example_env alice "P" abc_tables.
Proof.
  intros t ps Ht Hpid. simpl. rewrite Ht, Hpid. reflexivity.
Defined.

(** Under a policy that closes the membership of B to UPDATE, the request
    [B, C, A] moves A and C and leaves B. *)
Lemma reorder_rewrites_listed_members_witness :
  let after := playlist_sounds
                 (db (snd (reorder_playlist_sounds "P" ["B"; "C"; "A"] alice (pinned_env "B")
                                                   abc_state))) in
  nth_error after 0 = Some (mkPlaylistSound "P" "A" (Some 3%Z))
  /\ after = [ mkPlaylistSound "P" "A" (Some 3%Z);
               mkPlaylistSound "P" "B" (Some 2%Z);
               mkPlaylistSound "P" "C" (Some 2%Z) ].
Proof.
  pose proof (reorder_rewrites_listed_members "P" ["B"; "C"; "A"] alice (pinned_env "B")
                                              abc_state eq_refl) as H.
  cbv zeta in H. destruct H as [_ [_ [_ [H _]]]].
  split; [|vm_compute; reflexivity].
  refine (proj2 (H 0 (mkPlaylistSound "P" "A" (Some 1%Z)) eq_refl eq_refl _)
                ["B"; "C"] [] eq_refl (fun x => x)).
  intros t pos [l [-> _]]. reflexivity.
Defined.

(** C6 as stated fails in its example: after the request [C, A] the
    position of B is 2, as before, and not 3. *)
Lemma reorder_leaves_B_at_2 :
  let after := playlist_sounds
                 (db (snd (reorder_playlist_sounds "P" ["C"; "A"] alice example_env abc_state))) in
  map (fun ps => (ps_sound_id ps, ps_position ps)) (playlist_sounds abc_tables)
  = [("A", Some 1%Z); ("B", Some 2%Z); ("C", Some 3%Z)]
  /\ map (fun ps => (ps_sound_id ps, ps_position ps)) after
     = [("A", Some 2%Z); ("B", Some 2%Z); ("C", Some 1%Z)]
  /\ ~ In (mkPlaylistSound "P" "B" (Some 3%Z)) after.
Proof.
  vm_compute. repeat split. intros [H|[H|[H|[]]]]; discriminate H.
Qed.

(** ** C1: what is kept of a share token *)

Lemma hexdigest_length (s : string) : String.length (Sha256.hexdigest s) = 64.
Proof.
  unfold Sha256.hexdigest, Sha256.hex_of_state, Sha256.hex32. reflexivity.
Qed.

Lemma b64_char_not_pad (n : N) : Ascii.eqb "=" (Secrets.b64_char n) = false.
Proof.
  unfold Secrets.b64_char.
  assert (H : (N.land n 63 < 64)%N).
  { change 63%N with (N.ones 6). rewrite N.land_ones. apply N.mod_lt. discriminate. }
  set (m := N.land n 63) in *. clearbody m.
  rewrite <- (N2Nat.id m). 
  assert (Hn : N.to_nat m < 64) by lia.
  set (k := N.to_nat m) in *. clearbody k. clear H m.
  do 64 (destruct k as [|k]; [reflexivity|]). lia.
Qed.

Lemma rstrip_keep (p : ascii -> bool) (c : ascii) (r : string) :
  p c = false -> PyStr.rstrip_by p (String c r) = String c (PyStr.rstrip_by p r).
Proof. intros H. simpl. rewrite H, andb_false_r. reflexivity. Qed.

Lemma token_urlsafe_length (rng : Secrets.entropy) :
  String.length (Secrets.token_urlsafe rng 16) = 22.
Proof.
  unfold Secrets.token_urlsafe, Secrets.token_bytes.
  cbn [seq map Secrets.urlsafe_b64encode].
  repeat rewrite rstrip_keep by apply b64_char_not_pad.
  reflexivity.
Qed.

Lemma digest_is_not_token (rng : Secrets.entropy) :
  Sha256.hexdigest (Secrets.token_urlsafe rng 16) <> Secrets.token_urlsafe rng 16.
Proof.
  intros H. apply (f_equal String.length) in H.
  rewrite hexdigest_length, token_urlsafe_length in H. discriminate.
Qed.

Lemma create_playlist_run (payload : PlaylistCreate) (current_user : AuthUser)
      (uuid4 : string) (rng : Secrets.entropy) (env : Env) (s : State) :
  let token := Secrets.token_urlsafe rng 16 in
  let row := created_playlist_row payload current_user uuid4 (Sha256.hexdigest token) (db s) in
  create_playlist payload current_user uuid4 rng env s
  = if pool s then
      if row_security env (bound_scope (Some (user_id current_user)) (user_role current_user))
                      INSERT (db s) (PlaylistRow row)
      then (Return (mkPlaylistOut uuid4 (user_id current_user) (create_name payload)
                                  (create_description payload)
                                  (normalize_privacy (Some (create_privacy payload)))
                                  (default_created_at (db s)) 0 (Some token) None),
            mkState (set_playlists (db s) (playlists (db s) ++ [row])) (bucket s) (pool s))
      else (Raise rls_violation, s)
    else (Raise pool_error, s).
Proof.
  intros token row. subst token row.
  unfold create_playlist, created_playlist_row, get_db, pool_guard,
    bind, get_tables, allowed, put_tables, ret, raise.
  destruct (pool s) eqn:Hpool; [|reflexivity].
  cbn -[normalize_privacy Sha256.hexdigest Secrets.token_urlsafe].
  destruct (row_security env _ INSERT (db s) _);
    cbn -[normalize_privacy Sha256.hexdigest Secrets.token_urlsafe];
    rewrite ?Hpool; reflexivity.
Qed.

Lemma rotate_share_token_run (pid : string) (current_user : AuthUser)
      (rng : Secrets.entropy) (env : Env) (s : State) :
  let token := Secrets.token_urlsafe rng 16 in
  let hit := rotation_hit env current_user pid (db s) in
  let s' := mkState (set_playlists (db s)
                       (map (fun p => if hit p
                                      then with_share_token_hash p (Sha256.hexdigest token)
                                      else p)
                            (playlists (db s))))
                    (bucket s) (pool s) in
  rotate_share_token pid current_user rng env s
  = if pool s then
      match find hit (playlists (db s)) with
      | Some _ => (Return token, s')
      | None => (Raise (not_found "Playlist not found."), s')
      end
    else (Raise pool_error, s).
Proof.
  intros token hit s'. subst token hit s'.
  unfold rotate_share_token, rotation_hit, get_db, pool_guard,
    bind, get_tables, ask, put_tables, ret, raise.
  destruct (pool s) eqn:Hpool; [|reflexivity].
  cbn -[Sha256.hexdigest Secrets.token_urlsafe].
  destruct (find _ (playlists (db s)));
    cbn -[Sha256.hexdigest Secrets.token_urlsafe]; rewrite ?Hpool; reflexivity.
Qed.

Lemma map_no_hit {A} (hit : A -> bool) (f : A -> A) (l : list A) :
  find hit l = None -> map (fun x => if hit x then f x else x) l = l.
Proof.
  induction l as [|x r IH]; simpl; [reflexivity|].
  destruct (hit x); [discriminate|]. intros H. now rewrite IH.
Qed.

Lemma state_eta (s : State) (b : bool) :
  pool s = b -> mkState (set_playlists (db s) (playlists (db s))) (bucket s) b = s.
Proof. intros <-. destruct s as [[] ? ?]; reflexivity. Qed.

(** C1, as the code has it. Creating a playlist and rotating its token
    persist the plain SHA-256 hex digest of the token (64 characters, of a
    token of 22) and nothing else that depends on the token: the state
    after the call is the same for any two tokens with one digest. No salt
    enters the digest. The plaintext is in the response of the call. *)
Theorem share_token_persisted_as_digest
        (payload : PlaylistCreate) (current_user : AuthUser) (uuid4 pid : string)
        (rng : Secrets.entropy) (env : Env) (s : State) :
  let token := Secrets.token_urlsafe rng 16 in
  let digest := Sha256.hexdigest token in
  let created := create_playlist payload current_user uuid4 rng env s in
  let rotated := rotate_share_token pid current_user rng env s in
  let row := created_playlist_row payload current_user uuid4 digest (db s) in
  let hit := rotation_hit env current_user pid (db s) in
  (digest <> token /\ String.length digest = 64 /\ String.length token = 22)
  /\ ((exists out,
          created = (Return out,
                     mkState (set_playlists (db s) (playlists (db s) ++ [row]))
                             (bucket s) (pool s))
          /\ pout_share_token out = Some token)
      \/ (exists e, created = (Raise e, s)))
  /\ (pool s = true ->
      row_security env (bound_scope (Some (user_id current_user)) (user_role current_user))
                   INSERT (db s) (PlaylistRow row) = true ->
      exists out, fst created = Return out /\ pout_share_token out = Some token)
  /\ (fst rotated = Return token \/ exists e, fst rotated = Raise e)
  /\ (snd rotated = s
      \/ snd rotated
         = mkState (set_playlists (db s)
                      (map (fun p => if hit p then with_share_token_hash p digest else p)
                           (playlists (db s))))
                   (bucket s) (pool s))
  /\ (forall e, fst rotated = Raise e -> snd rotated = s)
  /\ (pool s = true -> (exists p, In p (playlists (db s)) /\ hit p = true) ->
      fst rotated = Return token)
  /\ (forall rng',
         Sha256.hexdigest (Secrets.token_urlsafe rng' 16) = digest ->
         snd (create_playlist payload current_user uuid4 rng' env s) = snd created
         /\ snd (rotate_share_token pid current_user rng' env s) = snd rotated).
Proof.
  intros token digest created rotated row hit.
  pose proof (create_playlist_run payload current_user uuid4 rng env s) as Ec.
  pose proof (rotate_share_token_run pid current_user rng env s) as Er.
  cbv zeta in Ec, Er. fold token in Ec, Er. fold digest in Ec, Er.
  fold row in Ec. fold hit in Er. fold created in Ec. fold rotated in Er.
  split; [|split; [|split; [|split; [|split; [|split; [|split]]]]]].
  - split; [apply digest_is_not_token|].
    split; [apply hexdigest_length | apply token_urlsafe_length].
  - rewrite Ec. destruct (pool s); [|right; eauto].
    destruct (row_security env _ INSERT (db s) (PlaylistRow row)); [left|right]; eauto.
  - intros Hpool Hok. rewrite Ec, Hpool, Hok. simpl. eexists. split; reflexivity.
  - rewrite Er. destruct (pool s); [|right; simpl; eauto].
    destruct (find hit (playlists (db s))); [left|right]; simpl; eauto.
  - rewrite Er. destruct (pool s); [|now left].
    destruct (find hit (playlists (db s))); right; reflexivity.
  - intros e. rewrite Er. destruct (pool s) eqn:Hpool; [|reflexivity].
    destruct (find hit (playlists (db s))) eqn:Ef; [discriminate|].
    intros _. cbn [snd]. rewrite (map_no_hit hit _ _ Ef). now apply state_eta.
  - intros Hpool [p [Hin Hp]]. rewrite Er, Hpool.
    destruct (find hit (playlists (db s))) eqn:Ef; [reflexivity|].
    exfalso. pose proof (find_none _ _ Ef p Hin). congruence.
  - intros rng' Hd.
    pose proof (create_playlist_run payload current_user uuid4 rng' env s) as Ec'.
    pose proof (rotate_share_token_run pid current_user rng' env s) as Er'.
    cbv zeta in Ec', Er'. rewrite Hd in Ec', Er'. fold row in Ec'. fold hit in Er'.
    rewrite Ec', Er', Ec, Er. split.
    + destruct (pool s); [|reflexivity].
      destruct (row_security env _ INSERT (db s) (PlaylistRow row)); reflexivity.
    + destruct (pool s); [|reflexivity].
      destruct (find hit (playlists (db s))); reflexivity.
Qed.

Lemma share_token_persisted_as_digest_witness :
  exists out,
    fst (create_playlist mix alice "P1" zero_rng example_env empty_state) = Return out
    /\ pout_share_token out = Some "AAAAAAAAAAAAAAAAAAAAAA".
Proof.
  pose proof (share_token_persisted_as_digest mix alice "P1" "P" zero_rng example_env
                                              empty_state) as H.
  cbv zeta in H. destruct H as [_ [_ [H _]]].
  exact (H eq_refl eq_refl).
Defined.

(** C1 as stated fails in "salted": the column holds the SHA-256 digest of
    the bare token. Playlists of two owners, created in two worlds from one
    token, carry one and the same value, the digest that [hashlib] gives for
    the token alone. *)
Lemma share_token_hash_is_unsalted :
  Secrets.token_urlsafe zero_rng 16 = "AAAAAAAAAAAAAAAAAAAAAA"
  /\ map playlist_share_token_hash
         (playlists (db (snd (create_playlist mix alice "P1" zero_rng example_env empty_state))))
     = [Some "8a5bdb4cc15164126c6ef2668de9dd240d299ce6397a42c95a9411b93d080ed8"]
  /\ (let s1 := snd (create_playlist mix alice "P1" zero_rng example_env empty_state) in
      map (fun p => (playlist_owner_id p, playlist_share_token_hash p))
          (playlists
             (db (snd (create_playlist (mkPlaylistCreate "other" None "public") bob "P2"
                                       zero_rng example_env s1))))
      = [ (user_id alice,
           Some "8a5bdb4cc15164126c6ef2668de9dd240d299ce6397a42c95a9411b93d080ed8");
          (user_id bob,
           Some "8a5bdb4cc15164126c6ef2668de9dd240d299ce6397a42c95a9411b93d080ed8") ])
  /\ Sha256.hexdigest "AAAAAAAAAAAAAAAAAAAAAA"
     = "8a5bdb4cc15164126c6ef2668de9dd240d299ce6397a42c95a9411b93d080ed8".
Proof. vm_compute. repeat split. Qed.

(** ** C4: the share link *)

Lemma select_playlist_sounds_reads (sc : Scope) (pid : string) (env : Env) (s : State) :
  exists rows, select_playlist_sounds sc pid env s = (Return rows, s).
Proof. unfold select_playlist_sounds, bind, get_tables, ask, ret. eauto. Qed.

Lemma fetch_profiles_reads (ids : list string) (env : Env) (s : State) :
  pool s = true -> exists found, fetch_profiles ids env s = (Return found, s).
Proof.
  intros Hpool. unfold fetch_profiles. destruct ids as [|i r]; [unfold ret; eauto|].
  unfold get_service_db, pool_guard, bind, get_tables, ask, ret. rewrite Hpool. eauto.
Qed.

Lemma sign_rows_reads (rows : list SoundTagsRow) (profile_map : list Profile)
      (env : Env) (s : State) :
  (exists outs, sign_rows rows profile_map env s = (Return outs, s)
                /\ length outs = length rows)
  \/ (exists args, sign_rows rows profile_map env s = (Raise (StorageException args), s)).
Proof.
  induction rows as [|row rest IH]; simpl.
  - left. exists []. split; reflexivity.
  - rewrite bind_run. unfold create_signed_url.
    destruct (storage_signed_url env (sound_storage_path (fst row))) as [args|url];
      [right; eauto|].
    rewrite bind_run.
    destruct IH as [[outs [E L]]|[args E]]; rewrite E; [left|right; eauto].
    eexists. split; [reflexivity|]. simpl. now rewrite L.
Qed.

Lemma sign_rows_returns (rows : list SoundTagsRow) (profile_map : list Profile)
      (env : Env) (s : State) :
  (forall path, exists url, storage_signed_url env path = inr url) ->
  exists outs, sign_rows rows profile_map env s = (Return outs, s).
Proof.
  intros Hsign. induction rows as [|row rest IH]; simpl; [unfold ret; eauto|].
  rewrite bind_run. unfold create_signed_url.
  destruct (Hsign (sound_storage_path (fst row))) as [url ->].
  rewrite bind_run. destruct IH as [outs ->]. unfold ret. eauto.
Qed.

Lemma get_playlist_share_found (token : string) (env : Env) (s : State) (p : Playlist) :
  pool s = true ->
  find (share_link_row env ServiceScope (Sha256.hexdigest token) (db s)) (playlists (db s))
  = Some p ->
  exists rows pm,
    get_playlist_share token env s
    = match sign_rows rows pm env s with
      | (Return outs, s') =>
          (Return (mkPlaylistDetail
                     (mkPlaylistOut (playlist_id p) (playlist_owner_id p) (playlist_name p)
                                    (playlist_description p) (playlist_privacy p)
                                    (playlist_created_at p) (length outs) None
                                    (dict_get (playlist_owner_id p) pm))
                     outs), s')
      | (Raise e, s') => (Raise e, s')
      end.
Proof.
  intros Hpool Ef.
  unfold get_playlist_share, get_service_db, pool_guard, bind, get_tables, ask.
  rewrite Hpool. cbv beta iota zeta. rewrite Ef.
  destruct (select_playlist_sounds_reads ServiceScope (playlist_id p) env s) as [rows ->].
  unfold ret. cbv beta iota zeta. cbn [fst snd].
  match goal with
  | |- context [fetch_profiles ?ids env s] =>
      destruct (fetch_profiles_reads ids env s Hpool) as [pm ->]
  end.
  exists rows, pm. reflexivity.
Qed.

(** What [get_playlist_share] does once the pool is there: 404 without a
    matching row; with the first matching row, a read-only assembly of the
    response that only a failing signature can stop. *)
Lemma get_playlist_share_run (token : string) (env : Env) (s : State) :
  pool s = true ->
  match find (share_link_row env ServiceScope (Sha256.hexdigest token) (db s))
             (playlists (db s)) with
  | None =>
      get_playlist_share token env s = (Raise (not_found "Share link not found."), s)
  | Some p =>
      ((exists detail,
           get_playlist_share token env s = (Return detail, s)
           /\ pout_id (detail_playlist detail) = playlist_id p
           /\ pout_privacy (detail_playlist detail) = playlist_privacy p
           /\ pout_share_token (detail_playlist detail) = None)
       \/ (exists args,
              get_playlist_share token env s = (Raise (StorageException args), s)))
      /\ ((forall path, exists url, storage_signed_url env path = inr url) ->
          exists detail, get_playlist_share token env s = (Return detail, s))
  end.
Proof.
  intros Hpool.
  destruct (find _ (playlists (db s))) as [p|] eqn:Ef.
  - destruct (get_playlist_share_found token env s p Hpool Ef) as [rows [pm ->]].
    split.
    + destruct (sign_rows_reads rows pm env s) as [[outs [-> L]]|[args ->]].
      * left. eexists. split; [reflexivity|]. simpl. auto.
      * right. eauto.
    + intros Hsign.
      destruct (sign_rows_returns rows pm env s Hsign) as [outs ->]. eauto.
  - unfold get_playlist_share, get_service_db, pool_guard, bind, get_tables, ask.
    rewrite Hpool. cbv beta iota zeta. rewrite Ef. reflexivity.
Qed.

Lemma share_link_row_shared (env : Env) (sc : Scope) (token : string) (t : Tables)
      (p : Playlist) :
  share_link_row env sc (Sha256.hexdigest token) t p = true ->
  shared_by token p.
Proof.
  unfold share_link_row, shared_by. intros H.
  apply andb_prop in H as [H _]. apply andb_prop in H as [H1 H2].
  apply String.eqb_eq in H2. split; [|exact H2].
  destruct (playlist_share_token_hash p) as [h|]; [|discriminate].
  apply String.eqb_eq in H1. now subst.
Qed.

Lemma shared_share_link_row (env : Env) (sc : Scope) (token : string) (t : Tables)
      (p : Playlist) :
  row_security env sc SELECT t (PlaylistRow p) = true ->
  shared_by token p ->
  share_link_row env sc (Sha256.hexdigest token) t p = true.
Proof.
  unfold share_link_row, shared_by. intros Hs [H1 H2].
  rewrite H1, H2, Hs, !String.eqb_refl. reflexivity.
Qed.

Lemma NoDup_map_inj {A B} (f : A -> B) (l : list A) (a b : A) :
  NoDup (map f l) -> In a l -> In b l -> f a = f b -> a = b.
Proof.
  induction l as [|x r IH]; simpl; intros Hnd Ha Hb Hf; [contradiction|].
  inversion Hnd as [|y ys Hnot Hr]; subst.
  destruct Ha as [->|Ha], Hb as [->|Hb]; auto.
  - exfalso. apply Hnot. rewrite Hf. now apply in_map.
  - exfalso. apply Hnot. rewrite <- Hf. now apply in_map.
Qed.

(** After a rotation that succeeded, no row answers to the previous token,
    if that token belonged to the rotated playlist alone and the new token
    has another digest. *)
Lemma rotation_retires_token (pid old_token : string) (current_user : AuthUser)
      (rng : Secrets.entropy) (env : Env) (s : State) :
  let rotated := rotate_share_token pid current_user rng env s in
  (exists new_token, fst rotated = Return new_token) ->
  NoDup (map playlist_id (playlists (db s))) ->
  (forall p, In p (playlists (db s)) ->
             playlist_share_token_hash p = Some (Sha256.hexdigest old_token) ->
             playlist_id p = pid) ->
  Sha256.hexdigest (Secrets.token_urlsafe rng 16) <> Sha256.hexdigest old_token ->
  pool (snd rotated) = true
  /\ forall sc,
       find (share_link_row env sc (Sha256.hexdigest old_token) (db (snd rotated)))
            (playlists (db (snd rotated))) = None.
Proof.
  intros rotated [new_token Hok] Hnd Hown Hfresh. subst rotated.
  pose proof (rotate_share_token_run pid current_user rng env s) as Er.
  cbv zeta in Er. rewrite Er in *. clear Er.
  destruct (pool s) eqn:Hpool; [|discriminate Hok].
  destruct (find (rotation_hit env current_user pid (db s)) (playlists (db s)))
    as [p0|] eqn:Ef; [|discriminate Hok].
  split; [reflexivity|]. intros sc. cbn [snd db].
  apply find_some in Ef as [Hin0 Hhit0].
  match goal with |- find ?f ?l = None => destruct (find f l) as [q|] eqn:Eq end;
    [|reflexivity].
  exfalso. apply find_some in Eq as [Hinq Hq].
  apply share_link_row_shared in Hq as [Hq _].
  unfold set_playlists in Hinq. cbn [playlists] in Hinq.
  apply in_map_iff in Hinq as [p [Hp Hinp]].
  destruct (rotation_hit env current_user pid (db s) p) eqn:Hhit.
  - subst q. simpl in Hq. congruence.
  - subst q. pose proof (Hown p Hinp Hq) as Hid.
    assert (p = p0).
    { apply (NoDup_map_inj playlist_id (playlists (db s))); auto.
      unfold rotation_hit in Hhit0. apply andb_prop in Hhit0 as [H0 _].
      apply String.eqb_eq in H0. congruence. }
    congruence.
Qed.

(** C4. With the pool up, a service handle that sees every playlist and an
    object store that signs, [get_playlist_share] returns a playlist exactly
    when some row holds the digest of the presented token and has privacy
    "link_only", and the playlist returned is such a row; it raises the 404
    "Share link not found." exactly when there is none. It never changes
    the world. After a rotation that succeeded, the previous token (held by
    the rotated playlist only, and with another digest than the new one)
    gets the 404. *)
Theorem share_link_lookup
        (token old_token pid : string) (current_user : AuthUser)
        (rng : Secrets.entropy) (env : Env) (s : State) :
  pool s = true ->
  let r := get_playlist_share token env s in
  let rotated := rotate_share_token pid current_user rng env s in
  snd r = s
  /\ (service_reads_playlists env (db s) ->
      (fst r = Raise (not_found "Share link not found.")
       <-> ~ exists p, In p (playlists (db s)) /\ shared_by token p)
      /\ (forall detail,
             fst r = Return detail ->
             exists p, In p (playlists (db s)) /\ shared_by token p
                       /\ pout_id (detail_playlist detail) = playlist_id p
                       /\ pout_privacy (detail_playlist detail) = "link_only")
      /\ (signing_works env ->
          ((exists detail, fst r = Return detail)
           <-> exists p, In p (playlists (db s)) /\ shared_by token p)))
  /\ ((exists new_token, fst rotated = Return new_token) ->
      NoDup (map playlist_id (playlists (db s))) ->
      (forall p, In p (playlists (db s)) ->
                 playlist_share_token_hash p = Some (Sha256.hexdigest old_token) ->
                 playlist_id p = pid) ->
      Sha256.hexdigest (Secrets.token_urlsafe rng 16) <> Sha256.hexdigest old_token ->
      get_playlist_share old_token env (snd rotated)
      = (Raise (not_found "Share link not found."), snd rotated)).
Proof.
  intros Hpool r rotated.
  assert (Hrot :
            (exists new_token, fst rotated = Return new_token) ->
            NoDup (map playlist_id (playlists (db s))) ->
            (forall p, In p (playlists (db s)) ->
                       playlist_share_token_hash p = Some (Sha256.hexdigest old_token) ->
                       playlist_id p = pid) ->
            Sha256.hexdigest (Secrets.token_urlsafe rng 16) <> Sha256.hexdigest old_token ->
            get_playlist_share old_token env (snd rotated)
            = (Raise (not_found "Share link not found."), snd rotated)).
  { subst rotated. intros Hok Hnd Hown Hfresh.
    destruct (rotation_retires_token pid old_token current_user rng env s
                                     Hok Hnd Hown Hfresh) as [Hpool' Hnone].
    pose proof (get_playlist_share_run old_token env _ Hpool') as Hrun'.
    now rewrite (Hnone ServiceScope) in Hrun'. }
  pose proof (get_playlist_share_run token env s Hpool) as Hrun. fold r in Hrun.
  destruct (find (share_link_row env ServiceScope (Sha256.hexdigest token) (db s))
                 (playlists (db s))) as [p|] eqn:Ef.
  - destruct Hrun as [Hcases Hsigned].
    apply find_some in Ef as [Hin Hrow].
    pose proof (share_link_row_shared _ _ _ _ _ Hrow) as Hshared.
    assert (Hex : exists q, In q (playlists (db s)) /\ shared_by token q) by eauto.
    split; [|split; [|exact Hrot]].
    + destruct Hcases as [[detail [-> _]]|[args ->]]; reflexivity.
    + intros _. split; [|split].
      * split; [|intros Hno; contradiction].
        intros H404. exfalso.
        destruct Hcases as [[detail [E _]]|[args E]]; rewrite E in H404; discriminate.
      * intros detail Hret.
        destruct Hcases as [[detail' [E [Hid [Hpriv _]]]]|[args E]];
          rewrite E in Hret; [|discriminate].
        inversion Hret; subst detail'. exists p.
        destruct Hshared as [Hh Hl]. repeat split; auto. congruence.
      * intros Hsign. split; [auto|]. intros _.
        destruct (Hsigned Hsign) as [detail E]. exists detail. now rewrite E.
  - assert (Hno : service_reads_playlists env (db s) ->
                  ~ exists q, In q (playlists (db s)) /\ shared_by token q).
    { intros Hsvc [q [Hin Hq]].
      pose proof (find_none _ _ Ef q Hin) as Hf.
      rewrite (shared_share_link_row env ServiceScope token (db s) q (Hsvc q) Hq) in Hf.
      discriminate. }
    split; [|split; [|exact Hrot]].
    + now rewrite Hrun.
    + intros Hsvc. split; [|split].
      * split; [intros _; auto | intros _; now rewrite Hrun].
      * intros detail Hret. rewrite Hrun in Hret. discriminate.
      * intros _. split.
        -- intros [detail Hret]. rewrite Hrun in Hret. discriminate.
        -- intros Hex. exfalso. exact (Hno Hsvc Hex).
Qed.

Lemma share_link_lookup_witness :
  (exists detail,
      fst (get_playlist_share "AAAAAAAAAAAAAAAAAAAAAA" example_env abc_state) = Return detail)
  /\ (let rotated := rotate_share_token "P" alice ones_rng example_env abc_state in
      get_playlist_share "AAAAAAAAAAAAAAAAAAAAAA" example_env (snd rotated)
      = (Raise (not_found "Share link not found."), snd rotated)).
Proof.
  pose proof (share_link_lookup "AAAAAAAAAAAAAAAAAAAAAA" "AAAAAAAAAAAAAAAAAAAAAA" "P"
                                alice ones_rng example_env abc_state eq_refl) as H.
  cbv zeta in H. destruct H as [_ [Hlookup Hrotated]]. split.
  - destruct (Hlookup (fun p => eq_refl)) as [_ [_ Hsigned]].
    apply Hsigned.
    + intros path. eexists. reflexivity.
    + eexists. split; [left; reflexivity|]. split; reflexivity.
  - cbv zeta. apply Hrotated.
    + eexists. vm_compute. reflexivity.
    + repeat constructor. simpl. tauto.
    + intros p [<-|[]] _. reflexivity.
    + vm_compute. discriminate.
Defined.

(** The share flow on the example: Alice creates a playlist, the token of
    the response opens it, and after she rotates the token only the new
    one does. *)
Example share_flow :
  let created := create_playlist mix alice "P1" zero_rng example_env empty_state in
  let s1 := snd created in
  let rotated := rotate_share_token "P1" alice ones_rng example_env s1 in
  let s2 := snd rotated in
  let shared token s :=
    match fst (get_playlist_share token example_env s) with
    | Return detail => Some (pout_id (detail_playlist detail))
    | Raise _ => None
    end in
  fst rotated = Return "_____________________w"
  /\ shared "AAAAAAAAAAAAAAAAAAAAAA" s1 = Some "P1"
  /\ shared "_____________________w" s1 = None
  /\ shared "AAAAAAAAAAAAAAAAAAAAAA" s2 = None
  /\ shared "_____________________w" s2 = Some "P1"
  /\ fst (get_playlist_share "AAAAAAAAAAAAAAAAAAAAAA" example_env s2)
     = Raise (HTTPException 404 "Share link not found.").
Proof. vm_compute. repeat split. Qed.

(** ** Further runs of the handlers on the example world *)

(** A listed id that is no member adds no row, and an id listed twice
    ends at the index of its last occurrence. *)
Example reorder_repeated_and_foreign_ids :
  map (fun ps => (ps_sound_id ps, ps_position ps))
      (playlist_sounds
         (db (snd (reorder_playlist_sounds "P" ["Z"; "A"; "A"] alice example_env abc_state))))
  = [("A", Some 3%Z); ("B", Some 2%Z); ("C", Some 3%Z)].
Proof. vm_compute. reflexivity. Qed.

(** Bob, whom the owner policy does not let update Alice's playlist, gets
    the same answer and changes nothing. *)
Example reorder_by_another_user :
  reorder_playlist_sounds "P" ["C"; "A"] bob example_env abc_state
  = (Return true, abc_state).
Proof. vm_compute. reflexivity. Qed.

(** An update whose tags have no letter or digit removes the old tag links
    of the sound and adds nothing. *)
Example update_sound_with_empty_slugs :
  let s1 := snd (create_sound clip "Air Horn" "" "meme, LOUD" "public" alice "S1"
                              example_env abc_state) in
  let r := update_sound "S1" (mkSoundUpdate None (Some "!!, ??") None) alice example_env s1 in
  fst r = Return true
  /\ tags (db (snd r)) = tags (db s1)
  /\ sound_tags (db s1) = [mkSoundTag "S1" 1; mkSoundTag "S1" 2]
  /\ sound_tags (db (snd r)) = [].
Proof. vm_compute. repeat split. Qed.

(** Without an initialized pool a handler fails before any statement. *)
Example pool_not_initialized :
  create_playlist mix alice "P1" zero_rng example_env (mkState empty_tables [] false)
  = (Raise (RuntimeError "Database pool is not initialized."),
     mkState empty_tables [] false).
Proof. vm_compute. reflexivity. Qed.

(** * Properties of the code beyond the claims *)

(** ** Slugs *)

Ltac slug_simpl :=
  cbn [single_hyphens slug_body PyStr.sub_runs PyStr.lstrip_by PyStr.rstrip_by
       PyStr.is_empty andb negb] in *.

Lemma slug_char_not_hyphen (c : ascii) :
  is_slug_char c = true -> Ascii.eqb "-" c = false /\ Ascii.eqb c "-" = false.
Proof.
  intros H. split.
  - destruct (Ascii.eqb "-" c) eqn:Ec; [|reflexivity].
    apply Ascii.eqb_eq in Ec. subst c. discriminate H.
  - destruct (Ascii.eqb c "-") eqn:Ec; [|reflexivity].
    apply Ascii.eqb_eq in Ec. subst c. discriminate H.
Qed.

Lemma single_hyphens_sub_runs (s : string) :
  forall b, single_hyphens b (PyStr.sub_runs is_slug_char "-" b s) = true.
Proof.
  induction s as [|c r IH]; intros b; slug_simpl; [reflexivity|].
  destruct (is_slug_char c) eqn:E; slug_simpl.
  - rewrite E. apply IH.
  - destruct b; slug_simpl; [apply IH|].
    change (is_slug_char "-") with false. cbn iota. rewrite Ascii.eqb_refl. apply IH.
Qed.

Lemma single_hyphens_lstrip (s : string) :
  single_hyphens false s = true ->
  single_hyphens true (PyStr.lstrip_by (Ascii.eqb "-") s) = true.
Proof.
  destruct s as [|c r]; slug_simpl; [auto|].
  destruct (is_slug_char c) eqn:E.
  - destruct (slug_char_not_hyphen c E) as [-> _]. slug_simpl. now rewrite E.
  - intros H. apply andb_prop in H as [H Hr]. apply andb_prop in H as [Hc _].
    rewrite Ascii.eqb_sym, Hc.
    destruct r as [|d r']; slug_simpl; [reflexivity|].
    destruct (is_slug_char d) eqn:Ed; [|rewrite andb_false_r in Hr; discriminate Hr].
    destruct (slug_char_not_hyphen d Ed) as [-> _]. slug_simpl. now rewrite Ed.
Qed.

Lemma slug_body_rstrip (s : string) :
  forall b, single_hyphens b s = true ->
            PyStr.rstrip_by (Ascii.eqb "-") s = ""
            \/ slug_body b (PyStr.rstrip_by (Ascii.eqb "-") s) = true.
Proof.
  induction s as [|c r IH]; intros b H; slug_simpl; [now left|].
  destruct (is_slug_char c) eqn:E.
  - destruct (slug_char_not_hyphen c E) as [-> _]. rewrite andb_false_r. right.
    slug_simpl. rewrite E.
    destruct (IH false H) as [-> | Hr]; [reflexivity | exact Hr].
  - apply andb_prop in H as [H Hr]. apply andb_prop in H as [Hc Hb].
    rewrite (Ascii.eqb_sym "-" c), Hc, andb_true_r.
    destruct (IH true Hr) as [-> | Hs]; [now left|].
    destruct (PyStr.rstrip_by (Ascii.eqb "-") r) as [|d r'] eqn:Er; [now left|].
    right. cbn [PyStr.is_empty]. cbn [slug_body]. rewrite E, Hc, Hb. exact Hs.
Qed.

Lemma slugify_is_slug (value : string) : is_slug (slugify value) = true.
Proof.
  unfold slugify, PyStr.strip_char, PyStr.strip_by, is_slug.
  set (x := PyStr.sub_runs is_slug_char "-" false _).
  pose proof (single_hyphens_sub_runs (PyStr.lower (PyStr.strip value)) false) as Hx.
  fold x in Hx. apply single_hyphens_lstrip in Hx.
  destruct (slug_body_rstrip _ true Hx) as [-> | H]; [reflexivity|].
  rewrite H. apply orb_true_r.
Qed.

Lemma slug_body_single_hyphens (s : string) :
  forall b, slug_body b s = true -> single_hyphens b s = true.
Proof.
  induction s as [|c r IH]; intros b H; slug_simpl; [reflexivity|].
  destruct (is_slug_char c); [now apply IH|].
  apply andb_prop in H as [H Hr]. rewrite H. now apply IH.
Qed.

Lemma slug_char_facts (c : ascii) :
  is_slug_char c = true \/ c = "-"%char ->
  PyStr.is_space c = false /\ PyStr.lower_char c = c.
Proof.
  intros [H | ->]; [|split; reflexivity].
  destruct c as [[] [] [] [] [] [] [] []]; try discriminate H; split; reflexivity.
Qed.

Lemma slug_body_chars (s : string) :
  forall b, single_hyphens b s = true ->
            any_char PyStr.is_space s = false /\ PyStr.lower s = s.
Proof.
  induction s as [|c r IH]; intros b H; slug_simpl; simpl; [auto|].
  assert (Hc : is_slug_char c = true \/ c = "-"%char).
  { destruct (is_slug_char c); [now left|]. right.
    apply andb_prop in H as [H _]. apply andb_prop in H as [H _].
    now apply Ascii.eqb_eq in H. }
  destruct (slug_char_facts c Hc) as [-> ->].
  assert (Hr : exists b', single_hyphens b' r = true).
  { destruct (is_slug_char c); [eauto|]. apply andb_prop in H as [_ H]. eauto. }
  destruct Hr as [b' Hr]. destruct (IH b' Hr) as [-> ->]. auto.
Qed.

Lemma strip_by_no_match (p : ascii -> bool) (s : string) :
  any_char p s = false -> PyStr.strip_by p s = s.
Proof.
  intros H. unfold PyStr.strip_by.
  assert (Hl : PyStr.lstrip_by p s = s).
  { destruct s as [|c r]; simpl in *; [reflexivity|].
    apply orb_false_elim in H as [-> _]. reflexivity. }
  rewrite Hl. clear Hl.
  induction s as [|c r IH]; simpl in *; [reflexivity|].
  apply orb_false_elim in H as [Hc Hr]. rewrite (IH Hr), Hc, andb_false_r. reflexivity.
Qed.

Lemma sub_runs_single_hyphens (s : string) :
  forall b, single_hyphens b s = true -> PyStr.sub_runs is_slug_char "-" b s = s.
Proof.
  induction s as [|c r IH]; intros b H; slug_simpl; [reflexivity|].
  destruct (is_slug_char c); [now rewrite (IH false H)|].
  apply andb_prop in H as [H Hr]. apply andb_prop in H as [Hc Hb].
  apply Ascii.eqb_eq in Hc. subst c. destruct b; [discriminate Hb|].
  now rewrite (IH true Hr).
Qed.

Lemma rstrip_slug_body (s : string) :
  forall b, slug_body b s = true -> PyStr.rstrip_by (Ascii.eqb "-") s = s.
Proof.
  induction s as [|c r IH]; intros b H; slug_simpl; [reflexivity|].
  destruct (is_slug_char c) eqn:E.
  - destruct (slug_char_not_hyphen c E) as [-> _]. rewrite andb_false_r.
    now rewrite (IH false H).
  - apply andb_prop in H as [H Hr]. rewrite (IH true Hr).
    destruct r as [|d r']; [discriminate Hr | reflexivity].
Qed.

Lemma strip_hyphen_slug_body (s : string) :
  slug_body true s = true -> PyStr.strip_char "-" s = s.
Proof.
  intros H. unfold PyStr.strip_char, PyStr.strip_by.
  assert (Hl : PyStr.lstrip_by (Ascii.eqb "-") s = s).
  { destruct s as [|c r]; slug_simpl; [reflexivity|].
    destruct (is_slug_char c) eqn:E.
    - now destruct (slug_char_not_hyphen c E) as [-> _].
    - rewrite andb_false_r in H. discriminate H. }
  rewrite Hl. now apply (rstrip_slug_body s true).
Qed.

Lemma single_hyphens_weaken (s : string) :
  single_hyphens true s = true -> single_hyphens false s = true.
Proof.
  destruct s as [|c r]; slug_simpl; [auto|].
  destruct (is_slug_char c); [auto|]. rewrite andb_false_r. discriminate.
Qed.

(** A slug is a fixed point of the slug derivation. *)
Lemma slugify_of_slug (s : string) : is_slug s = true -> slugify s = s.
Proof.
  unfold is_slug. intros H. apply orb_prop in H as [H | H].
  - apply is_empty_true in H. now subst.
  - pose proof (slug_body_single_hyphens s true H) as Hs.
    destruct (slug_body_chars s true Hs) as [Hsp Hlow].
    unfold slugify, PyStr.strip. rewrite (strip_by_no_match _ _ Hsp), Hlow.
    rewrite (sub_runs_single_hyphens s false (single_hyphens_weaken s Hs)).
    now apply strip_hyphen_slug_body.
Qed.

Lemma slug_body_all_chars (s : string) :
  forall b, slug_body b s = true ->
            all_char (fun c => is_slug_char c || Ascii.eqb c "-") s = true.
Proof.
  induction s as [|c r IH]; intros b H; slug_simpl; simpl; [reflexivity|].
  destruct (is_slug_char c); simpl; [now apply (IH false)|].
  apply andb_prop in H as [H Hr]. apply andb_prop in H as [-> _]. now apply (IH true).
Qed.

(** X1. The slug of any text is well formed: it is empty or made of groups
    of lower-case ASCII letters and digits joined by single hyphens, so it
    has no other character, no hyphen at either end and no two hyphens in a
    row. *)
Theorem slugify_well_formed (tag : string) :
  is_slug (slugify tag) = true
  /\ all_char (fun c => is_slug_char c || Ascii.eqb c "-") (slugify tag) = true
  /\ PyStr.strip_char "-" (slugify tag) = slugify tag
  /\ single_hyphens true (slugify tag) = true.
Proof.
  pose proof (slugify_is_slug tag) as H. split; [exact H|].
  unfold is_slug in H. apply orb_prop in H as [H | H].
  - apply is_empty_true in H. rewrite H. repeat split.
  - split; [now apply (slug_body_all_chars _ true)|].
    split; [now apply strip_hyphen_slug_body | now apply slug_body_single_hyphens].
Qed.

(** X2. Slug derivation is idempotent: the slug of a slug is that slug. *)
Theorem slugify_idempotent (tag : string) : slugify (slugify tag) = slugify tag.
Proof. apply slugify_of_slug, slugify_is_slug. Qed.

Lemma slugify_handle_unfold (value : string) :
  _slugify_handle value
  = if PyStr.is_empty (slugify value) then "creator" else slugify value.
Proof. reflexivity. Qed.

(** X3. The base of a profile handle is never empty and is a well-formed
    slug (the fallback "creator" included), and deriving it again from
    itself changes nothing. *)
Theorem slugify_handle_well_formed (value : string) :
  _slugify_handle value <> ""
  /\ is_slug (_slugify_handle value) = true
  /\ _slugify_handle (_slugify_handle value) = _slugify_handle value.
Proof.
  split; [apply slugify_handle_not_empty|].
  rewrite !slugify_handle_unfold.
  destruct (PyStr.is_empty (slugify value)) eqn:E; [split; reflexivity|].
  split; [apply slugify_is_slug|].
  rewrite (slugify_of_slug _ (slugify_is_slug value)), E. reflexivity.
Qed.

(** ** File names and tag lists *)

Lemma all_safe_sub_each (s : string) :
  all_char is_safe_char (PyStr.sub_each is_safe_char "-" s) = true.
Proof.
  induction s as [|c r IH]; simpl; [reflexivity|].
  rewrite IH. destruct (is_safe_char c) eqn:E; [now rewrite E | reflexivity].
Qed.

Lemma sub_each_all_safe (s : string) :
  all_char is_safe_char s = true -> PyStr.sub_each is_safe_char "-" s = s.
Proof.
  induction s as [|c r IH]; simpl; [reflexivity|].
  intros H. apply andb_prop in H as [Hc Hr]. now rewrite Hc, (IH Hr).
Qed.

Lemma safe_char_not_space (c : ascii) : is_safe_char c = true -> PyStr.is_space c = false.
Proof.
  destruct c as [[] [] [] [] [] [] [] []]; intros H; try discriminate H; reflexivity.
Qed.

Lemma all_char_excludes (p q : ascii -> bool) (s : string) :
  (forall c, p c = true -> q c = false) ->
  all_char p s = true -> any_char q s = false.
Proof.
  intros Hpq. induction s as [|c r IH]; cbn [all_char any_char]; [reflexivity|].
  intros H. apply andb_prop in H as [Hc Hr]. now rewrite (Hpq c Hc), (IH Hr).
Qed.

Lemma all_safe_no_space (s : string) :
  all_char is_safe_char s = true -> any_char PyStr.is_space s = false.
Proof. apply all_char_excludes, safe_char_not_space. Qed.

(** X4. A safe file name is never empty and has only ASCII letters, digits,
    '.', '_' and '-' (so no '/' and no white space), and it is its own safe
    name. *)
Theorem safe_name_is_safe (value : string) :
  safe_name value <> ""
  /\ all_char is_safe_char (safe_name value) = true
  /\ any_char (Ascii.eqb "/") (safe_name value) = false
  /\ safe_name (safe_name value) = safe_name value.
Proof.
  assert (Hne : safe_name value <> "").
  { unfold safe_name. destruct (PyStr.sub_each _ _ _); simpl; discriminate. }
  assert (Hsafe : all_char is_safe_char (safe_name value) = true).
  { unfold safe_name.
    destruct (PyStr.is_empty (PyStr.sub_each is_safe_char "-" (PyStr.strip value)));
      [reflexivity | apply all_safe_sub_each]. }
  split; [exact Hne|]. split; [exact Hsafe|]. split.
  - apply (all_char_excludes is_safe_char); [|exact Hsafe].
    intros c Hc. destruct (Ascii.eqb "/" c) eqn:E; [|reflexivity].
    apply Ascii.eqb_eq in E. subst c. discriminate Hc.
  - unfold safe_name at 1. unfold PyStr.strip.
    rewrite (strip_by_no_match _ _ (all_safe_no_space _ Hsafe)).
    rewrite (sub_each_all_safe _ Hsafe).
    destruct (safe_name value); [congruence | reflexivity].
Qed.

Lemma split_no_separator (s : string) :
  Forall (fun w => any_char is_comma w = false) (PyStr.split "," s).
Proof.
  induction s as [|c r IH]; simpl; [repeat constructor|].
  destruct (Ascii.eqb c ",") eqn:E; [constructor; [reflexivity | exact IH]|].
  destruct (PyStr.split "," r) as [|w ws]; [repeat constructor; simpl; unfold is_comma;
                                            now rewrite E|].
  inversion IH; subst. constructor; [|assumption].
  simpl. unfold is_comma at 1. now rewrite E.
Qed.

Lemma rstrip_idempotent (p : ascii -> bool) (s : string) :
  PyStr.rstrip_by p (PyStr.rstrip_by p s) = PyStr.rstrip_by p s.
Proof.
  induction s as [|c r IH]; simpl; [reflexivity|].
  destruct (PyStr.is_empty (PyStr.rstrip_by p r) && p c) eqn:E; [reflexivity|].
  simpl. now rewrite IH, E.
Qed.

Lemma lstrip_head (p : ascii -> bool) (s : string) :
  match PyStr.lstrip_by p s with
  | EmptyString => True
  | String c _ => p c = false
  end.
Proof.
  induction s as [|c r IH]; simpl; [exact I|].
  destruct (p c) eqn:E; [exact IH | exact E].
Qed.

Lemma strip_by_idempotent (p : ascii -> bool) (s : string) :
  PyStr.strip_by p (PyStr.strip_by p s) = PyStr.strip_by p s.
Proof.
  unfold PyStr.strip_by.
  pose proof (lstrip_head p s) as H.
  destruct (PyStr.lstrip_by p s) as [|c r]; [reflexivity|].
  assert (E : PyStr.lstrip_by p (PyStr.rstrip_by p (String c r))
              = PyStr.rstrip_by p (String c r)).
  { simpl. rewrite H, andb_false_r. simpl. now rewrite H. }
  rewrite E. apply rstrip_idempotent.
Qed.

Lemma comma_not_space (c : ascii) : PyStr.is_space c = true -> is_comma c = false.
Proof.
  destruct c as [[] [] [] [] [] [] [] []]; intros H; try discriminate H; reflexivity.
Qed.

(** X5. Every tag that [normalize_tags] returns is clean (not empty, no
    white space at either end, no comma); no text and the empty text give
    no tag. *)
Theorem normalize_tags_clean (raw : option string) (tag : string) :
  normalize_tags None = []
  /\ normalize_tags (Some "") = []
  /\ (In tag (normalize_tags raw) -> clean_tag tag).
Proof.
  split; [reflexivity|]. split; [reflexivity|].
  unfold normalize_tags. destruct raw as [r|]; [|simpl; tauto].
  destruct (PyStr.truthy (Some r)); [|simpl; tauto].
  intros H. apply filter_In in H as [Hin Hne].
  apply in_map_iff in Hin as [w [Hw Hin]]. subst tag.
  unfold clean_tag. split; [|split].
  - intros E. rewrite E in Hne. discriminate Hne.
  - apply strip_by_idempotent.
  - unfold PyStr.strip. rewrite (any_char_strip_by _ _ comma_not_space).
    pose proof (split_no_separator r) as Hall.
    rewrite Forall_forall in Hall. now apply Hall.
Qed.

Lemma normalize_tags_clean_witness : clean_tag "LOUD".
Proof.
  apply (normalize_tags_clean (Some "meme, LOUD") "LOUD"). simpl. auto.
Defined.

Lemma split_comma_free (w : string) :
  any_char is_comma w = false -> PyStr.split "," w = [w].
Proof.
  induction w as [|c r IH]; simpl; [reflexivity|].
  intros H. apply orb_false_elim in H as [Hc Hr]. unfold is_comma in Hc.
  now rewrite Hc, (IH Hr).
Qed.

Lemma split_append (w rest : string) :
  any_char is_comma w = false ->
  PyStr.split "," (w ++ String "," rest) = w :: PyStr.split "," rest.
Proof.
  induction w as [|c r IH]; simpl; [reflexivity|].
  intros H. apply orb_false_elim in H as [Hc Hr]. unfold is_comma in Hc.
  now rewrite Hc, (IH Hr).
Qed.

Lemma split_join_commas (tag_list : list string) :
  tag_list <> [] ->
  Forall (fun w => any_char is_comma w = false) tag_list ->
  PyStr.split "," (join_commas tag_list) = tag_list.
Proof.
  induction tag_list as [|w rest IH]; [congruence|]. intros _ Hall.
  inversion Hall as [|? ? Hw Hrest]; subst.
  destruct rest as [|w' rest']; [now apply split_comma_free|].
  change (join_commas (w :: w' :: rest'))
    with (w ++ String "," (join_commas (w' :: rest')))%string.
  rewrite (split_append _ _ Hw), IH; [reflexivity | discriminate | exact Hrest].
Qed.

(** X6. Round trip: joining clean tags with commas and normalizing the
    result gives the tags back, in order. *)
Theorem normalize_tags_join (tag_list : list string) :
  Forall clean_tag tag_list ->
  normalize_tags (Some (join_commas tag_list)) = tag_list.
Proof.
  intros Hall. destruct tag_list as [|w rest]; [reflexivity|].
  assert (Hne : PyStr.truthy (Some (join_commas (w :: rest))) = true).
  { inversion Hall as [|? ? [Hw _] _]; subst.
    destruct w as [|c w']; [congruence|]. destruct rest; reflexivity. }
  unfold normalize_tags. rewrite Hne.
  rewrite split_join_commas; [|discriminate|].
  - clear Hne. induction Hall as [|t r [Ht [Hs _]] _ IH]; [reflexivity|].
    cbn [map filter]. rewrite Hs.
    destruct t as [|c t']; [congruence|]. cbn [PyStr.is_empty negb]. now rewrite IH.
  - eapply Forall_impl; [|exact Hall]. intros t [_ [_ H]]. exact H.
Qed.

Lemma normalize_tags_join_witness :
  normalize_tags (Some (join_commas ["meme"; "LOUD"; "air horn"]))
  = ["meme"; "LOUD"; "air horn"].
Proof.
  apply normalize_tags_join.
  repeat constructor; discriminate.
Defined.

(** ** Tags *)

Lemma find_slug_none (slug : string) (l : list Tag) :
  find (fun g => tag_slug g =? slug) l = None -> ~ In slug (map tag_slug l).
Proof.
  intros H Hin. apply in_map_iff in Hin as [g [Hg Hin]].
  pose proof (find_none _ _ H g Hin) as E. simpl in E.
  rewrite Hg, String.eqb_refl in E. discriminate.
Qed.

Lemma NoDup_snoc {A} (l : list A) (a : A) : NoDup l -> ~ In a l -> NoDup (l ++ [a]).
Proof.
  intros Hl Ha. induction Hl as [|x l Hx Hl IH]; simpl.
  - constructor; [tauto | constructor].
  - constructor.
    + intros Hin. apply in_app_or in Hin as [Hin | [E | []]]; [tauto|].
      subst. apply Ha. now left.
    + apply IH. intros Hin. apply Ha. now right.
Qed.

Lemma map_redisplay_keys (slug display : string) (l : list Tag) :
  map tag_id (map (fun g => if tag_slug g =? slug
                            then mkTag (tag_id g) (tag_slug g) display else g) l)
  = map tag_id l
  /\ map tag_slug (map (fun g => if tag_slug g =? slug
                                 then mkTag (tag_id g) (tag_slug g) display else g) l)
     = map tag_slug l.
Proof.
  induction l as [|g r [IH1 IH2]]; simpl; [auto|].
  rewrite IH1, IH2. destruct (tag_slug g =? slug); auto.
Qed.

(** What one [INSERT INTO tags ... ON CONFLICT (slug) DO UPDATE] does. *)
Lemma upsert_tag_run (sc : Scope) (slug display : string) (env : Env) (s : State) :
  let t := db s in
  upsert_tag sc slug display env s
  = match find (fun g => tag_slug g =? slug) (tags t) with
    | Some old =>
        if row_security env sc UPDATE t (TagRow old)
        then (Return (tag_id old),
              mkState (set_tags t
                         (map (fun g => if tag_slug g =? slug
                                        then mkTag (tag_id g) (tag_slug g) display else g)
                              (tags t))
                         (tags_id_seq t))
                      (bucket s) (pool s))
        else (Raise rls_violation, s)
    | None =>
        if row_security env sc INSERT t (TagRow (mkTag (tags_id_seq t) slug display))
        then (Return (tags_id_seq t),
              mkState (set_tags t (tags t ++ [mkTag (tags_id_seq t) slug display])
                                (S (tags_id_seq t)))
                      (bucket s) (pool s))
        else (Raise rls_violation, s)
    end.
Proof.
  intros t. subst t. unfold upsert_tag, bind, get_tables, allowed, put_tables, ret, raise.
  destruct (find _ (tags (db s))) as [old|]; cbn.
  - destruct (row_security env sc UPDATE (db s) (TagRow old)); reflexivity.
  - destruct (row_security env sc INSERT (db s) _); reflexivity.
Qed.

Lemma upsert_tag_consistent (sc : Scope) (slug display : string) (env : Env) (s : State) :
  slug <> "" -> is_slug slug = true ->
  tags_consistent (db s) ->
  tags_consistent (db (snd (upsert_tag sc slug display env s))).
Proof.
  intros Hne Hslug [Hs [Hi Hall]]. rewrite upsert_tag_run. cbv zeta.
  destruct (find _ (tags (db s))) as [old|] eqn:Ef.
  - destruct (row_security env sc UPDATE (db s) (TagRow old)); [|repeat split; assumption].
    cbn [snd db]. unfold tags_consistent, set_tags. cbn [tags tags_id_seq].
    destruct (map_redisplay_keys slug display (tags (db s))) as [-> ->].
    split; [exact Hs|]. split; [exact Hi|].
    rewrite Forall_forall in *. intros g Hg. apply in_map_iff in Hg as [g0 [Eg Hg0]].
    specialize (Hall g0 Hg0). destruct (tag_slug g0 =? slug); subst g; simpl; tauto.
  - destruct (row_security env sc INSERT (db s) _); [|repeat split; assumption].
    cbn [snd db]. unfold tags_consistent, set_tags. cbn [tags tags_id_seq].
    rewrite !map_app. cbn [map tag_id tag_slug].
    split; [apply NoDup_snoc; [exact Hs | now apply find_slug_none]|].
    split.
    + apply NoDup_snoc; [exact Hi|]. intros Hin.
      apply in_map_iff in Hin as [g [Hg Hin]].
      rewrite Forall_forall in Hall. destruct (Hall g Hin) as [Hlt _]. lia.
    + apply Forall_app. split.
      * eapply Forall_impl; [|exact Hall]. intros g [Hlt Hrest]. split; [lia | exact Hrest].
      * repeat constructor; simpl; auto.
Qed.

Lemma tags_kept_refl (l : list Tag) : tags_kept l l.
Proof. exists []. simpl. now rewrite !app_nil_r. Qed.

Lemma tags_kept_trans (l1 l2 l3 : list Tag) :
  tags_kept l1 l2 -> tags_kept l2 l3 -> tags_kept l1 l3.
Proof.
  intros [a [A1 A2]] [b [B1 B2]]. exists (a ++ b).
  rewrite B1, B2, A1, A2, !map_app, !app_assoc. auto.
Qed.

Lemma upsert_tag_kept (sc : Scope) (slug display : string) (env : Env) (s : State) :
  tags_kept (tags (db s)) (tags (db (snd (upsert_tag sc slug display env s)))).
Proof.
  rewrite upsert_tag_run. cbv zeta.
  destruct (find _ (tags (db s))) as [old|].
  - destruct (row_security env sc UPDATE (db s) (TagRow old)); [|apply tags_kept_refl].
    cbn [snd db]. unfold set_tags. cbn [tags]. exists [].
    destruct (map_redisplay_keys slug display (tags (db s))) as [-> ->].
    simpl. now rewrite !app_nil_r.
  - destruct (row_security env sc INSERT (db s) _); [|apply tags_kept_refl].
    cbn [snd db]. unfold set_tags. cbn [tags].
    exists [mkTag (tags_id_seq (db s)) slug display]. now rewrite !map_app.
Qed.

(** ** Properties kept along a handler *)

Lemma keeps_reads_only {A} (P : Tables -> Prop) (m : M A) : reads_only m -> keeps P m.
Proof. intros H env s HP. now rewrite H. Qed.

Lemma keeps_bind {A B} (P : Tables -> Prop) (m : M A) (k : A -> M B) :
  keeps P m -> (forall a, keeps P (k a)) -> keeps P (bind m k).
Proof.
  intros Hm Hk env s HP. unfold bind. specialize (Hm env s HP).
  destruct (m env s) as [[a|e] s1]; [apply Hk; exact Hm | exact Hm].
Qed.

Lemma keeps_for_each {A} (P : Tables -> Prop) (xs : list A) (body : A -> M unit) :
  (forall x, keeps P (body x)) -> keeps P (for_each xs body).
Proof.
  intros Hb. induction xs as [|x r IH]; simpl; [intros env s HP; exact HP|].
  apply keeps_bind; auto.
Qed.

Lemma reads_only_ret {A} (a : A) : reads_only (ret a).
Proof. intros env s. reflexivity. Qed.

Lemma reads_only_raise {A} (e : Exn) : reads_only (@raise A e).
Proof. intros env s. reflexivity. Qed.

Lemma reads_only_pool_guard : reads_only pool_guard.
Proof. intros env s. unfold pool_guard. destruct (pool s); reflexivity. Qed.

Lemma reads_only_create_signed_url (path : string) : reads_only (create_signed_url path).
Proof.
  intros env s. unfold create_signed_url. destruct (storage_signed_url env path); reflexivity.
Qed.

Lemma reads_only_fetch_profiles (ids : list string) : reads_only (fetch_profiles ids).
Proof.
  intros env s. unfold fetch_profiles. destruct ids; [reflexivity|].
  unfold get_service_db, pool_guard, bind, get_tables, ask, ret.
  destruct (pool s); reflexivity.
Qed.

Lemma reads_only_upload_bytes (path data : string) (ctype : option string) :
  reads_only (upload_bytes path data ctype).
Proof.
  intros env s. unfold upload_bytes. destruct (storage_upload_error env _ _ _); reflexivity.
Qed.

Lemma keeps_get_db {A} (P : Tables -> Prop) (uid : option string) (role : option string)
      (body : Scope -> M A) :
  (forall sc, keeps P (body sc)) -> keeps P (get_db uid role body).
Proof.
  intros H. unfold get_db. apply keeps_bind; [|intros _; apply H].
  apply keeps_reads_only, reads_only_pool_guard.
Qed.

Lemma keeps_ret {A} (P : Tables -> Prop) (a : A) : keeps P (ret a).
Proof. apply keeps_reads_only, reads_only_ret. Qed.

Lemma keeps_raise {A} (P : Tables -> Prop) (e : Exn) : keeps P (@raise A e).
Proof. apply keeps_reads_only, reads_only_raise. Qed.

Lemma keeps_ensure_tags (P : Tables -> Prop) (conn : Scope) (tag_list : list string) :
  (forall slug display, slug <> "" -> is_slug slug = true ->
                        keeps P (upsert_tag conn slug display)) ->
  keeps P (ensure_tags conn tag_list).
Proof.
  intros Hup. induction tag_list as [|tag rest IH]; simpl; [apply keeps_ret|].
  destruct (PyStr.is_empty (slugify tag)) eqn:E; [exact IH|].
  apply keeps_bind.
  - apply Hup; [|apply slugify_is_slug].
    intros H. rewrite H in E. discriminate E.
  - intros id. apply keeps_bind; [exact IH | intros ids; apply keeps_ret].
Qed.

(** One [INSERT INTO sound_tags ... ON CONFLICT DO NOTHING]. *)
Lemma insert_sound_tag_run (sc : Scope) (sid : string) (tid : nat) (env : Env) (s : State) :
  insert_sound_tag sc sid tid env s
  = if existsb (fun x => (st_sound_id x =? sid) && (st_tag_id x =? tid)%nat)
               (sound_tags (db s))
    then (Return tt, s)
    else if row_security env sc INSERT (db s) (SoundTagRow (mkSoundTag sid tid))
         then (Return tt,
               mkState (set_sound_tags (db s) (sound_tags (db s) ++ [mkSoundTag sid tid]))
                       (bucket s) (pool s))
         else (Raise rls_violation, s).
Proof.
  unfold insert_sound_tag, bind, get_tables, allowed, put_tables, ret, raise.
  cbn. destruct (existsb _ (sound_tags (db s))); [reflexivity|].
  cbn. destruct (row_security env sc INSERT (db s) _); reflexivity.
Qed.

Lemma keeps_attach_tags (P : Tables -> Prop) (conn : Scope) (sid : string)
      (tag_list : list string) :
  (forall slug display, slug <> "" -> is_slug slug = true ->
                        keeps P (upsert_tag conn slug display)) ->
  (forall tid, keeps P (insert_sound_tag conn sid tid)) ->
  keeps P (attach_tags conn sid tag_list).
Proof.
  intros Hup Hins. unfold attach_tags.
  apply keeps_bind; [now apply keeps_ensure_tags|]. intros ids.
  destruct ids; [apply keeps_ret|].
  apply keeps_bind; [now apply keeps_for_each | intros _; apply keeps_ret].
Qed.

Lemma insert_sound_tag_keeps_tags (sc : Scope) (sid : string) (tid : nat)
      (env : Env) (s : State) :
  tags (db (snd (insert_sound_tag sc sid tid env s))) = tags (db s)
  /\ tags_id_seq (db (snd (insert_sound_tag sc sid tid env s))) = tags_id_seq (db s).
Proof.
  rewrite insert_sound_tag_run.
  destruct (existsb _ _); [auto|]. destruct (row_security _ _ _ _ _); auto.
Qed.

Lemma normalize_privacy_is_canonical (value : option string) :
  canonical_privacy (normalize_privacy value).
Proof.
  unfold canonical_privacy, normalize_privacy. destruct value as [v|]; [|auto].
  destruct (v =? "public") eqn:E1; [apply String.eqb_eq in E1; simpl; auto|].
  destruct (v =? "private") eqn:E2; [apply String.eqb_eq in E2; simpl; auto|].
  destruct (v =? "link_only") eqn:E3; [apply String.eqb_eq in E3; simpl; auto|].
  simpl. destruct (v =? "link-only"); auto.
Qed.

Lemma keeps_insert_sound_tag (P : Tables -> Prop) (sc : Scope) (sid : string) (tid : nat) :
  (forall t x, P t -> P (set_sound_tags t x)) -> keeps P (insert_sound_tag sc sid tid).
Proof.
  intros H env s HP. rewrite insert_sound_tag_run.
  destruct (existsb _ _); [exact HP|].
  destruct (row_security _ _ _ _ _); [apply H; exact HP | exact HP].
Qed.

Lemma keeps_create_sound (P : Tables -> Prop)
      (file : UploadFile) (name description tag_text privacy : string)
      (current_user : AuthUser) (uuid4 : string) :
  (forall t row, canonical_privacy (sound_privacy row) ->
                 P t -> P (set_sounds t (sounds t ++ [row]))) ->
  (forall sc sid tid, keeps P (insert_sound_tag sc sid tid)) ->
  (forall sc slug display, slug <> "" -> is_slug slug = true ->
                           keeps P (upsert_tag sc slug display)) ->
  keeps P (create_sound file name description tag_text privacy current_user uuid4).
Proof.
  intros Hs Hins Hup. unfold create_sound.
  destruct (negb (PyStr.truthy (create_sound_display_name file name)));
    [apply keeps_raise|].
  apply keeps_bind.
  { apply keeps_reads_only. intros env s.
    unfold except_StorageException, upload_bytes.
    destruct (storage_upload_error env _ _ _); reflexivity. }
  intros _. apply keeps_bind.
  - apply keeps_get_db. intros sc env s HP.
    unfold bind at 1 2. unfold get_tables, allowed. cbn [fst snd].
    destruct (row_security env sc INSERT (db s) _); cbn [negb]; [|exact HP].
    unfold bind at 1. unfold put_tables.
    apply keeps_attach_tags; auto.
    cbn [db]. apply Hs; [apply normalize_privacy_is_canonical | exact HP].
  - intros _. apply keeps_bind;
      [apply keeps_reads_only, reads_only_create_signed_url|]. intros url.
    apply keeps_bind; [apply keeps_reads_only, reads_only_fetch_profiles|].
    intros pm. apply keeps_ret.
Qed.

Lemma keeps_update_sound (P : Tables -> Prop)
      (sid : string) (payload : SoundUpdate) (current_user : AuthUser) :
  (forall t f, (forall x, canonical_privacy (sound_privacy (f x))
                          \/ sound_privacy (f x) = sound_privacy x) ->
               P t -> P (set_sounds t (map f (sounds t)))) ->
  (forall t f, P t -> P (set_sound_tags t (filter f (sound_tags t)))) ->
  (forall sc sid tid, keeps P (insert_sound_tag sc sid tid)) ->
  (forall sc slug display, slug <> "" -> is_slug slug = true ->
                           keeps P (upsert_tag sc slug display)) ->
  keeps P (update_sound sid payload current_user).
Proof.
  intros Hs Hdel Hins Hup. unfold update_sound.
  apply keeps_bind; [|intros _; apply keeps_ret].
  apply keeps_get_db. intros sc env s HP.
  unfold bind at 1 2. unfold get_tables, ask. cbn [fst snd].
  destruct (find _ (sounds (db s))); [|exact HP].
  unfold bind at 1. unfold put_tables at 1.
  assert (Hupd : forall x : Sound,
             canonical_privacy
               (sound_privacy
                  ((fun x0 =>
                      if (sound_id x0 =? sid) && row_security env sc UPDATE (db s) (SoundRow x0)
                      then mkSound (sound_id x0) (sound_owner_id x0)
                                   (or_empty (COALESCE (update_name payload)
                                                       (Some (sound_name x0))))
                                   (sound_description x0) (sound_storage_path x0)
                                   (sound_size_bytes x0) (sound_format x0)
                                   (or_empty
                                      (COALESCE
                                         match update_privacy payload with
                                         | Some p => Some (normalize_privacy (Some p))
                                         | None => None
                                         end (Some (sound_privacy x0))))
                                   (sound_duration_seconds x0) (sound_created_at x0)
                      else x0) x))
             \/ sound_privacy
                  ((fun x0 =>
                      if (sound_id x0 =? sid) && row_security env sc UPDATE (db s) (SoundRow x0)
                      then mkSound (sound_id x0) (sound_owner_id x0)
                                   (or_empty (COALESCE (update_name payload)
                                                       (Some (sound_name x0))))
                                   (sound_description x0) (sound_storage_path x0)
                                   (sound_size_bytes x0) (sound_format x0)
                                   (or_empty
                                      (COALESCE
                                         match update_privacy payload with
                                         | Some p => Some (normalize_privacy (Some p))
                                         | None => None
                                         end (Some (sound_privacy x0))))
                                   (sound_duration_seconds x0) (sound_created_at x0)
                      else x0) x)
                = sound_privacy x).
  { intros x. cbv beta.
    destruct ((sound_id x =? sid) && row_security env sc UPDATE (db s) (SoundRow x));
      [|now right].
    destruct (update_privacy payload); cbn [sound_privacy or_empty COALESCE];
      [left; apply normalize_privacy_is_canonical | now right]. }
  destruct (update_tags payload) as [raw|]; [|cbn [snd db]; exact (Hs _ _ Hupd HP)].
  unfold bind at 1 2. unfold get_tables, put_tables. cbn [fst snd db].
  apply keeps_bind; [|intros _; apply keeps_ret|].
  - apply keeps_attach_tags; auto.
  - cbn [db].
    match goal with
    | |- P (set_sound_tags ?t (filter ?f _)) => apply (Hdel t f)
    end.
    exact (Hs _ _ Hupd HP).
Qed.

Lemma tags_consistent_set_sounds (t : Tables) (x : list Sound) :
  tags_consistent t -> tags_consistent (set_sounds t x).
Proof. auto. Qed.

Lemma tags_consistent_set_sound_tags (t : Tables) (x : list SoundTag) :
  tags_consistent t -> tags_consistent (set_sound_tags t x).
Proof. auto. Qed.

Lemma keeps_consistent_upsert (sc : Scope) (slug display : string) :
  slug <> "" -> is_slug slug = true -> keeps tags_consistent (upsert_tag sc slug display).
Proof. intros H1 H2 env s. now apply upsert_tag_consistent. Qed.

Lemma keeps_consistent_insert (sc : Scope) (sid : string) (tid : nat) :
  keeps tags_consistent (insert_sound_tag sc sid tid).
Proof.
  intros env s H. rewrite insert_sound_tag_run.
  destruct (existsb _ _); [exact H|]. destruct (row_security _ _ _ _ _); exact H.
Qed.

Lemma keeps_unique_links_insert (sc : Scope) (sid : string) (tid : nat) :
  keeps (fun t => NoDup (sound_tags t)) (insert_sound_tag sc sid tid).
Proof.
  intros env s H. rewrite insert_sound_tag_run.
  destruct (existsb _ (sound_tags (db s))) eqn:E; [exact H|].
  destruct (row_security _ _ _ _ _); [|exact H].
  cbn [snd db]. unfold set_sound_tags. cbn [sound_tags].
  apply NoDup_snoc; [exact H|]. intros Hin.
  assert (Et : existsb (fun x => (st_sound_id x =? sid) && (st_tag_id x =? tid)%nat)
                       (sound_tags (db s)) = true).
  { apply existsb_exists. exists (mkSoundTag sid tid). split; [exact Hin|].
    simpl. now rewrite String.eqb_refl, Nat.eqb_refl. }
  congruence.
Qed.

Lemma keeps_unique_links_upsert (sc : Scope) (slug display : string) :
  keeps (fun t => NoDup (sound_tags t)) (upsert_tag sc slug display).
Proof.
  intros env s H. rewrite upsert_tag_run. cbv zeta.
  destruct (find _ _); destruct (row_security _ _ _ _ _); exact H.
Qed.

(** X7. Tag attachment keeps the key discipline of the tag tables: after
    [attach_tags], [create_sound] or [update_sound], whatever the outcome,
    [tags] still has one row per slug and per id, every slug a non-empty
    well-formed slug and every id below the sequence, and [sound_tags] still
    has no link twice. *)
Theorem tag_tables_stay_consistent
        (conn : Scope) (sid : string) (tag_list : list string)
        (file : UploadFile) (name description tag_text privacy : string)
        (payload : SoundUpdate) (current_user : AuthUser) (uuid4 : string)
        (env : Env) (s : State) :
  tags_consistent (db s) -> NoDup (sound_tags (db s)) ->
  let consistent s' := tags_consistent (db s') /\ NoDup (sound_tags (db s')) in
  consistent (snd (attach_tags conn sid tag_list env s))
  /\ consistent (snd (create_sound file name description tag_text privacy current_user
                                   uuid4 env s))
  /\ consistent (snd (update_sound sid payload current_user env s)).
Proof.
  intros Ht Hl consistent. subst consistent. cbv beta.
  split; [split | split; split].
  - apply (keeps_attach_tags tags_consistent); auto using keeps_consistent_upsert,
      keeps_consistent_insert.
  - apply (keeps_attach_tags (fun t => NoDup (sound_tags t))); auto.
    + intros; apply keeps_unique_links_upsert.
    + intros; apply keeps_unique_links_insert.
  - apply (keeps_create_sound tags_consistent); auto using keeps_consistent_upsert,
      keeps_consistent_insert.
  - apply (keeps_create_sound (fun t => NoDup (sound_tags t))); auto.
    + intros; apply keeps_unique_links_insert.
    + intros; apply keeps_unique_links_upsert.
  - apply (keeps_update_sound tags_consistent); auto using keeps_consistent_upsert,
      keeps_consistent_insert.
  - apply (keeps_update_sound (fun t => NoDup (sound_tags t))); auto.
    + intros t f H. unfold set_sound_tags. cbn [sound_tags]. now apply NoDup_filter.
    + intros; apply keeps_unique_links_insert.
    + intros; apply keeps_unique_links_upsert.
Qed.

Lemma abc_tags_consistent : tags_consistent abc_tables /\ NoDup (sound_tags abc_tables).
Proof. repeat split; constructor. Defined.

Lemma tag_tables_stay_consistent_witness :
  let s' := snd (create_sound clip "Air Horn" "" "meme, LOUD, Meme" "public" alice "S1"
                              example_env abc_state) in
  tags_consistent (db s') /\ NoDup (sound_tags (db s')).
Proof.
  pose proof (tag_tables_stay_consistent
                ServiceScope "A" [] clip "Air Horn" "" "meme, LOUD, Meme" "public"
                (mkSoundUpdate None None None) alice "S1" example_env abc_state
                (proj1 abc_tags_consistent) (proj2 abc_tags_consistent)) as H.
  cbv zeta beta in H. exact (proj1 (proj2 H)).
Defined.

(** X8. Tag attachment never deletes or renames a tag: after
    [attach_tags], [create_sound] or [update_sound] every earlier row of
    [tags] is in its place with its id and slug; rows are only added at the
    end. *)
Theorem tags_never_deleted
        (conn : Scope) (sid : string) (tag_list : list string)
        (file : UploadFile) (name description tag_text privacy : string)
        (payload : SoundUpdate) (current_user : AuthUser) (uuid4 : string)
        (env : Env) (s : State) :
  tags_kept (tags (db s)) (tags (db (snd (attach_tags conn sid tag_list env s))))
  /\ tags_kept (tags (db s))
               (tags (db (snd (create_sound file name description tag_text privacy
                                            current_user uuid4 env s))))
  /\ tags_kept (tags (db s)) (tags (db (snd (update_sound sid payload current_user env s)))).
Proof.
  set (P := fun t : Tables => tags_kept (tags (db s)) (tags t)).
  assert (Hup : forall sc slug display, slug <> "" -> is_slug slug = true ->
                                        keeps P (upsert_tag sc slug display)).
  { intros sc slug display _ _ env' s' H. unfold P in *.
    eapply tags_kept_trans; [exact H | apply upsert_tag_kept]. }
  assert (Hins : forall sc sid' tid, keeps P (insert_sound_tag sc sid' tid)).
  { intros sc sid' tid env' s' H. unfold P in *.
    now rewrite (proj1 (insert_sound_tag_keeps_tags sc sid' tid env' s')). }
  assert (H0 : P (db s)) by apply tags_kept_refl.
  repeat split.
  - apply (keeps_attach_tags P); auto.
  - apply (keeps_create_sound P); auto.
  - apply (keeps_update_sound P); auto.
Qed.

(** A row of [tags] lives on through an upsert, and is touched only by an
    upsert of its own slug. *)
Lemma upsert_tag_row (sc : Scope) (slug display : string) (env : Env) (s : State) (g : Tag) :
  In g (tags (db s)) ->
  exists g', In g' (tags (db (snd (upsert_tag sc slug display env s))))
             /\ tag_id g' = tag_id g /\ tag_slug g' = tag_slug g
             /\ (slug <> tag_slug g -> g' = g).
Proof.
  intros Hin. rewrite upsert_tag_run. cbv zeta.
  assert (Hsame : exists g', In g' (tags (db s)) /\ tag_id g' = tag_id g
                             /\ tag_slug g' = tag_slug g /\ (slug <> tag_slug g -> g' = g))
    by (exists g; auto).
  destruct (find _ (tags (db s))) as [old|].
  - destruct (row_security env sc UPDATE (db s) (TagRow old)); [|exact Hsame].
    cbn [snd db]. unfold set_tags. cbn [tags].
    exists (if tag_slug g =? slug then mkTag (tag_id g) (tag_slug g) display else g).
    split; [apply in_map_iff; exists g; auto|].
    destruct (tag_slug g =? slug) eqn:E; simpl; repeat split; auto.
    intros Hne. apply String.eqb_eq in E. congruence.
  - destruct (row_security env sc INSERT (db s) _); [|exact Hsame].
    cbn [snd db]. unfold set_tags. cbn [tags].
    exists g. split; [apply in_or_app; now left | auto].
Qed.

(** The row an upsert returns the id of. *)
Lemma upsert_tag_returns (sc : Scope) (slug display : string) (env : Env) (s s' : State)
      (id : nat) :
  upsert_tag sc slug display env s = (Return id, s') ->
  In (mkTag id slug display) (tags (db s')).
Proof.
  rewrite upsert_tag_run. cbv zeta.
  destruct (find _ (tags (db s))) as [old|] eqn:Ef.
  - destruct (row_security env sc UPDATE (db s) (TagRow old)); [|discriminate].
    intros H. inversion H; subst. cbn [db]. unfold set_tags. cbn [tags].
    apply find_some in Ef as [Hin Hs]. apply in_map_iff. exists old.
    rewrite Hs. apply String.eqb_eq in Hs. subst slug. auto.
  - destruct (row_security env sc INSERT (db s) _); [|discriminate].
    intros H. inversion H; subst. cbn [db]. unfold set_tags. cbn [tags].
    apply in_or_app. right. now left.
Qed.

Lemma ensure_tags_row (conn : Scope) (tag_list : list string) :
  forall (env : Env) (s : State) (g : Tag),
    In g (tags (db s)) ->
    exists g', In g' (tags (db (snd (ensure_tags conn tag_list env s))))
               /\ tag_id g' = tag_id g /\ tag_slug g' = tag_slug g
               /\ ((forall t, In t tag_list -> slugify t <> tag_slug g) -> g' = g).
Proof.
  induction tag_list as [|tag rest IH]; intros env s g Hin; simpl.
  - exists g. auto.
  - destruct (PyStr.is_empty (slugify tag)).
    + destruct (IH env s g Hin) as [g' [H1 [H2 [H3 H4]]]].
      exists g'. repeat split; auto.
    + rewrite bind_run.
      destruct (upsert_tag_row conn (slugify tag) tag env s g Hin)
        as [g1 [Hin1 [Hid1 [Hs1 Hsame1]]]].
      destruct (upsert_tag conn (slugify tag) tag env s) as [[id|e] s1]; cbn [snd] in *.
      * rewrite bind_run.
        destruct (IH env s1 g1 Hin1) as [g' [H1 [H2 [H3 H4]]]].
        exists g'.
        destruct (ensure_tags conn rest env s1) as [[ids|e] s2]; cbn [snd] in *;
          (split; [exact H1|]; split; [congruence|]; split; [congruence|];
           intros Hno; rewrite H4, Hsame1; auto;
           intros t Ht; rewrite Hs1; auto).
      * exists g1. repeat split; auto.
Qed.

(** The ids [ensure_tags] returns are those of the rows of the tags it
    kept; the row of a slug shows the text of the last tag with that slug. *)
Lemma ensure_tags_ids (conn : Scope) (tag_list : list string) :
  forall (env : Env) (s s' : State) (ids : list nat),
    ensure_tags conn tag_list env s = (Return ids, s') ->
    forall pre tag post,
      tag_list = pre ++ tag :: post ->
      has_slug tag = true ->
      exists g, In g (tags (db s')) /\ tag_slug g = slugify tag /\ In (tag_id g) ids
                /\ ((forall t, In t post -> slugify t <> slugify tag) -> tag_display g = tag).
Proof.
  induction tag_list as [|a rest IH]; intros env s s' ids Hrun pre tag post Hl Hslug.
  - destruct pre; discriminate.
  - simpl in Hrun. destruct (PyStr.is_empty (slugify a)) eqn:Ea.
    + destruct pre as [|a' pre']; inversion Hl; subst.
      * unfold has_slug in Hslug. rewrite Ea in Hslug. discriminate.
      * eapply IH; eauto.
    + rewrite bind_run in Hrun.
      destruct (upsert_tag conn (slugify a) a env s) as [[id|e] s1] eqn:Eu;
        [|discriminate].
      rewrite bind_run in Hrun.
      destruct (ensure_tags conn rest env s1) as [[ids'|e] s2] eqn:Er; [|discriminate].
      inversion Hrun; subst ids s2.
      destruct pre as [|a' pre']; inversion Hl; subst.
      * pose proof (upsert_tag_returns _ _ _ _ _ _ _ Eu) as Hin.
        destruct (ensure_tags_row conn post env s1 _ Hin) as [g' [H1 [H2 [H3 H4]]]].
        rewrite Er in H1. cbn [snd] in H1. simpl in H2, H3.
        exists g'. split; [exact H1|]. split; [exact H3|].
        split; [left; now rewrite H2|].
        intros Hno. rewrite H4; [reflexivity|]. exact Hno.
      * destruct (IH env s1 s' ids' Er pre' tag post eq_refl Hslug)
          as [g [H1 [H2 [H3 H4]]]].
        exists g. split; [exact H1|]. split; [exact H2|]. split; [now right | exact H4].
Qed.

Lemma link_tags_run (conn : Scope) (sid : string) (ids : list nat) :
  forall (env : Env) (s s' : State),
    for_each ids (fun tid => insert_sound_tag conn sid tid) env s = (Return tt, s') ->
    tags (db s') = tags (db s)
    /\ (forall x, In x (sound_tags (db s)) -> In x (sound_tags (db s')))
    /\ (forall id, In id ids -> In (mkSoundTag sid id) (sound_tags (db s'))).
Proof.
  induction ids as [|i r IH]; intros env s s' Hrun; simpl in Hrun.
  - inversion Hrun; subst. repeat split; auto. intros id [].
  - rewrite bind_run in Hrun.
    pose proof (insert_sound_tag_run conn sid i env s) as Ei.
    destruct (insert_sound_tag conn sid i env s) as [[[]|e] s1]; [|discriminate].
    destruct (IH env s1 s' Hrun) as [Ht [Hkeep Hids]].
    assert (H1 : tags (db s1) = tags (db s)
                 /\ (forall x, In x (sound_tags (db s)) -> In x (sound_tags (db s1)))
                 /\ In (mkSoundTag sid i) (sound_tags (db s1))).
    { destruct (existsb _ (sound_tags (db s))) eqn:Ex.
      - inversion Ei; subst s1. repeat split; auto.
        apply existsb_exists in Ex as [x [Hx Hk]].
        apply andb_prop in Hk as [Hk1 Hk2].
        apply String.eqb_eq in Hk1. apply Nat.eqb_eq in Hk2.
        destruct x; simpl in *; subst. exact Hx.
      - destruct (row_security _ _ _ _ _); [|discriminate].
        inversion Ei; subst s1. cbn [db]. unfold set_sound_tags. cbn [tags sound_tags].
        repeat split; auto.
        + intros x Hx. apply in_or_app. now left.
        + apply in_or_app. right. now left. }
    destruct H1 as [Ht1 [Hk1 Hi1]].
    split; [congruence|]. split; [auto|].
    intros id [<- | Hid]; auto.
Qed.

Lemma ensure_tags_sound_tags (conn : Scope) (tag_list : list string) (env : Env) (s : State) :
  sound_tags (db (snd (ensure_tags conn tag_list env s))) = sound_tags (db s).
Proof.
  apply (keeps_ensure_tags (fun t => sound_tags t = sound_tags (db s))); [|reflexivity].
  intros slug display _ _ env' s' H. rewrite upsert_tag_run. cbv zeta.
  destruct (find _ _); destruct (row_security _ _ _ _ _); exact H.
Qed.

(** What a successful [attach_tags] leaves in [sound_tags]. *)
Lemma attach_tags_post
      (conn : Scope) (sid : string) (tag_list result : list string)
      (env : Env) (s s' : State) :
  attach_tags conn sid tag_list env s = (Return result, s') ->
  (forall x, In x (sound_tags (db s)) -> In x (sound_tags (db s')))
  /\ forall tag, In tag tag_list -> has_slug tag = true ->
                 exists g, In g (tags (db s')) /\ tag_slug g = slugify tag
                           /\ In (mkSoundTag sid (tag_id g)) (sound_tags (db s')).
Proof.
  unfold attach_tags. rewrite bind_run.
  pose proof (ensure_tags_sound_tags conn tag_list env s) as Hs1.
  destruct (ensure_tags conn tag_list env s) as [[ids|e] s1] eqn:Ee; [|discriminate].
  cbn [snd] in Hs1.
  assert (Hids : forall tag, In tag tag_list -> has_slug tag = true ->
                             exists g, In g (tags (db s1)) /\ tag_slug g = slugify tag
                                       /\ In (tag_id g) ids).
  { intros tag Hin Hslug. apply in_split in Hin. destruct Hin as [pre [post Hl]].
    destruct (ensure_tags_ids conn tag_list env s s1 ids Ee pre tag post Hl Hslug)
      as [g [H1 [H2 [H3 _]]]].
    exists g. auto. }
  destruct ids as [|i r].
  - intros H. inversion H; subst. split; [intros x Hx; now rewrite Hs1|].
    intros tag Hin Hslug. destruct (Hids tag Hin Hslug) as [g [_ [_ []]]].
  - rewrite bind_run.
    destruct (for_each (i :: r) _ env s1) as [[[]|e] s2] eqn:Ef; [|discriminate].
    intros H. inversion H; subst result s2.
    destruct (link_tags_run conn sid (i :: r) env s1 s' Ef) as [Ht [Hkeep Hlinks]].
    split; [intros x Hx; apply Hkeep; now rewrite Hs1|].
    intros tag Hin Hslug. destruct (Hids tag Hin Hslug) as [g [H1 [H2 H3]]].
    exists g. rewrite Ht. auto.
Qed.

(** X9. When [attach_tags] returns, every tag of the list that has a slug
    has its row in [tags] under that slug and is linked to the sound in
    [sound_tags]; the row shows the text of the last tag of the list with
    that slug; and no earlier link has been removed. *)
Theorem attach_tags_links
        (conn : Scope) (sid : string) (tag_list result : list string)
        (env : Env) (s s' : State) :
  attach_tags conn sid tag_list env s = (Return result, s') ->
  (forall x, In x (sound_tags (db s)) -> In x (sound_tags (db s')))
  /\ forall pre tag post,
       tag_list = pre ++ tag :: post ->
       has_slug tag = true ->
       exists g, In g (tags (db s'))
                 /\ tag_slug g = slugify tag
                 /\ In (mkSoundTag sid (tag_id g)) (sound_tags (db s'))
                 /\ ((forall t, In t post -> slugify t <> slugify tag) ->
                     tag_display g = tag).
Proof.
  unfold attach_tags. rewrite bind_run.
  pose proof (ensure_tags_sound_tags conn tag_list env s) as Hs1.
  destruct (ensure_tags conn tag_list env s) as [[ids|e] s1] eqn:Ee; [|discriminate].
  cbn [snd] in Hs1.
  destruct ids as [|i r].
  - intros H. inversion H; subst. split; [intros x Hx; now rewrite Hs1|].
    intros pre tag post Hl Hslug.
    destruct (ensure_tags_ids conn tag_list env s s' [] Ee pre tag post Hl Hslug)
      as [g [_ [_ [[] _]]]].
  - rewrite bind_run.
    destruct (for_each (i :: r) _ env s1) as [[[]|e] s2] eqn:Ef; [|discriminate].
    intros H. inversion H; subst result s2.
    destruct (link_tags_run conn sid (i :: r) env s1 s' Ef) as [Ht [Hkeep Hids]].
    split; [intros x Hx; apply Hkeep; now rewrite Hs1|].
    intros pre tag post Hl Hslug.
    destruct (ensure_tags_ids conn tag_list env s s1 (i :: r) Ee pre tag post Hl Hslug)
      as [g [H1 [H2 [H3 H4]]]].
    exists g. rewrite Ht. auto.
Qed.

Lemma attach_tags_links_witness :
  let s' := snd (attach_tags (UserScope (user_id alice) (Some "authenticated")) "A"
                             ["meme"; "!!"; "Meme"] example_env abc_state) in
  exists g, In g (tags (db s')) /\ tag_slug g = "meme"
            /\ In (mkSoundTag "A" (tag_id g)) (sound_tags (db s'))
            /\ ((forall t, In t [] -> slugify t <> slugify "Meme") -> tag_display g = "Meme").
Proof.
  cbv zeta.
  refine (proj2 (attach_tags_links (UserScope (user_id alice) (Some "authenticated")) "A"
                                   ["meme"; "!!"; "Meme"] ["meme"; "!!"; "Meme"]
                                   example_env abc_state _ _)
                ["meme"; "!!"] "Meme" [] eq_refl eq_refl).
  vm_compute. reflexivity.
Defined.

(** ** Membership of a playlist *)

Lemma max_position_bound (rows : list PlaylistSound) :
  match max_position rows with
  | Some m => (exists ps, In ps rows /\ ps_position ps = Some m)
              /\ forall ps x, In ps rows -> ps_position ps = Some x -> (x <= m)%Z
  | None => forall ps, In ps rows -> ps_position ps = None
  end.
Proof.
  induction rows as [|r rest IH]; simpl; [intros ps []|].
  destruct (ps_position r) as [a|] eqn:Ea; destruct (max_position rest) as [b|].
  - destruct IH as [[q [Hq Hb]] IH]. split.
    + destruct (Z.max_spec a b) as [[_ ->] | [_ ->]]; eauto.
    + intros ps x [<- | Hin] Hx; [rewrite Ea in Hx; inversion Hx; lia|].
      specialize (IH ps x Hin Hx). lia.
  - split; [eauto|].
    intros ps x [<- | Hin] Hx; [rewrite Ea in Hx; inversion Hx; lia|].
    rewrite (IH ps Hin) in Hx. discriminate.
  - destruct IH as [[q [Hq Hb]] IH]. split; [eauto|].
    intros ps x [<- | Hin] Hx; [congruence | eauto].
  - intros ps [<- | Hin]; auto.
Qed.

Lemma next_position_above (env : Env) (sc : Scope) (t : Tables) (pid : string) :
  (forall ps x, In ps (playlist_sounds t) -> visible_member env sc t pid ps = true ->
                ps_position ps = Some x -> (x < next_position env sc t pid)%Z)
  /\ ((forall ps, In ps (playlist_sounds t) -> visible_member env sc t pid ps = true ->
                  ps_position ps = None) ->
      next_position env sc t pid = 1%Z).
Proof.
  unfold next_position.
  change (fun ps => (ps_playlist_id ps =? pid)
                    && row_security env sc SELECT t (PlaylistSoundRow ps))
    with (visible_member env sc t pid).
  pose proof (max_position_bound (filter (visible_member env sc t pid) (playlist_sounds t)))
    as H.
  destruct (max_position _) as [m|]; split.
  - intros ps x Hin Hv Hx. destruct H as [_ H].
    assert (x <= m)%Z; [|lia]. apply (H ps); [apply filter_In; auto | exact Hx].
  - intros Hnone. exfalso. destruct H as [[ps [Hin Hp]] _].
    apply filter_In in Hin as [Hin Hv]. rewrite (Hnone ps Hin Hv) in Hp. discriminate.
  - intros ps x Hin Hv Hx. rewrite (H ps) in Hx; [discriminate|]. apply filter_In; auto.
  - reflexivity.
Qed.

(** What [add_sound_to_playlist] does once the pool is there. *)
Lemma add_sound_to_playlist_run (pid sid : string) (current_user : AuthUser)
      (env : Env) (s : State) :
  let sc := user_scope current_user in
  let t := db s in
  let row := mkPlaylistSound pid sid (Some (next_position env sc t pid)) in
  add_sound_to_playlist pid sid current_user env s
  = if pool s then
      match find (visible_playlist env sc t pid) (playlists t) with
      | None => (Raise (not_found "Playlist not found."), s)
      | Some _ =>
          match find (visible_sound env sc t sid) (sounds t) with
          | None => (Raise (not_found "Sound not found."), s)
          | Some _ =>
              if existsb (is_membership pid sid) (playlist_sounds t) then (Return true, s)
              else if row_security env sc INSERT t (PlaylistSoundRow row)
                   then (Return true,
                         mkState (set_playlist_sounds t (playlist_sounds t ++ [row]))
                                 (bucket s) (pool s))
                   else (Raise rls_violation, s)
          end
      end
    else (Raise pool_error, s).
Proof.
  intros sc t row. subst sc t row.
  unfold add_sound_to_playlist, user_scope, visible_playlist, visible_sound,
    get_db, pool_guard, bind, get_tables, ask, allowed, put_tables, ret, raise.
  destruct (pool s) eqn:Hpool; [|reflexivity]. cbn.
  destruct (find _ (playlists (db s))); [|reflexivity].
  destruct (find _ (sounds (db s))); [|reflexivity].
  destruct (existsb _ (playlist_sounds (db s))); [reflexivity|]. cbn.
  destruct (row_security env _ INSERT (db s) _); cbn; rewrite ?Hpool; reflexivity.
Qed.

(** X10. [add_sound_to_playlist] changes nothing when it raises (404 for a
    playlist or a sound the caller cannot see, a rejected row) and nothing
    when the sound is a member already; otherwise it appends one membership
    whose position is above the position of every member the caller sees,
    and is 1 when none of them has a position. *)
Theorem add_sound_appends_last
        (pid sid : string) (current_user : AuthUser) (env : Env) (s : State) :
  let sc := user_scope current_user in
  let r := add_sound_to_playlist pid sid current_user env s in
  (forall e, fst r = Raise e -> snd r = s)
  /\ (existsb (is_membership pid sid) (playlist_sounds (db s)) = true -> snd r = s)
  /\ (fst r = Return true ->
      existsb (is_membership pid sid) (playlist_sounds (db s)) = false ->
      exists position,
        snd r = mkState (set_playlist_sounds (db s)
                           (playlist_sounds (db s)
                            ++ [mkPlaylistSound pid sid (Some position)]))
                        (bucket s) (pool s)
        /\ (forall ps x, In ps (playlist_sounds (db s)) ->
                         visible_member env sc (db s) pid ps = true ->
                         ps_position ps = Some x -> (x < position)%Z)
        /\ ((forall ps, In ps (playlist_sounds (db s)) ->
                        visible_member env sc (db s) pid ps = true ->
                        ps_position ps = None) -> position = 1%Z)).
Proof.
  intros sc r. subst r.
  rewrite add_sound_to_playlist_run. cbv zeta. fold sc.
  destruct (pool s); [|repeat split; auto; discriminate].
  destruct (find _ (playlists (db s))); [|repeat split; auto; discriminate].
  destruct (find _ (sounds (db s))); [|repeat split; auto; discriminate].
  destruct (existsb _ (playlist_sounds (db s))) eqn:Ex;
    [repeat split; auto; discriminate|].
  destruct (row_security env sc INSERT (db s) _); [|repeat split; auto; discriminate].
  split; [discriminate|]. split; [discriminate|]. intros _ _.
  exists (next_position env sc (db s) pid). split; [reflexivity|].
  apply next_position_above.
Qed.

Lemma add_sound_appends_last_witness :
  exists position,
    snd (add_sound_to_playlist "P" "D" alice example_env abcd_state)
    = mkState (set_playlist_sounds abcd_tables
                 (playlist_sounds abcd_tables ++ [mkPlaylistSound "P" "D" (Some position)]))
              [] true
    /\ (3 < position)%Z.
Proof.
  pose proof (add_sound_appends_last "P" "D" alice example_env abcd_state) as H.
  cbv zeta in H. destruct H as [_ [_ H]].
  destruct (H eq_refl eq_refl) as [position [Hs [Habove _]]].
  exists position. split; [exact Hs|].
  apply (Habove (mkPlaylistSound "P" "C" (Some 3%Z)) 3%Z); [simpl; auto | |]; reflexivity.
Defined.

(** What [remove_sound_from_playlist] does. *)
Lemma remove_sound_from_playlist_run (pid sid : string) (current_user : AuthUser)
      (env : Env) (s : State) :
  let sc := user_scope current_user in
  remove_sound_from_playlist pid sid current_user env s
  = if pool s then
      (Return true,
       mkState (set_playlist_sounds (db s)
                  (filter (fun ps => negb (is_membership pid sid ps
                                           && row_security env sc DELETE (db s)
                                                           (PlaylistSoundRow ps)))
                          (playlist_sounds (db s))))
               (bucket s) (pool s))
    else (Raise pool_error, s).
Proof.
  intros sc. subst sc.
  unfold remove_sound_from_playlist, user_scope, get_db, pool_guard, bind, get_tables,
    ask, put_tables, ret.
  destruct (pool s) eqn:Hpool; [|reflexivity]. cbn. rewrite ?Hpool. reflexivity.
Qed.

(** X11. [remove_sound_from_playlist] answers ok whether or not the sound
    was a member. It only removes rows: every row left was there before,
    every row of another membership is left, and no membership of the sound
    in the playlist that the policy lets the caller delete is left. *)
Theorem remove_sound_removes_membership
        (pid sid : string) (current_user : AuthUser) (env : Env) (s : State) :
  pool s = true ->
  let sc := user_scope current_user in
  let r := remove_sound_from_playlist pid sid current_user env s in
  let after := playlist_sounds (db (snd r)) in
  fst r = Return true
  /\ snd r = mkState (set_playlist_sounds (db s) after) (bucket s) (pool s)
  /\ (forall ps, In ps after -> In ps (playlist_sounds (db s)))
  /\ (forall ps, In ps (playlist_sounds (db s)) -> is_membership pid sid ps = false ->
                 In ps after)
  /\ (forall ps, In ps after -> is_membership pid sid ps = true ->
                 row_security env sc DELETE (db s) (PlaylistSoundRow ps) = false)
  /\ (existsb (is_membership pid sid) (playlist_sounds (db s)) = false -> snd r = s).
Proof.
  intros Hpool sc r after. subst after r.
  rewrite remove_sound_from_playlist_run. cbv zeta. fold sc. rewrite Hpool.
  cbn [fst snd db]. unfold set_playlist_sounds at 2 3 4 5. cbn [playlist_sounds].
  split; [reflexivity|]. split; [reflexivity|].
  split; [intros ps H; now apply filter_In in H|].
  split; [intros ps Hin Hm; apply filter_In; split; [exact Hin | now rewrite Hm]|].
  split.
  - intros ps H Hm. apply filter_In in H as [_ H]. rewrite Hm in H.
    now destruct (row_security env sc DELETE (db s) (PlaylistSoundRow ps)).
  - intros Hno. rewrite <- Hpool at 1.
    assert (E : filter (fun ps => negb (is_membership pid sid ps
                                        && row_security env sc DELETE (db s)
                                                        (PlaylistSoundRow ps)))
                       (playlist_sounds (db s)) = playlist_sounds (db s)).
    { apply forallb_filter_id. apply forallb_forall. intros ps Hin.
      destruct (is_membership pid sid ps) eqn:Hm; [|reflexivity].
      exfalso. assert (existsb (is_membership pid sid) (playlist_sounds (db s)) = true)
        by (apply existsb_exists; eauto). congruence. }
    rewrite E. destruct s as [[] ? ?]; reflexivity.
Qed.

Lemma remove_sound_removes_membership_witness :
  map ps_sound_id
      (playlist_sounds (db (snd (remove_sound_from_playlist "P" "B" alice example_env
                                                            abc_state))))
  = ["A"; "C"]
  /\ fst (remove_sound_from_playlist "P" "B" alice example_env abc_state) = Return true.
Proof.
  split; [reflexivity|].
  apply (remove_sound_removes_membership "P" "B" alice example_env abc_state eq_refl).
Defined.

Lemma playlist_sounds_set (t : Tables) (x : list PlaylistSound) :
  playlist_sounds (set_playlist_sounds t x) = x.
Proof. reflexivity. Qed.

Lemma playlist_sounds_set_set (t : Tables) (x y : list PlaylistSound) :
  set_playlist_sounds (set_playlist_sounds t x) y = set_playlist_sounds t y.
Proof. reflexivity. Qed.

Lemma playlist_sounds_set_same (t : Tables) :
  set_playlist_sounds t (playlist_sounds t) = t.
Proof. destruct t; reflexivity. Qed.

(** X12. Round trip: removing a sound that [add_sound_to_playlist] has just
    added, as a caller the policy lets delete the new membership, gives
    back the world as it was before the addition. *)
Theorem add_then_remove
        (pid sid : string) (current_user : AuthUser) (env : Env) (s : State) :
  let sc := user_scope current_user in
  let added := add_sound_to_playlist pid sid current_user env s in
  fst added = Return true ->
  existsb (is_membership pid sid) (playlist_sounds (db s)) = false ->
  (forall position,
      row_security env sc DELETE (db (snd added))
                   (PlaylistSoundRow (mkPlaylistSound pid sid (Some position))) = true) ->
  remove_sound_from_playlist pid sid current_user env (snd added) = (Return true, s).
Proof.
  intros sc added Hok Hnew Hdel. subst added.
  rewrite add_sound_to_playlist_run in *. cbv zeta in *. fold sc in Hok, Hdel |- *.
  destruct (pool s) eqn:Hpool; [|discriminate].
  destruct (find _ (playlists (db s))); [|discriminate].
  destruct (find _ (sounds (db s))); [|discriminate].
  rewrite Hnew in *.
  destruct (row_security env sc INSERT (db s) _); [|discriminate].
  cbn [snd] in *. rewrite remove_sound_from_playlist_run. cbv zeta. fold sc.
  cbn [pool db bucket]. rewrite playlist_sounds_set, filter_app. cbn [filter].
  rewrite Hdel.
  assert (Hm : is_membership pid sid
                 (mkPlaylistSound pid sid (Some (next_position env sc (db s) pid))) = true).
  { unfold is_membership. simpl. now rewrite !String.eqb_refl. }
  rewrite Hm. cbn [andb negb]. rewrite app_nil_r.
  assert (E : forall f : PlaylistSound -> bool,
             filter (fun ps => negb (is_membership pid sid ps && f ps))
                    (playlist_sounds (db s)) = playlist_sounds (db s)).
  { intros f. apply forallb_filter_id. apply forallb_forall. intros ps Hin.
    destruct (is_membership pid sid ps) eqn:Hps; [|reflexivity].
    exfalso. assert (existsb (is_membership pid sid) (playlist_sounds (db s)) = true)
      by (apply existsb_exists; eauto). congruence. }
  rewrite E, playlist_sounds_set_set, playlist_sounds_set_same.
  rewrite <- Hpool. destruct s; reflexivity.
Qed.

Lemma add_then_remove_witness :
  remove_sound_from_playlist
    "P" "D" alice example_env
    (snd (add_sound_to_playlist "P" "D" alice example_env abcd_state))
  = (Return true, abcd_state).
Proof.
  apply (add_then_remove "P" "D" alice example_env abcd_state); try reflexivity.
Defined.

(** ** Updating a playlist *)

(** What [update_playlist] does. *)
Lemma update_playlist_run (pid : string) (payload : PlaylistUpdate)
      (current_user : AuthUser) (env : Env) (s : State) :
  let t := db s in
  let hit := update_hit env current_user pid t in
  let change := updated_playlist payload (update_privacy_value (pupdate_privacy payload)) in
  let s' := mkState (set_playlists t (map (fun p => if hit p then change p else p)
                                          (playlists t)))
                    (bucket s) (pool s) in
  update_playlist pid payload current_user env s
  = if pool s then
      match find hit (playlists t) with
      | None => (Raise (not_found "Playlist not found."), s')
      | Some old =>
          match fetch_profiles [playlist_owner_id (change old)] env s' with
          | (Return profile_map, s'') =>
              (Return (mkPlaylistOut (playlist_id (change old)) (playlist_owner_id (change old))
                                     (playlist_name (change old))
                                     (playlist_description (change old))
                                     (playlist_privacy (change old))
                                     (playlist_created_at (change old)) 0 None
                                     (dict_get (playlist_owner_id (change old)) profile_map)),
               s'')
          | (Raise e, s'') => (Raise e, s'')
          end
      end
    else (Raise pool_error, s).
Proof.
  intros t hit change s'. subst t hit change s'.
  unfold update_playlist, update_hit, update_privacy_value, user_scope.
  rewrite bind_run. unfold get_db. rewrite bind_run. unfold pool_guard.
  destruct (pool s) eqn:Hpool; [|reflexivity].
  unfold bind at 1 2 3. unfold get_tables, ask, put_tables, ret. cbn [fst snd db bucket pool].
  rewrite ?Hpool.
  destruct (find _ (playlists (db s))) as [old|]; cbn [option_map]; [|reflexivity].
  rewrite bind_run. reflexivity.
Qed.

Lemma updated_playlist_frame (pid : string) (payload : PlaylistUpdate)
      (privacy_value : option string) (hit : Playlist -> bool) (l : list Playlist) :
  (forall p, hit p = true -> playlist_id p = pid) ->
  Forall2 (playlist_update_frame pid) l
          (map (fun p => if hit p then updated_playlist payload privacy_value p else p) l).
Proof.
  intros Hhit. induction l as [|p r IH]; simpl; constructor; [|exact IH].
  unfold playlist_update_frame. destruct (hit p) eqn:E; simpl; [|auto].
  repeat split; auto. intros Hne. exfalso. apply Hne. now apply Hhit.
Qed.

(** X13. [update_playlist] rewrites name, description and privacy of the
    playlist with the given id and nothing else: every playlist keeps its
    id, owner, share-token digest and creation time, every other playlist
    and every other table is unchanged. A field left out keeps its value; a
    privacy given is stored normalized. When the policy lets the caller
    update no playlist with that id, the answer is 404 "Playlist not found."
    and nothing changes, and this is the only way it raises; when it lets the
    caller update one, the handler returns; a row it does not let the caller
    update stays as it is. *)
Theorem update_playlist_changes_three_fields
        (pid : string) (payload : PlaylistUpdate) (current_user : AuthUser)
        (env : Env) (s : State) :
  pool s = true ->
  let r := update_playlist pid payload current_user env s in
  let after := playlists (db (snd r)) in
  snd r = mkState (set_playlists (db s) after) (bucket s) (pool s)
  /\ Forall2 (playlist_update_frame pid) (playlists (db s)) after
  /\ (forall e, fst r = Raise e ->
                e = not_found "Playlist not found." /\ snd r = s)
  /\ (forall out, fst r = Return out ->
        exists old,
          In old (playlists (db s)) /\ playlist_id old = pid
          /\ pout_id out = pid
          /\ pout_name out = match pupdate_name payload with
                             | Some n => n
                             | None => playlist_name old
                             end
          /\ pout_description out = match pupdate_description payload with
                                    | Some d => Some d
                                    | None => playlist_description old
                                    end
          /\ pout_privacy out = match pupdate_privacy payload with
                                | Some v => normalize_privacy (Some v)
                                | None => playlist_privacy old
                                end
          /\ In (mkPlaylist pid (playlist_owner_id old) (pout_name out)
                            (pout_description out) (pout_privacy out)
                            (playlist_share_token_hash old) (playlist_created_at old))
                after)
  /\ ((forall p, In p (playlists (db s)) -> playlist_id p = pid ->
                 row_security env (user_scope current_user) UPDATE (db s) (PlaylistRow p)
                 = false) ->
      r = (Raise (not_found "Playlist not found."), s))
  /\ (forall p, In p (playlists (db s)) -> playlist_id p = pid ->
                row_security env (user_scope current_user) UPDATE (db s) (PlaylistRow p)
                = true ->
                exists out, fst r = Return out)
  /\ (forall p, In p (playlists (db s)) ->
                row_security env (user_scope current_user) UPDATE (db s) (PlaylistRow p)
                = false ->
                In p after).
Proof.
  intros Hpool r after. subst after r.
  rewrite update_playlist_run. cbv zeta. rewrite Hpool.
  set (hit := update_hit env current_user pid (db s)).
  set (change := updated_playlist payload (update_privacy_value (pupdate_privacy payload))).
  assert (Hhit : forall p, hit p = true -> playlist_id p = pid).
  { intros p H. unfold hit, update_hit in H. apply andb_prop in H as [H _].
    now apply String.eqb_eq in H. }
  assert (Hkept : forall p, In p (playlists (db s)) ->
                            row_security env (user_scope current_user) UPDATE (db s)
                                         (PlaylistRow p) = false ->
                            In p (map (fun p => if hit p then change p else p)
                                      (playlists (db s)))).
  { intros p Hin Hno. apply in_map_iff. exists p. split; [|exact Hin].
    unfold hit, update_hit. now rewrite Hno, andb_false_r. }
  destruct (find hit (playlists (db s))) as [old|] eqn:Ef.
  - match goal with
    | |- context [fetch_profiles ?ids env ?s1] =>
        destruct (fetch_profiles_reads ids env s1 eq_refl) as [pm ->]
    end.
    cbn [fst snd db]. unfold set_playlists at 2. cbn [playlists].
    split; [reflexivity|].
    split; [now apply updated_playlist_frame|].
    split; [discriminate|].
    apply find_some in Ef as [Hin Hh]. pose proof (Hhit old Hh) as Hid.
    split; [|split; [|split; [eauto | exact Hkept]]].
    + intros out Hout. inversion Hout; subst out. clear Hout.
      exists old. cbn.
      split; [exact Hin|]. split; [exact Hid|]. split; [exact Hid|].
      split; [destruct (pupdate_name payload); reflexivity|].
      split; [destruct (pupdate_description payload); reflexivity|].
      split; [destruct (pupdate_privacy payload); reflexivity|].
      apply in_map_iff. exists old. rewrite Hh. split; [|exact Hin].
      unfold change, updated_playlist. now rewrite Hid.
    + intros Hnone. exfalso.
      unfold hit, update_hit in Hh. rewrite (Hnone old Hin Hid), andb_false_r in Hh.
      discriminate Hh.
  - cbn [fst snd db]. unfold set_playlists at 2. cbn [playlists].
    assert (Es : mkState (set_playlists (db s)
                            (map (fun p => if hit p then change p else p) (playlists (db s))))
                         (bucket s) true = s).
    { rewrite (map_no_hit hit _ _ Ef). now apply state_eta. }
    split; [reflexivity|].
    split; [now apply updated_playlist_frame|].
    split; [|split; [discriminate|split; [|split; [|exact Hkept]]]].
    + intros e He. inversion He. split; [reflexivity | exact Es].
    + intros _. now rewrite Es.
    + intros p Hin Hid Hok. exfalso.
      pose proof (find_none _ _ Ef p Hin) as Hno. unfold hit, update_hit in Hno.
      rewrite Hok, andb_true_r in Hno. apply String.eqb_neq in Hno. contradiction.
Qed.

Lemma update_playlist_changes_three_fields_witness :
  fst (update_playlist "P" (mkPlaylistUpdate (Some "party") None (Some "link-only")) alice
                       example_env abc_state)
  = Return (mkPlaylistOut "P" (user_id alice) "party" None "link_only" (Some 5) 0 None
                          (Some (mkProfile (user_id alice) (Some "alice-liddell-a11ce0")
                                           (Some "Alice") None)))
  /\ Forall2 (playlist_update_frame "P") (playlists abc_tables)
             (playlists (db (snd (update_playlist
                                    "P" (mkPlaylistUpdate (Some "party") None (Some "link-only"))
                                    alice example_env abc_state))))
  /\ update_playlist "P" (mkPlaylistUpdate (Some "party") None (Some "link-only")) bob
                     example_env abc_state
     = (Raise (not_found "Playlist not found."), abc_state).
Proof.
  split; [reflexivity|]. split.
  - apply (update_playlist_changes_three_fields
             "P" (mkPlaylistUpdate (Some "party") None (Some "link-only")) alice
             example_env abc_state eq_refl).
  - pose proof (update_playlist_changes_three_fields
                  "P" (mkPlaylistUpdate (Some "party") None (Some "link-only")) bob
                  example_env abc_state eq_refl) as H.
    cbv zeta in H. destruct H as (_ & _ & _ & _ & H & _).
    apply H. intros p [<- | []] _. reflexivity.
Defined.

(** X14. The share link follows the privacy of the playlist and the token
    survives the change: once [update_playlist] has set a privacy other than
    "link_only", the token of the playlist gets the 404; once it has set
    "link_only" (again), the same token opens the playlist. (Playlist ids
    are unique and the token belongs to this playlist only.) *)
Theorem share_link_follows_privacy
        (pid token v : string) (payload : PlaylistUpdate) (current_user : AuthUser)
        (env : Env) (s : State) :
  pool s = true ->
  let r := update_playlist pid payload current_user env s in
  (exists out, fst r = Return out) ->
  pupdate_privacy payload = Some v ->
  NoDup (map playlist_id (playlists (db s))) ->
  (forall p, In p (playlists (db s)) ->
             playlist_share_token_hash p = Some (Sha256.hexdigest token) ->
             playlist_id p = pid) ->
  (normalize_privacy (Some v) <> "link_only" ->
   get_playlist_share token env (snd r)
   = (Raise (not_found "Share link not found."), snd r))
  /\ (normalize_privacy (Some v) = "link_only" ->
      (exists p, In p (playlists (db s))
                 /\ playlist_share_token_hash p = Some (Sha256.hexdigest token)) ->
      service_reads_playlists env (db (snd r)) ->
      signing_works env ->
      exists detail,
        get_playlist_share token env (snd r) = (Return detail, snd r)
        /\ pout_id (detail_playlist detail) = pid
        /\ pout_privacy (detail_playlist detail) = "link_only").
Proof.
  intros Hpool r [out Hout] Hv Hnd Hown. subst r.
  rewrite update_playlist_run in *. cbv zeta in *. rewrite Hpool in *.
  set (hit := update_hit env current_user pid (db s)) in *.
  set (change := updated_playlist payload (update_privacy_value (pupdate_privacy payload)))
    in *.
  destruct (find hit (playlists (db s))) as [p0|] eqn:Ef; [|discriminate Hout].
  match type of Hout with
  | context [fetch_profiles ?ids env ?s1] =>
      destruct (fetch_profiles_reads ids env s1 eq_refl) as [pm Epm]
  end.
  rewrite Epm in *. cbn [snd] in *. clear Hout Epm.
  apply find_some in Ef as [Hin0 Hhit0].
  assert (Hid0 : playlist_id p0 = pid).
  { unfold hit, update_hit in Hhit0. apply andb_prop in Hhit0 as [H _].
    now apply String.eqb_eq in H. }
  assert (Hpriv : forall p, playlist_privacy (change p) = normalize_privacy (Some v)).
  { intros p. unfold change, updated_playlist. rewrite Hv. reflexivity. }
  assert (Hrows : forall q,
             In q (map (fun p => if hit p then change p else p) (playlists (db s))) ->
             playlist_share_token_hash q = Some (Sha256.hexdigest token) ->
             q = change p0).
  { intros q Hq Hh. apply in_map_iff in Hq as [p [Ep Hp]].
    assert (Hhp : playlist_share_token_hash p = Some (Sha256.hexdigest token)).
    { destruct (hit p); subst q; [exact Hh | exact Hh]. }
    assert (p = p0).
    { apply (NoDup_map_inj playlist_id (playlists (db s))); auto.
      rewrite (Hown p Hp Hhp). now rewrite Hid0. }
    subst p. now rewrite Hhit0 in Ep. }
  set (s' := mkState _ (bucket s) true).
  pose proof (get_playlist_share_run token env s' eq_refl) as Hrun.
  split.
  - intros Hne.
    destruct (find _ (playlists (db s'))) as [q|] eqn:Eq; [|exact Hrun].
    exfalso. apply find_some in Eq as [Hq Hs].
    apply share_link_row_shared in Hs as [Hh Hl].
    rewrite (Hrows q Hq Hh), Hpriv in Hl. contradiction.
  - intros Heq [p [Hp Hh]] Hsvc Hsign.
    assert (p = p0).
    { apply (NoDup_map_inj playlist_id (playlists (db s))); auto.
      rewrite (Hown p Hp Hh). now rewrite Hid0. }
    subst p.
    assert (Hin' : In (change p0) (playlists (db s'))).
    { apply in_map_iff. exists p0. now rewrite Hhit0. }
    assert (Hsh : shared_by token (change p0)).
    { split; [exact Hh | now rewrite Hpriv]. }
    destruct (find _ (playlists (db s'))) as [q|] eqn:Eq.
    + destruct Hrun as [Hcases Hsigned].
      apply find_some in Eq as [Hq Hs].
      apply share_link_row_shared in Hs as [Hqh Hql].
      pose proof (Hrows q Hq Hqh) as ->.
      destruct (Hsigned Hsign) as [detail E].
      destruct Hcases as [[detail' [E' [Hi [Hpv _]]]] | [args E']];
        rewrite E in E'; [|discriminate E'].
      inversion E'; subst detail'.
      exists detail. split; [exact E|]. split; [now rewrite Hi | now rewrite Hpv, Hpriv].
    + exfalso. pose proof (find_none _ _ Eq _ Hin') as Hf.
      rewrite (shared_share_link_row env ServiceScope token (db s') _ (Hsvc _) Hsh) in Hf.
      discriminate.
Qed.

Lemma share_link_follows_privacy_witness :
  let hidden := update_playlist "P" (mkPlaylistUpdate None None (Some "private")) alice
                                example_env abc_state in
  get_playlist_share "AAAAAAAAAAAAAAAAAAAAAA" example_env (snd hidden)
  = (Raise (not_found "Share link not found."), snd hidden).
Proof.
  cbv zeta.
  refine (proj1 (share_link_follows_privacy
                   "P" "AAAAAAAAAAAAAAAAAAAAAA" "private"
                   (mkPlaylistUpdate None None (Some "private")) alice example_env abc_state
                   eq_refl _ eq_refl _ _) _).
  - eexists. reflexivity.
  - repeat constructor. simpl. tauto.
  - intros p [<- | []] _. reflexivity.
  - simpl. discriminate.
Defined.

(** Hidden and shown again: the token of the example playlist fails while
    the playlist is private and works once it is "link_only" again. *)
Example share_link_hidden_and_shown :
  let shared s :=
    match fst (get_playlist_share "AAAAAAAAAAAAAAAAAAAAAA" example_env s) with
    | Return detail => Some (pout_id (detail_playlist detail))
    | Raise _ => None
    end in
  let s1 := snd (update_playlist "P" (mkPlaylistUpdate None None (Some "private")) alice
                                 example_env abc_state) in
  let s2 := snd (update_playlist "P" (mkPlaylistUpdate None None (Some "link-only")) alice
                                 example_env s1) in
  shared abc_state = Some "P" /\ shared s1 = None /\ shared s2 = Some "P".
Proof. vm_compute. repeat split. Qed.

(** ** The privacy column *)

Lemma privacy_canonical_playlists (t : Tables) (f : Playlist -> Playlist) :
  (forall p, canonical_privacy (playlist_privacy p) ->
             canonical_privacy (playlist_privacy (f p))) ->
  privacy_canonical t -> privacy_canonical (set_playlists t (map f (playlists t))).
Proof.
  intros Hf [Hp Hx]. split; [|exact Hx].
  unfold set_playlists. cbn [playlists].
  apply Forall_map. eapply Forall_impl; [|exact Hp]. exact Hf.
Qed.

Lemma privacy_canonical_sounds (t : Tables) (f : Sound -> Sound) :
  (forall x, canonical_privacy (sound_privacy (f x))
             \/ sound_privacy (f x) = sound_privacy x) ->
  privacy_canonical t -> privacy_canonical (set_sounds t (map f (sounds t))).
Proof.
  intros Hf [Hp Hx]. split; [exact Hp|].
  unfold set_sounds. cbn [sounds].
  apply Forall_map. eapply Forall_impl; [|exact Hx].
  intros x H. cbv beta. destruct (Hf x) as [H'|H']; [exact H' | now rewrite H'].
Qed.

Lemma keeps_privacy_upsert (sc : Scope) (slug display : string) :
  keeps privacy_canonical (upsert_tag sc slug display).
Proof.
  intros env s H. rewrite upsert_tag_run. cbv zeta.
  destruct (find _ _); destruct (row_security _ _ _ _ _); exact H.
Qed.

Lemma keeps_privacy_insert (sc : Scope) (sid : string) (tid : nat) :
  keeps privacy_canonical (insert_sound_tag sc sid tid).
Proof. apply keeps_insert_sound_tag. intros t x H. exact H. Qed.

(** X15. The privacy column only ever holds one of its three values: if
    every playlist and every sound has privacy "public", "private" or
    "link_only", this is still so after [create_playlist], [update_playlist],
    [rotate_share_token], [create_sound] and [update_sound], whatever the
    request carries as privacy and whatever the outcome. *)
Theorem privacy_stays_canonical
        (pid sid uuid4 : string) (rng : Secrets.entropy)
        (new_playlist : PlaylistCreate) (playlist_change : PlaylistUpdate)
        (file : UploadFile) (name description tag_text privacy : string)
        (sound_change : SoundUpdate) (current_user : AuthUser)
        (env : Env) (s : State) :
  privacy_canonical (db s) ->
  privacy_canonical (db (snd (create_playlist new_playlist current_user uuid4 rng env s)))
  /\ privacy_canonical (db (snd (update_playlist pid playlist_change current_user env s)))
  /\ privacy_canonical (db (snd (rotate_share_token pid current_user rng env s)))
  /\ privacy_canonical
       (db (snd (create_sound file name description tag_text privacy current_user
                              uuid4 env s)))
  /\ privacy_canonical (db (snd (update_sound sid sound_change current_user env s))).
Proof.
  intros H.
  assert (Hupd : privacy_canonical
                   (set_playlists (db s)
                      (map (fun p => if update_hit env current_user pid (db s) p
                                     then updated_playlist playlist_change
                                            (update_privacy_value
                                               (pupdate_privacy playlist_change)) p
                                     else p)
                           (playlists (db s))))).
  { apply privacy_canonical_playlists; [|exact H].
    intros p Hp. destruct (update_hit env current_user pid (db s) p); [|exact Hp].
    unfold updated_playlist, update_privacy_value. cbn [playlist_privacy].
    destruct (pupdate_privacy playlist_change); cbn [COALESCE or_empty];
      [apply normalize_privacy_is_canonical | exact Hp]. }
  split; [|split; [|split; [|split]]].
  - rewrite create_playlist_run. cbv zeta.
    destruct (pool s); [|exact H].
    destruct (row_security env _ INSERT (db s) _); [|exact H].
    cbn [snd db]. destruct H as [Hp Hx]. split; [|exact Hx].
    unfold set_playlists. cbn [playlists].
    apply Forall_app. split; [exact Hp|].
    constructor; [|constructor].
    unfold created_playlist_row. cbn [playlist_privacy].
    apply normalize_privacy_is_canonical.
  - rewrite update_playlist_run. cbv zeta.
    destruct (pool s); [|exact H].
    destruct (find _ (playlists (db s))); [|exact Hupd].
    match goal with
    | |- context [fetch_profiles ?ids ?e ?st] =>
        pose proof (reads_only_fetch_profiles ids e st) as Hr;
        destruct (fetch_profiles ids e st) as [[found|e'] s'']
    end; cbn [snd db] in *; rewrite Hr; exact Hupd.
  - rewrite rotate_share_token_run. cbv zeta.
    destruct (pool s); [|exact H].
    assert (Hrot : privacy_canonical
                     (set_playlists (db s)
                        (map (fun p => if rotation_hit env current_user pid (db s) p
                                       then with_share_token_hash p
                                              (Sha256.hexdigest (Secrets.token_urlsafe rng 16))
                                       else p)
                             (playlists (db s))))).
    { apply privacy_canonical_playlists; [|exact H].
      intros p Hp. destruct (rotation_hit env current_user pid (db s) p); exact Hp. }
    destruct (find _ (playlists (db s))); exact Hrot.
  - apply (keeps_create_sound privacy_canonical);
      auto using keeps_privacy_upsert, keeps_privacy_insert.
    intros t row Hrow [Hp Hx]. split; [exact Hp|].
    unfold set_sounds. cbn [sounds]. apply Forall_app. split; [exact Hx|].
    constructor; [exact Hrow | constructor].
  - apply (keeps_update_sound privacy_canonical);
      auto using keeps_privacy_upsert, keeps_privacy_insert, privacy_canonical_sounds.
Qed.

Lemma privacy_stays_canonical_witness :
  privacy_canonical
    (db (snd (update_playlist "P" (mkPlaylistUpdate None None (Some " Link-Only "))
                              alice example_env abc_state)))
  /\ privacy_canonical
       (db (snd (create_sound clip "Air Horn" "" "meme" "friends only" alice "S1"
                              example_env abc_state))).
Proof.
  pose proof (privacy_stays_canonical
                "P" "A" "S1" zero_rng (mkPlaylistCreate "Mix" None "public")
                (mkPlaylistUpdate None None (Some " Link-Only "))
                clip "Air Horn" "" "meme" "friends only"
                (mkSoundUpdate None None None) alice example_env abc_state) as H.
  assert (H0 : privacy_canonical (db abc_state)).
  { split; repeat constructor; vm_compute; tauto. }
  destruct (H H0) as (_ & H2 & _ & H4 & _). split; [exact H2 | exact H4].
Defined.

(** ** Deleting a sound *)

Lemma delete_sound_run (storage_remove_error : string -> option (list StorageArg))
      (sid : string) (current_user : AuthUser) (env : Env) (s : State) :
  let t := db s in
  let t' := set_sounds t (filter (fun x => negb (delete_hit env current_user sid t x))
                                 (sounds t)) in
  delete_sound storage_remove_error sid current_user env s
  = if pool s then
      match find (sound_seen env current_user sid t) (sounds t) with
      | None => (Raise (not_found "Sound not found."), s)
      | Some row =>
          match storage_remove_error (sound_storage_path row) with
          | Some args => (Raise (StorageException args), mkState t' (bucket s) (pool s))
          | None =>
              (Return true,
               mkState t'
                       (filter (fun o => negb (fst o =? sound_storage_path row)) (bucket s))
                       (pool s))
          end
      end
    else (Raise pool_error, s).
Proof.
  intros t t'. subst t t'.
  unfold delete_sound, sound_seen, delete_hit, user_scope.
  rewrite bind_run. unfold get_db. rewrite bind_run. unfold pool_guard.
  destruct (pool s) eqn:Hpool; [|reflexivity].
  unfold bind at 1 2. unfold get_tables, ask. cbn [fst snd db bucket pool].
  destruct (find _ (sounds (db s))) as [row|]; [|reflexivity].
  unfold bind at 1. unfold put_tables, ret. cbn [fst snd db bucket pool].
  rewrite bind_run. unfold delete_path. cbn [fst snd db bucket pool].
  destruct (storage_remove_error (sound_storage_path row)); rewrite ?Hpool; reflexivity.
Qed.

Lemma stored_at_filter (path : string) (b : Bucket) :
  stored_at path (filter (fun o => negb (fst o =? path)) b) = false.
Proof.
  unfold stored_at. induction b as [|o r IH]; simpl; [reflexivity|].
  destruct (fst o =? path) eqn:E; simpl; [exact IH|]. now rewrite E, IH.
Qed.

Lemma find_unique_id (seen : Sound -> bool) (sid : string) (l : list Sound) (row x : Sound) :
  NoDup (map sound_id l) -> find seen l = Some row -> sound_id row = sid ->
  In x l -> sound_id x = sid -> x = row.
Proof.
  intros Hnd Hfind Hrow Hx Hid.
  apply find_some in Hfind. destruct Hfind as [Hin _].
  apply (NoDup_map_inj sound_id l); auto. congruence.
Qed.

Lemma sound_seen_unique (env : Env) (current_user : AuthUser) (sid : string) (t : Tables)
      (x : Sound) :
  NoDup (map sound_id (sounds t)) -> In x (sounds t) -> sound_id x = sid ->
  row_security env (user_scope current_user) SELECT t (SoundRow x) = true ->
  find (sound_seen env current_user sid t) (sounds t) = Some x.
Proof.
  intros Hnd Hin Hid Hsel.
  destruct (find (sound_seen env current_user sid t) (sounds t)) as [row|] eqn:Hfind.
  - f_equal. symmetry.
    pose proof (find_some _ _ Hfind) as [_ Hseen].
    unfold sound_seen in Hseen. apply andb_prop in Hseen. destruct Hseen as [Hrow _].
    apply String.eqb_eq in Hrow.
    now apply (find_unique_id _ sid (sounds t) row x Hnd Hfind).
  - pose proof (find_none _ _ Hfind x Hin) as Hno. unfold sound_seen in Hno.
    rewrite Hsel, andb_true_r in Hno. apply String.eqb_neq in Hno. contradiction.
Qed.

(** X16. Deleting a sound the caller may see and delete, in a table with one
    row per id: the row is deleted, and only it, before the store is asked
    to remove the file. If the store removes it, the answer is ok and no
    object is left at the sound's path, every other object staying. If the
    store refuses, its exception is what the handler raises, the row is gone
    all the same and the store is as before. *)
Theorem delete_sound_row_then_object
        (storage_remove_error : string -> option (list StorageArg))
        (sid : string) (current_user : AuthUser) (env : Env) (s : State) (x : Sound) :
  pool s = true ->
  NoDup (map sound_id (sounds (db s))) ->
  In x (sounds (db s)) -> sound_id x = sid ->
  row_security env (user_scope current_user) SELECT (db s) (SoundRow x) = true ->
  row_security env (user_scope current_user) DELETE (db s) (SoundRow x) = true ->
  let r := delete_sound storage_remove_error sid current_user env s in
  let left := filter (fun y => negb (sound_id y =? sid)) (sounds (db s)) in
  db (snd r) = set_sounds (db s) left
  /\ ~ In x left
  /\ match storage_remove_error (sound_storage_path x) with
     | None =>
         fst r = Return true
         /\ stored_at (sound_storage_path x) (bucket (snd r)) = false
         /\ (forall o, In o (bucket s) -> fst o <> sound_storage_path x ->
                       In o (bucket (snd r)))
     | Some args =>
         fst r = Raise (StorageException args) /\ bucket (snd r) = bucket s
     end.
Proof.
  intros Hpool Hnd Hin Hid Hsel Hdel r left. subst r left.
  rewrite delete_sound_run. cbv zeta. rewrite Hpool.
  rewrite (sound_seen_unique env current_user sid (db s) x Hnd Hin Hid Hsel).
  assert (Hleft : filter (fun y => negb (delete_hit env current_user sid (db s) y))
                         (sounds (db s))
                  = filter (fun y => negb (sound_id y =? sid)) (sounds (db s))).
  { apply filter_ext_in. intros y Hy. unfold delete_hit.
    destruct (sound_id y =? sid) eqn:E; [|reflexivity].
    apply String.eqb_eq in E.
    assert (y = x) as -> by (apply (NoDup_map_inj sound_id (sounds (db s))); auto; congruence).
    now rewrite Hdel. }
  rewrite Hleft.
  split; [|split].
  - destruct (storage_remove_error (sound_storage_path x)); reflexivity.
  - intros Hx. apply filter_In in Hx. destruct Hx as [_ Hx].
    apply negb_true_iff, String.eqb_neq in Hx. contradiction.
  - destruct (storage_remove_error (sound_storage_path x)) as [args|]; cbn [fst snd bucket].
    + split; reflexivity.
    + split; [reflexivity|]. split; [apply stored_at_filter|].
      intros o Ho Hne. apply filter_In. split; [exact Ho|].
      now apply negb_true_iff, String.eqb_neq.
Qed.

Lemma delete_sound_row_then_object_witness :
  let r := delete_sound removing_store "A" alice example_env stocked_state in
  fst r = Return true
  /\ map sound_id (sounds (db (snd r))) = ["B"; "C"]
  /\ map fst (bucket (snd r)) = ["a/B/b.mp3"].
Proof.
  pose proof (delete_sound_row_then_object
                removing_store "A" alice example_env stocked_state
                (mkSound "A" (Some (user_id alice)) "a" None "a/A/a.mp3" 3 None "public" None
                         (Some 1))
                eq_refl) as H.
  cbv zeta in H.
  destruct H as (Hdb & _ & Hok & _).
  - repeat constructor; simpl; intuition discriminate.
  - left. reflexivity.
  - reflexivity.
  - reflexivity.
  - reflexivity.
  - cbv zeta. split; [exact Hok|]. split; [now rewrite Hdb | reflexivity].
Defined.

(** X17. [delete_sound] does not look at what its DELETE did. For a sound
    the policy lets the caller read but not delete, the table [sounds] is
    left as it is, and the file is removed from the store all the same, with
    the answer ok. *)
Theorem delete_sound_removes_file_of_kept_row
        (sid : string) (current_user : AuthUser) (env : Env) (s : State) (x : Sound) :
  pool s = true ->
  NoDup (map sound_id (sounds (db s))) ->
  In x (sounds (db s)) -> sound_id x = sid ->
  row_security env (user_scope current_user) SELECT (db s) (SoundRow x) = true ->
  row_security env (user_scope current_user) DELETE (db s) (SoundRow x) = false ->
  let r := delete_sound removing_store sid current_user env s in
  fst r = Return true
  /\ sounds (db (snd r)) = sounds (db s)
  /\ In x (sounds (db (snd r)))
  /\ stored_at (sound_storage_path x) (bucket (snd r)) = false.
Proof.
  intros Hpool Hnd Hin Hid Hsel Hdel r. subst r.
  rewrite delete_sound_run. cbv zeta. rewrite Hpool.
  rewrite (sound_seen_unique env current_user sid (db s) x Hnd Hin Hid Hsel).
  unfold removing_store. cbn [fst snd db bucket].
  assert (Hleft : filter (fun y => negb (delete_hit env current_user sid (db s) y))
                         (sounds (db s))
                  = sounds (db s)).
  { rewrite <- (filter_true (sounds (db s))) at 2.
    apply filter_ext_in. intros y Hy. unfold delete_hit.
    destruct (sound_id y =? sid) eqn:E; [|reflexivity].
    apply String.eqb_eq in E.
    assert (y = x) as -> by (apply (NoDup_map_inj sound_id (sounds (db s))); auto; congruence).
    now rewrite Hdel. }
  unfold set_sounds. cbn [sounds]. rewrite Hleft.
  split; [reflexivity|]. split; [reflexivity|]. split; [exact Hin | apply stored_at_filter].
Qed.

Lemma delete_sound_removes_file_of_kept_row_witness :
  let r := delete_sound removing_store "A" bob example_env stocked_state in
  stored_at "a/A/a.mp3" (bucket stocked_state) = true
  /\ fst r = Return true
  /\ map sound_id (sounds (db (snd r))) = ["A"; "B"; "C"]
  /\ stored_at "a/A/a.mp3" (bucket (snd r)) = false.
Proof.
  pose proof (delete_sound_removes_file_of_kept_row
                "A" bob example_env stocked_state
                (mkSound "A" (Some (user_id alice)) "a" None "a/A/a.mp3" 3 None "public" None
                         (Some 1))
                eq_refl) as H.
  cbv zeta in H.
  destruct H as (Hok & Hrows & _ & Hgone).
  - repeat constructor; simpl; intuition discriminate.
  - left. reflexivity.
  - reflexivity.
  - reflexivity.
  - reflexivity.
  - cbv zeta. split; [reflexivity|]. split; [exact Hok|].
    split; [now rewrite Hrows | exact Hgone].
Defined.

(** X18. A sound that the policy hides from the caller is answered like one
    that does not exist: [delete_sound] raises 404 "Sound not found." and
    changes neither the tables nor the store, and the store is not asked
    anything. *)
Theorem delete_sound_hidden_is_not_found
        (storage_remove_error : string -> option (list StorageArg))
        (sid : string) (current_user : AuthUser) (env : Env) (s : State) :
  pool s = true ->
  (forall x, In x (sounds (db s)) -> sound_id x = sid ->
             row_security env (user_scope current_user) SELECT (db s) (SoundRow x) = false) ->
  delete_sound storage_remove_error sid current_user env s
  = (Raise (not_found "Sound not found."), s).
Proof.
  intros Hpool Hhid. rewrite delete_sound_run. cbv zeta. rewrite Hpool.
  destruct (find _ (sounds (db s))) as [row|] eqn:Hfind; [|reflexivity].
  apply find_some in Hfind. destruct Hfind as [Hin Hseen].
  unfold sound_seen in Hseen. apply andb_prop in Hseen. destruct Hseen as [Hid Hsel].
  apply String.eqb_eq in Hid. rewrite (Hhid row Hin Hid) in Hsel. discriminate.
Qed.

Lemma delete_sound_hidden_is_not_found_witness :
  delete_sound (refusing_store []) "D" bob example_env abcd_state
  = (Raise (not_found "Sound not found."), abcd_state).
Proof.
  apply delete_sound_hidden_is_not_found; [reflexivity|].
  intros x Hin Hid. simpl in Hin.
  destruct Hin as [<- | [<- | [<- | [<- | []]]]]; try discriminate Hid. reflexivity.
Defined.

(** ** Updating a sound *)

Lemma update_sound_run (sid : string) (payload : SoundUpdate) (current_user : AuthUser)
      (env : Env) (s : State) :
  let t1 := sounds_updated env current_user sid payload (db s) in
  let t2 := links_deleted env current_user sid t1 in
  update_sound sid payload current_user env s
  = if pool s then
      match find (sound_seen env current_user sid (db s)) (sounds (db s)) with
      | None => (Raise (not_found "Sound not found."), s)
      | Some _ =>
          match update_tags payload with
          | None => (Return true, mkState t1 (bucket s) (pool s))
          | Some raw =>
              match attach_tags (user_scope current_user) sid (normalize_tags (Some raw))
                                env (mkState t2 (bucket s) (pool s)) with
              | (Return _, s') => (Return true, s')
              | (Raise e, s') => (Raise e, s')
              end
          end
      end
    else (Raise pool_error, s).
Proof.
  intros t1 t2. subst t1 t2.
  unfold update_sound, sounds_updated, links_deleted, sound_seen, sound_update_hit,
    link_delete_hit, updated_sound, update_privacy_value, user_scope.
  rewrite bind_run. unfold get_db. rewrite bind_run. unfold pool_guard.
  destruct (pool s) eqn:Hpool; [|reflexivity].
  unfold bind at 1 2. unfold get_tables, ask. cbn [fst snd db bucket pool].
  destruct (find _ (sounds (db s))) as [row|]; [|reflexivity].
  unfold bind at 1. unfold put_tables at 1. cbn [fst snd db bucket pool].
  destruct (update_tags payload) as [raw|].
  - unfold bind at 1 2. unfold get_tables, put_tables. cbn [fst snd db bucket pool].
    rewrite bind_run. rewrite ?Hpool.
    destruct (attach_tags _ sid _ env _) as [[res|e] s']; reflexivity.
  - unfold ret. cbn [fst snd]. rewrite ?Hpool. reflexivity.
Qed.

Lemma sound_update_frame_refl (sid : string) (l : list Sound) :
  Forall2 (sound_update_frame sid) l l.
Proof. induction l; constructor; auto. unfold sound_update_frame. tauto. Qed.

Lemma sounds_updated_frame (env : Env) (current_user : AuthUser) (sid : string)
      (payload : SoundUpdate) (t : Tables) :
  Forall2 (sound_update_frame sid) (sounds t)
          (sounds (sounds_updated env current_user sid payload t)).
Proof.
  unfold sounds_updated, set_sounds. cbn [sounds].
  induction (sounds t) as [|x r IH]; simpl; constructor; auto.
  unfold sound_update_hit.
  destruct (sound_id x =? sid) eqn:E; cbn [andb].
  - apply String.eqb_eq in E.
    destruct (row_security env _ UPDATE t (SoundRow x));
      unfold sound_update_frame; cbn; tauto.
  - unfold sound_update_frame. tauto.
Qed.

Lemma attach_tags_sounds (conn : Scope) (sid : string) (tag_list : list string)
      (env : Env) (s : State) :
  sounds (db (snd (attach_tags conn sid tag_list env s))) = sounds (db s).
Proof.
  apply (keeps_attach_tags (fun t => sounds t = sounds (db s))); [| |reflexivity].
  - intros slug display _ _ env' s' H. rewrite upsert_tag_run. cbv zeta.
    destruct (find _ _); destruct (row_security _ _ _ _ _); exact H.
  - intros tid. apply keeps_insert_sound_tag. intros t x H. exact H.
Qed.

(** X19. Of the table [sounds], [update_sound] changes nothing but the name
    and the privacy of rows with the given id, whatever the outcome, and it
    never touches the store. A payload without tags changes no other table
    either; and for a sound the policy hides from the caller the answer is 404
    "Sound not found." with everything as before. *)
Theorem update_sound_changes_name_and_privacy
        (sid : string) (payload : SoundUpdate) (current_user : AuthUser)
        (env : Env) (s : State) :
  let r := update_sound sid payload current_user env s in
  Forall2 (sound_update_frame sid) (sounds (db s)) (sounds (db (snd r)))
  /\ bucket (snd r) = bucket s
  /\ (update_tags payload = None -> db (snd r) = set_sounds (db s) (sounds (db (snd r))))
  /\ (pool s = true ->
      (forall x, In x (sounds (db s)) -> sound_id x = sid ->
                 row_security env (user_scope current_user) SELECT (db s) (SoundRow x)
                 = false) ->
      r = (Raise (not_found "Sound not found."), s)).
Proof.
  intros r. subst r. rewrite update_sound_run. cbv zeta.
  destruct (pool s) eqn:Hpool.
  2:{ cbn [snd]. split; [apply sound_update_frame_refl|]. split; [reflexivity|].
      split; [|discriminate]. intros _. now destruct (db s). }
  destruct (find _ (sounds (db s))) as [row|] eqn:Hfind.
  2:{ cbn [snd]. split; [apply sound_update_frame_refl|]. split; [reflexivity|].
      split; [|reflexivity]. intros _. now destruct (db s). }
  assert (Hseen : ~ (forall x, In x (sounds (db s)) -> sound_id x = sid ->
                               row_security env (user_scope current_user) SELECT (db s)
                                            (SoundRow x) = false)).
  { intros Hhid. apply find_some in Hfind. destruct Hfind as [Hin Hs].
    unfold sound_seen in Hs. apply andb_prop in Hs. destruct Hs as [Hid Hsel].
    apply String.eqb_eq in Hid. rewrite (Hhid row Hin Hid) in Hsel. discriminate. }
  destruct (update_tags payload) as [raw|].
  - pose proof (attach_tags_sounds (user_scope current_user) sid (normalize_tags (Some raw)) env
                  (mkState (links_deleted env current_user sid
                              (sounds_updated env current_user sid payload (db s)))
                           (bucket s) true)) as Hs.
    pose proof (database_only_attach_tags (user_scope current_user) sid
                  (normalize_tags (Some raw)) env
                  (mkState (links_deleted env current_user sid
                              (sounds_updated env current_user sid payload (db s)))
                           (bucket s) true)) as [Hb _].
    destruct (attach_tags _ sid _ env _) as [[res|e] s']; cbn [snd db bucket] in *;
      (split; [rewrite Hs; apply sounds_updated_frame|]; split; [exact Hb|];
       split; [discriminate | intros _ Hhid; contradiction]).
  - cbn [snd db bucket].
    split; [apply sounds_updated_frame|]. split; [reflexivity|].
    split; [reflexivity | intros _ Hhid; contradiction].
Qed.

Lemma update_sound_changes_name_and_privacy_witness :
  update_sound "D" (mkSoundUpdate (Some "mine") None (Some "public")) bob example_env abcd_state
  = (Raise (not_found "Sound not found."), abcd_state).
Proof.
  refine (proj2 (proj2 (proj2 (update_sound_changes_name_and_privacy
                                 "D" (mkSoundUpdate (Some "mine") None (Some "public")) bob
                                 example_env abcd_state))) eq_refl _).
  intros x Hin Hid. simpl in Hin.
  destruct Hin as [<- | [<- | [<- | [<- | []]]]]; try discriminate Hid. reflexivity.
Defined.

(** Every id that [ensure_tags] returns is the id of the row of a listed
    tag. *)
Lemma ensure_tags_ids_only (conn : Scope) (tag_list : list string) :
  forall (env : Env) (s s' : State) (ids : list nat),
    ensure_tags conn tag_list env s = (Return ids, s') ->
    forall id, In id ids ->
               exists g tag, tag_id g = id /\ In g (tags (db s'))
                             /\ In tag tag_list /\ has_slug tag = true
                             /\ tag_slug g = slugify tag.
Proof.
  induction tag_list as [|a rest IH]; intros env s s' ids Hrun id Hid.
  - simpl in Hrun. inversion Hrun; subst. destruct Hid.
  - simpl in Hrun. destruct (PyStr.is_empty (slugify a)) eqn:Ea.
    + destruct (IH env s s' ids Hrun id Hid) as [g [tag [H1 [H2 [H3 [H4 H5]]]]]].
      exists g, tag. repeat split; auto. now right.
    + rewrite bind_run in Hrun.
      destruct (upsert_tag conn (slugify a) a env s) as [[id0|e] s1] eqn:Eu;
        [|discriminate].
      rewrite bind_run in Hrun.
      destruct (ensure_tags conn rest env s1) as [[ids'|e] s2] eqn:Er; [|discriminate].
      inversion Hrun; subst ids s2.
      destruct Hid as [<- | Hid].
      * pose proof (upsert_tag_returns _ _ _ _ _ _ _ Eu) as Hin.
        destruct (ensure_tags_row conn rest env s1 _ Hin) as [g' [H1 [H2 [H3 _]]]].
        rewrite Er in H1. cbn [snd] in H1.
        exists g', a. cbn [tag_id tag_slug] in *.
        repeat split; auto; [now left|]. unfold has_slug. now rewrite Ea.
      * destruct (IH env s1 s' ids' Er id Hid) as [g [tag [H1 [H2 [H3 [H4 H5]]]]]].
        exists g, tag. repeat split; auto. now right.
Qed.

(** The links in [sound_tags] after the insertions: those before and links
    of the sound to the given ids. *)
Lemma link_tags_only (conn : Scope) (sid : string) (ids : list nat) :
  forall (env : Env) (s : State) (x : SoundTag),
    In x (sound_tags (db (snd (for_each ids (fun tid => insert_sound_tag conn sid tid)
                                        env s)))) ->
    In x (sound_tags (db s)) \/ exists id, In id ids /\ x = mkSoundTag sid id.
Proof.
  induction ids as [|i r IH]; intros env s x Hx; simpl in Hx.
  - now left.
  - rewrite bind_run in Hx.
    pose proof (insert_sound_tag_run conn sid i env s) as Ei.
    assert (Hone : forall y, In y (sound_tags (db (snd (insert_sound_tag conn sid i env s)))) ->
                             In y (sound_tags (db s)) \/ y = mkSoundTag sid i).
    { intros y Hy. rewrite Ei in Hy.
      destruct (existsb _ (sound_tags (db s))); [now left|].
      destruct (row_security _ _ _ _ _); [|now left].
      cbn [snd db] in Hy. unfold set_sound_tags in Hy. cbn [sound_tags] in Hy.
      apply in_app_or in Hy. destruct Hy as [Hy | [<- | []]]; auto. }
    destruct (insert_sound_tag conn sid i env s) as [[[]|e] s1]; cbn [snd] in *.
    + destruct (IH env s1 x Hx) as [H | [id [Hid ->]]].
      * destruct (Hone x H) as [H' | ->]; [now left|].
        right. exists i. split; [now left | reflexivity].
      * right. exists id. split; [now right | reflexivity].
    + destruct (Hone x Hx) as [H' | ->]; [now left|].
      right. exists i. split; [now left | reflexivity].
Qed.

Lemma attach_tags_only (conn : Scope) (sid : string) (tag_list result : list string)
      (env : Env) (s s' : State) :
  attach_tags conn sid tag_list env s = (Return result, s') ->
  forall x, In x (sound_tags (db s')) ->
            In x (sound_tags (db s)) \/ links_listed_tag sid tag_list (db s') x.
Proof.
  unfold attach_tags. rewrite bind_run.
  pose proof (ensure_tags_sound_tags conn tag_list env s) as Hs1.
  destruct (ensure_tags conn tag_list env s) as [[ids|e] s1] eqn:Ee; [|discriminate].
  cbn [snd] in Hs1.
  destruct ids as [|i r].
  - intros H. inversion H; subst. intros x Hx. left. now rewrite <- Hs1.
  - rewrite bind_run.
    pose proof (link_tags_only conn sid (i :: r) env s1) as Honly.
    destruct (for_each (i :: r) _ env s1) as [[[]|e] s2] eqn:Ef; [|discriminate].
    intros H. inversion H; subst result s2.
    destruct (link_tags_run conn sid (i :: r) env s1 s' Ef) as [Ht _].
    intros x Hx. cbn [snd] in Honly.
    destruct (Honly x Hx) as [Hold | [id [Hid ->]]]; [left; now rewrite <- Hs1|].
    right. destruct (ensure_tags_ids_only conn tag_list env s s1 (i :: r) Ee id Hid)
      as [g [tag [H1 [H2 [H3 [H4 H5]]]]]].
    exists g, tag. rewrite Ht. subst id. auto.
Qed.

(** X20. Tags in the payload of [update_sound] replace the tags of the
    sound. When the handler returns: every link of the sound left in
    [sound_tags] is the link to the tag of one of the tags of the payload,
    or an earlier link that the policy did not let the caller delete;
    every tag of the payload that has a slug is linked to the sound; and the
    links of the other sounds are what they were. *)
Theorem update_sound_replaces_tags
        (sid : string) (payload : SoundUpdate) (raw : string) (current_user : AuthUser)
        (env : Env) (s s' : State) :
  update_tags payload = Some raw ->
  update_sound sid payload current_user env s = (Return true, s') ->
  let tag_list := normalize_tags (Some raw) in
  let t1 := sounds_updated env current_user sid payload (db s) in
  (forall x, In x (sound_tags (db s')) -> st_sound_id x = sid ->
             links_listed_tag sid tag_list (db s') x
             \/ (In x (sound_tags (db s))
                 /\ row_security env (user_scope current_user) DELETE t1 (SoundTagRow x)
                    = false))
  /\ (forall tag, In tag tag_list -> has_slug tag = true ->
                  exists g, In g (tags (db s')) /\ tag_slug g = slugify tag
                            /\ In (mkSoundTag sid (tag_id g)) (sound_tags (db s')))
  /\ (forall x, st_sound_id x <> sid ->
                (In x (sound_tags (db s)) <-> In x (sound_tags (db s')))).
Proof.
  intros Htags Hrun tag_list t1. subst tag_list t1.
  rewrite update_sound_run in Hrun. cbv zeta in Hrun.
  destruct (pool s) eqn:Hpool; [|discriminate].
  destruct (find _ (sounds (db s))); [|discriminate].
  rewrite Htags in Hrun.
  destruct (attach_tags _ sid _ env _) as [[res|e] s1] eqn:Ea; [|discriminate].
  inversion Hrun; subst s1. clear Hrun.
  pose proof (attach_tags_only _ _ _ _ _ _ _ Ea) as Honly.
  destruct (attach_tags_post _ _ _ _ _ _ _ Ea) as [Hkeep Hnew].
  cbn [db] in Honly, Hkeep.
  assert (Hleft : forall x,
             In x (sound_tags (links_deleted env current_user sid
                                 (sounds_updated env current_user sid payload (db s)))) <->
             In x (sound_tags (db s))
             /\ link_delete_hit env current_user sid
                  (sounds_updated env current_user sid payload (db s)) x = false).
  { intros x. unfold links_deleted, set_sound_tags. cbn [sound_tags].
    rewrite filter_In, negb_true_iff. unfold sounds_updated, set_sounds. cbn [sound_tags].
    reflexivity. }
  split; [|split].
  - intros x Hx Hid. destruct (Honly x Hx) as [Hold | Hlisted]; [right | now left].
    apply Hleft in Hold. destruct Hold as [Hin Hhit]. split; [exact Hin|].
    unfold link_delete_hit in Hhit. apply String.eqb_eq in Hid. now rewrite Hid in Hhit.
  - exact Hnew.
  - intros x Hne. split.
    + intros Hin. apply Hkeep, Hleft. split; [exact Hin|].
      unfold link_delete_hit. apply String.eqb_neq in Hne. now rewrite Hne.
    + intros Hx. destruct (Honly x Hx) as [Hold | [g [tag [-> _]]]].
      * now apply Hleft in Hold.
      * now contradiction Hne.
Qed.

Lemma update_sound_replaces_tags_witness :
  let s0 := snd (update_sound "A" (mkSoundUpdate None (Some "meme, loud") None) alice
                              example_env abc_state) in
  let s1 := snd (update_sound "A" (mkSoundUpdate None (Some " , ") None) alice
                              example_env s0) in
  map st_tag_id (sound_tags (db s0)) = [1; 2]
  /\ forall x, In x (sound_tags (db s1)) -> st_sound_id x = "A" -> False.
Proof.
  cbv zeta. split; [vm_compute; reflexivity|].
  intros x Hx Hid.
  assert (Hrun : update_sound "A" (mkSoundUpdate None (Some " , ") None) alice example_env
                   (snd (update_sound "A" (mkSoundUpdate None (Some "meme, loud") None) alice
                                      example_env abc_state))
                 = (Return true,
                    snd (update_sound "A" (mkSoundUpdate None (Some " , ") None) alice
                           example_env
                           (snd (update_sound "A" (mkSoundUpdate None (Some "meme, loud") None)
                                              alice example_env abc_state)))))
    by (vm_compute; reflexivity).
  destruct (update_sound_replaces_tags
              "A" (mkSoundUpdate None (Some " , ") None) " , " alice example_env _ _
              eq_refl Hrun) as [H _].
  cbv zeta in H. destruct (H x Hx Hid) as [[g [tag [_ [_ [Hin _]]]]] | [Hin Hno]].
  - vm_compute in Hin. exact Hin.
  - vm_compute in Hin. destruct Hin as [<- | [<- | []]]; vm_compute in Hno; discriminate Hno.
Defined.

(** ** Creating a sound *)

(** X21. When [create_sound] returns a sound: the name is the stripped
    [name] field or, when that is blank, the file's name, and it is not
    empty; the object is in the store under the sound's path; [sounds] has
    one more row, the last, with the returned id, the caller as owner, that
    name, that path, the size of the data and the returned privacy; the
    tags returned are the normalized tags and the URL is the one the store
    signed for the path. *)
Theorem create_sound_stores_and_inserts
        (file : UploadFile) (name description tag_text privacy : string)
        (current_user : AuthUser) (uuid4 : string) (env : Env) (s s' : State)
        (out : SoundOut) :
  create_sound file name description tag_text privacy current_user uuid4 env s
  = (Return out, s') ->
  let display_name := or_empty (create_sound_display_name file name) in
  let path := create_sound_storage_path file display_name current_user uuid4 in
  display_name <> ""
  /\ (out_id out = uuid4 /\ out_name out = display_name
      /\ out_privacy out = normalize_privacy (Some privacy)
      /\ out_tags out = normalize_tags (Some tag_text)
      /\ out_owner_id out = Some (user_id current_user)
      /\ storage_signed_url env path = inr (out_url out))
  /\ bucket s' = (path, (file_data file, upload_content_type (file_content_type file)))
                   :: bucket s
  /\ exists row,
       sounds (db s') = sounds (db s) ++ [row]
       /\ sound_id row = uuid4
       /\ sound_owner_id row = Some (user_id current_user)
       /\ sound_name row = display_name
       /\ sound_storage_path row = path
       /\ sound_size_bytes row = String.length (file_data file)
       /\ sound_privacy row = out_privacy out.
Proof.
  intros Hrun display_name path. unfold create_sound in Hrun.
  fold display_name in Hrun.
  destruct (PyStr.truthy (create_sound_display_name file name)) eqn:Ht;
    cbn [negb] in Hrun; [|discriminate].
  fold path in Hrun. rewrite bind_run in Hrun.
  unfold except_StorageException, upload_bytes in Hrun.
  destruct (storage_upload_error env path (file_data file) _); [discriminate|].
  rewrite bind_run in Hrun. unfold get_db in Hrun. rewrite bind_run in Hrun.
  unfold pool_guard in Hrun. cbn [pool] in Hrun.
  destruct (pool s) eqn:Hpool; [|discriminate].
  unfold bind at 1 2 in Hrun. unfold get_tables, allowed in Hrun. cbn [fst snd db] in Hrun.
  destruct (row_security env _ INSERT (db s) _); cbn [negb] in Hrun; [|discriminate].
  unfold bind at 1 in Hrun. unfold put_tables at 1 in Hrun. cbn [fst snd db bucket pool] in Hrun.
  match type of Hrun with
  | context [attach_tags ?c ?i ?l env ?st] =>
      pose proof (attach_tags_sounds c i l env st) as Hsounds;
      pose proof (database_only_attach_tags c i l env st) as [Hbucket _];
      destruct (attach_tags c i l env st) as [[res|e] s1]; [|discriminate]
  end.
  cbn [snd db bucket] in Hsounds, Hbucket.
  rewrite bind_run in Hrun. unfold create_signed_url in Hrun.
  destruct (storage_signed_url env path) as [args|url] eqn:Hurl; [discriminate|].
  rewrite bind_run in Hrun.
  pose proof (reads_only_fetch_profiles [user_id current_user] env s1) as Hreads.
  pose proof (database_only_fetch_profiles [user_id current_user] env s1) as [Hb2 _].
  destruct (fetch_profiles [user_id current_user] env s1) as [[pm|e] s2]; [|discriminate].
  cbn [snd] in Hreads, Hb2. unfold ret in Hrun. inversion Hrun; subst out s2. clear Hrun.
  cbn [out_id out_name out_privacy out_tags out_owner_id out_url].
  split.
  { subst display_name. destruct (create_sound_display_name file name) as [[|c d]|];
      simpl in *; congruence. }
  split; [repeat split; reflexivity|].
  split; [rewrite Hb2, Hbucket; reflexivity|].
  eexists. rewrite Hreads, Hsounds. unfold set_sounds. cbn [sounds].
  split; [reflexivity|]. cbn. repeat split; reflexivity.
Qed.

Lemma create_sound_stores_and_inserts_witness :
  let r := create_sound clip "  " "" "meme, LOUD" "Private " alice "S1" example_env abc_state in
  bucket (snd r) = [("a11ce000-0000-4000-8000-000000000001/S1/air-horn.mp3",
                     ("ID3-bytes", "audio/mpeg"))]
  /\ exists row, sounds (db (snd r)) = sounds abc_tables ++ [row]
                 /\ sound_name row = "air horn.mp3" /\ sound_privacy row = "link_only".
Proof.
  cbv zeta.
  assert (Hrun : create_sound clip "  " "" "meme, LOUD" "Private " alice "S1" example_env
                              abc_state
                 = (Return (mkSoundOut "S1" "air horn.mp3"
                              "https://storage.example.org/sign/a11ce000-0000-4000-8000-000000000001/S1/air-horn.mp3"
                              ["meme"; "LOUD"] "link_only" None None
                              (Some "a11ce000-0000-4000-8000-000000000001")
                              (Some (mkProfile (user_id alice) (Some "alice-liddell-a11ce0")
                                               (Some "Alice") None))),
                    snd (create_sound clip "  " "" "meme, LOUD" "Private " alice "S1"
                                      example_env abc_state)))
    by (vm_compute; reflexivity).
  destruct (create_sound_stores_and_inserts _ _ _ _ _ _ _ _ _ _ _ Hrun)
    as (_ & _ & Hb & row & Hrows & _ & _ & Hname & _ & _ & Hpriv).
  split; [exact Hb|]. exists row. split; [exact Hrows|]. split; [exact Hname | exact Hpriv].
Defined.

(** ** Profiles of authenticated callers *)

Lemma upsert_profile_run (sc : Scope) (row : Profile) (env : Env) (s : State) :
  let t := db s in
  let hit := fun p => profile_id p =? profile_id row in
  upsert_profile sc row env s
  = match find hit (profiles t) with
    | Some old =>
        if row_security env sc UPDATE t (ProfileRow old)
        then (Return tt,
              mkState (set_profiles t (map (fun p => if hit p then merge_profile p row else p)
                                           (profiles t)))
                      (bucket s) (pool s))
        else (Raise rls_violation, s)
    | None =>
        if row_security env sc INSERT t (ProfileRow row)
        then (Return tt, mkState (set_profiles t (profiles t ++ [row])) (bucket s) (pool s))
        else (Raise rls_violation, s)
    end.
Proof.
  cbv zeta. unfold upsert_profile, bind, get_tables, allowed, put_tables, raise.
  cbn [fst snd]. destruct (find _ (profiles (db s))) as [old|]; cbn [fst snd].
  - destruct (row_security env sc UPDATE (db s) (ProfileRow old)); reflexivity.
  - destruct (row_security env sc INSERT (db s) (ProfileRow row)); reflexivity.
Qed.

Lemma find_map_same_hit {A} (hit : A -> bool) (f : A -> A) (l : list A) :
  (forall x, hit (f x) = hit x) ->
  find hit (map f l) = option_map f (find hit l).
Proof.
  intros H. induction l as [|x r IH]; simpl; [reflexivity|].
  rewrite H. destruct (hit x); [reflexivity | exact IH].
Qed.

Lemma merge_profile_twice (p row : Profile) :
  merge_profile (merge_profile p row) row = merge_profile p row.
Proof.
  unfold merge_profile. cbn [profile_id profile_handle profile_display_name profile_avatar_url].
  f_equal.
  - destruct (profile_handle p), (profile_handle row); reflexivity.
  - destruct (profile_display_name p) as [[|c d]|]; cbn;
      destruct (profile_display_name row) as [[|c' d']|]; reflexivity.
  - destruct (profile_avatar_url p) as [[|c d]|]; cbn;
      destruct (profile_avatar_url row) as [[|c' d']|]; reflexivity.
Qed.

Lemma merge_profile_self (row : Profile) : merge_profile row row = row.
Proof.
  destruct row as [i h d a]. unfold merge_profile. cbn. f_equal.
  - destruct h; reflexivity.
  - destruct d as [[|c r]|]; reflexivity.
  - destruct a as [[|c r]|]; reflexivity.
Qed.

Lemma set_profiles_same (t : Tables) : set_profiles t (profiles t) = t.
Proof. now destruct t. Qed.

Lemma upsert_profile_twice (sc : Scope) (row : Profile) (env : Env) (s : State) :
  snd (upsert_profile sc row env (snd (upsert_profile sc row env s)))
  = snd (upsert_profile sc row env s).
Proof.
  rewrite (upsert_profile_run sc row env s). cbv zeta.
  set (hit := fun p => profile_id p =? profile_id row).
  set (f := fun p => if hit p then merge_profile p row else p).
  assert (Hhit : forall x, hit (f x) = hit x).
  { intros x. unfold f, hit. destruct (profile_id x =? profile_id row) eqn:E; [|exact E].
    unfold merge_profile. cbn [profile_id]. exact E. }
  assert (Hff : forall l, map f (map f l) = map f l).
  { intros l. rewrite map_map. apply map_ext. intros x.
    pose proof (Hhit x) as Hx. unfold f in *.
    destruct (hit x) eqn:E; rewrite Hx; [apply merge_profile_twice | reflexivity]. }
  destruct (find hit (profiles (db s))) as [old|] eqn:Hfind.
  - destruct (row_security env sc UPDATE (db s) (ProfileRow old)) eqn:Hup; cbn [snd].
    + rewrite upsert_profile_run. cbv zeta. fold hit. cbn [db bucket pool].
      unfold set_profiles at 1 2. cbn [profiles].
      rewrite (find_map_same_hit hit f _ Hhit), Hfind. cbn [option_map].
      destruct (row_security env sc UPDATE _ (ProfileRow (f old))); [|reflexivity].
      cbn [snd]. unfold set_profiles. cbn.
      change (fun p : Profile => if profile_id p =? profile_id row
                                 then merge_profile p row else p) with f.
      now rewrite Hff.
    + rewrite upsert_profile_run. cbv zeta. fold hit. rewrite Hfind, Hup. reflexivity.
  - destruct (row_security env sc INSERT (db s) (ProfileRow row)) eqn:Hin; cbn [snd].
    + rewrite upsert_profile_run. cbv zeta. fold hit. cbn [db bucket pool].
      unfold set_profiles at 1 2. cbn [profiles].
      assert (Hrow : hit row = true) by (unfold hit; apply String.eqb_refl).
      assert (Hf2 : find hit (profiles (db s) ++ [row]) = Some row).
      { clear -Hfind Hrow. induction (profiles (db s)) as [|x r IH]; simpl in *.
        - now rewrite Hrow.
        - destruct (hit x); [discriminate | now apply IH]. }
      rewrite Hf2.
      destruct (row_security env sc UPDATE _ (ProfileRow row)); [|reflexivity].
      cbn [snd]. unfold set_profiles. cbn.
      change (fun p : Profile => if profile_id p =? profile_id row
                                 then merge_profile p row else p) with f.
      rewrite map_app. cbn [map]. unfold f at 2. rewrite Hrow, merge_profile_self.
      unfold f. now rewrite (map_no_hit hit _ _ Hfind).
    + rewrite upsert_profile_run. cbv zeta. fold hit. rewrite Hfind, Hin. reflexivity.
Qed.

Lemma database_only_upsert_profile (sc : Scope) (row : Profile) :
  database_only (upsert_profile sc row).
Proof.
  intros env s. rewrite upsert_profile_run. cbv zeta.
  destruct (find _ _); destruct (row_security _ _ _ _ _); cbn; auto.
Qed.

Lemma ensure_profile_run (uid : string) (payload : Claims) (env : Env) (s : State) :
  ensure_profile uid payload env s
  = if pool s
    then upsert_profile ServiceScope
           (mkProfile uid (Some (ensure_profile_handle uid payload))
                      (ensure_profile_display_name payload)
                      (ensure_profile_avatar_url payload))
           env s
    else (Raise pool_error, s).
Proof.
  unfold ensure_profile, get_service_db. rewrite bind_run. unfold pool_guard.
  destruct (pool s); reflexivity.
Qed.

Lemma ensure_profile_twice (uid : string) (payload : Claims) (env : Env) (s : State) :
  snd (ensure_profile uid payload env (snd (ensure_profile uid payload env s)))
  = snd (ensure_profile uid payload env s).
Proof.
  rewrite (ensure_profile_run uid payload env s).
  destruct (pool s) eqn:Hpool; [|cbn [snd]; now rewrite ensure_profile_run, Hpool].
  rewrite ensure_profile_run.
  match goal with
  | |- context [upsert_profile ?sc ?row env s] =>
      pose proof (upsert_profile_twice sc row env s) as H;
      pose proof (database_only_upsert_profile sc row env s) as [_ Hp]
  end.
  rewrite Hp, Hpool. exact H.
Qed.

Lemma authentication_state (credentials : option string) (env : Env) (s : State) :
  (snd (get_current_user credentials env s) = s
   /\ snd (get_optional_user credentials env s) = s)
  \/ exists uid payload,
       snd (get_current_user credentials env s) = snd (ensure_profile uid payload env s)
       /\ snd (get_optional_user credentials env s) = snd (ensure_profile uid payload env s)
       /\ forall s0, snd (get_current_user credentials env s0)
                     = snd (ensure_profile uid payload env s0)
                     /\ snd (get_optional_user credentials env s0)
                        = snd (ensure_profile uid payload env s0).
Proof.
  destruct credentials as [token|]; [|left; split; reflexivity].
  unfold get_current_user, get_optional_user. rewrite !bind_run.
  destruct (fst (decode_token token env s)) as [payload|e] eqn:Hd.
  - rewrite (decode_token_returns token env s payload Hd).
    destruct (PyStr.truthy (claim_sub payload)) eqn:Ht; cbn [negb];
      [|left; split; reflexivity].
    right. exists (or_empty (claim_sub payload)), payload.
    assert (Hany : forall s0,
               snd ((payload0 <- decode_token token ;;
                     (if negb (PyStr.truthy (claim_sub payload0))
                      then raise (unauthorized "Invalid token.")
                      else ensure_profile (or_empty (claim_sub payload0)) payload0 ;;;
                           ret (mkAuthUser (or_empty (claim_sub payload0))
                                           (role_or_default payload0)))) env s0)
               = snd (ensure_profile (or_empty (claim_sub payload)) payload env s0)
               /\ snd ((payload0 <- decode_token token ;;
                        (if negb (PyStr.truthy (claim_sub payload0))
                         then ret None
                         else ensure_profile (or_empty (claim_sub payload0)) payload0 ;;;
                              ret (Some (mkAuthUser (or_empty (claim_sub payload0))
                                                    (role_or_default payload0))))) env s0)
                  = snd (ensure_profile (or_empty (claim_sub payload)) payload env s0)).
    { intros s0. rewrite !bind_run.
      assert (Hd0 : decode_token token env s0 = (Return payload, s0)).
      { unfold decode_token in *.
        match goal with
        | |- context [match ?r with inl e => _ | inr c => _ end] =>
            destruct r as [e|c]; [discriminate Hd|]
        end. cbn in Hd. inversion Hd. reflexivity. }
      rewrite Hd0, Ht. cbn [negb]. rewrite !bind_run.
      destruct (ensure_profile _ payload env s0) as [[[]|e] s1]; split; reflexivity. }
    split; [|split].
    + rewrite bind_run.
      destruct (ensure_profile _ payload env s) as [[[]|e] s1]; reflexivity.
    + rewrite bind_run.
      destruct (ensure_profile _ payload env s) as [[[]|e] s1]; reflexivity.
    + intros s0. destruct (Hany s0) as [H1 H2].
      unfold get_current_user, get_optional_user. split; [exact H1 | exact H2].
  - rewrite (decode_token_raises token env s e Hd). left. split; reflexivity.
Qed.

(** X22. Authenticating twice is authenticating once: a second run of
    [ensure_profile], [get_current_user] or [get_optional_user] with the same
    arguments, right after the first, leaves the state the first has left. *)
Theorem reauthentication_is_idempotent
        (uid : string) (payload : Claims) (credentials : option string)
        (env : Env) (s : State) :
  snd (ensure_profile uid payload env (snd (ensure_profile uid payload env s)))
  = snd (ensure_profile uid payload env s)
  /\ snd (get_current_user credentials env (snd (get_current_user credentials env s)))
     = snd (get_current_user credentials env s)
  /\ snd (get_optional_user credentials env (snd (get_optional_user credentials env s)))
     = snd (get_optional_user credentials env s).
Proof.
  split; [apply ensure_profile_twice|].
  destruct (authentication_state credentials env s)
    as [[Hc Ho] | [uid' [payload' [Hc [Ho Hany]]]]].
  - rewrite Hc, Ho. split; assumption.
  - rewrite Hc, Ho.
    destruct (Hany (snd (ensure_profile uid' payload' env s))) as [Hc' Ho'].
    rewrite Hc', Ho'. split; apply ensure_profile_twice.
Qed.

Lemma ensure_profile_row (uid : string) (payload : Claims) (env : Env) (s s' : State) :
  ensure_profile uid payload env s = (Return tt, s') ->
  (exists p, In p (profiles (db s')) /\ profile_id p = uid /\ profile_handle p <> None)
  /\ db s' = set_profiles (db s) (profiles (db s'))
  /\ length (profiles (db s')) <= S (length (profiles (db s))).
Proof.
  rewrite ensure_profile_run. destruct (pool s); [|discriminate].
  rewrite upsert_profile_run. cbv zeta.
  destruct (find _ (profiles (db s))) as [old|] eqn:Hfind.
  - destruct (row_security env _ UPDATE (db s) _); [|discriminate].
    intros H. inversion H; subst s'. clear H. cbn [db].
    unfold set_profiles. cbn [profiles].
    apply find_some in Hfind. destruct Hfind as [Hin Hid]. cbn [profile_id] in Hid.
    split; [|split; [reflexivity | rewrite length_map; auto]].
    exists (merge_profile old (mkProfile uid (Some (ensure_profile_handle uid payload))
                                         (ensure_profile_display_name payload)
                                         (ensure_profile_avatar_url payload))).
    split.
    + apply in_map_iff. exists old. cbn [profile_id]. rewrite Hid. auto.
    + unfold merge_profile. cbn. apply String.eqb_eq in Hid.
      split; [exact Hid|]. destruct (profile_handle old); discriminate.
  - destruct (row_security env _ INSERT (db s) _); [|discriminate].
    intros H. inversion H; subst s'. clear H. cbn [db].
    unfold set_profiles. cbn [profiles].
    split; [|split; [reflexivity | rewrite length_app; simpl; lia]].
    eexists. split; [apply in_or_app; right; left; reflexivity|].
    cbn. split; [reflexivity | discriminate].
Qed.

(** X23. A caller that [get_current_user] or [get_optional_user] returns has
    a non-empty id, the subject of the decoded token, and as role what
    [payload.get("role", "authenticated")] gives: the text of the claim,
    "authenticated" when the token has no such claim, and [None] when the
    claim is null. A profile with that id and a handle is in [profiles]
    when the handler starts. Authentication adds at most one profile and
    touches no other table. *)
Theorem authenticated_caller_has_profile
        (credentials : option string) (env : Env) (s s' : State) (u : AuthUser) :
  get_current_user credentials env s = (Return u, s')
  \/ get_optional_user credentials env s = (Return (Some u), s') ->
  user_id u <> ""
  /\ (exists token payload,
         credentials = Some token
         /\ decode_token token env s = (Return payload, s)
         /\ claim_sub payload = Some (user_id u)
         /\ user_role u = match claim_role payload with
                          | RoleAbsent => Some "authenticated"
                          | RoleNull => None
                          | RoleText r => Some r
                          end)
  /\ (exists p, In p (profiles (db s')) /\ profile_id p = user_id u
                /\ profile_handle p <> None)
  /\ db s' = set_profiles (db s) (profiles (db s'))
  /\ length (profiles (db s')) <= S (length (profiles (db s))).
Proof.
  intros Hrun.
  assert (H : exists token payload,
             credentials = Some token
             /\ decode_token token env s = (Return payload, s)
             /\ PyStr.truthy (claim_sub payload) = true
             /\ ensure_profile (or_empty (claim_sub payload)) payload env s = (Return tt, s')
             /\ u = mkAuthUser (or_empty (claim_sub payload)) (role_or_default payload)).
  { destruct credentials as [token|]; [|destruct Hrun as [Hrun|Hrun]; discriminate Hrun].
    exists token.
    unfold get_current_user, get_optional_user in Hrun. rewrite !bind_run in Hrun.
    destruct (fst (decode_token token env s)) as [payload|e] eqn:Hd.
    - rewrite (decode_token_returns token env s payload Hd) in Hrun.
      exists payload. split; [reflexivity|].
      split; [apply decode_token_returns; exact Hd|].
      destruct (PyStr.truthy (claim_sub payload)); cbn [negb] in Hrun;
        [|destruct Hrun as [Hrun|Hrun]; discriminate Hrun].
      split; [reflexivity|]. rewrite !bind_run in Hrun.
      destruct (ensure_profile _ payload env s) as [[[]|e] s1];
        destruct Hrun as [Hrun|Hrun]; try discriminate Hrun;
        unfold ret in Hrun; inversion Hrun; subst; split; reflexivity.
    - rewrite (decode_token_raises token env s e Hd) in Hrun.
      destruct Hrun as [Hrun|Hrun]; discriminate Hrun. }
  destruct H as [token [payload [Hc [Hd [Ht [He Hu]]]]]]. subst u. cbn [user_id user_role].
  assert (Hsub : claim_sub payload = Some (or_empty (claim_sub payload))
                 /\ or_empty (claim_sub payload) <> "").
  { destruct (claim_sub payload) as [[|c r]|]; try discriminate Ht.
    split; [reflexivity | discriminate]. }
  split; [apply Hsub|].
  split; [exists token, payload; repeat split; auto; apply Hsub|].
  apply (ensure_profile_row _ _ _ _ _ He).
Qed.

Lemma authenticated_caller_has_profile_witness :
  let r := get_current_user (Some "alice.jwt") example_env empty_state in
  fst r = Return alice
  /\ exists p, In p (profiles (db (snd r))) /\ profile_id p = user_id alice
               /\ profile_handle p <> None.
Proof.
  cbv zeta.
  assert (Hrun : get_current_user (Some "alice.jwt") example_env empty_state
                 = (Return alice,
                    snd (get_current_user (Some "alice.jwt") example_env empty_state)))
    by (vm_compute; reflexivity).
  split; [now rewrite Hrun|].
  apply (authenticated_caller_has_profile (Some "alice.jwt") example_env empty_state _ alice
           (or_introl Hrun)).
Defined.

(** ** The context the handler's statements run under *)

(** X24. [db.py] opens no transaction block, so every statement on the
    handle is a transaction of its own and what [get_db] binds ends with the
    statement that binds it. The queries a handler sends on the handle are
    not evaluated under the caller's context: row security is what the
    connection had (the SET LOCAL changes nothing), and subject and role are
    what the session holds, the empty text where it holds nothing. It is
    the same for every caller. On the service handle row security is not
    turned off either. *)
Theorem binding_ends_with_statement
        (user_id role other_id other_role : option string) (queries : list string)
        (c : Pg.connection) :
  Pg.block c = None ->
  let seen := Pg.observations (map Pg.Other queries) (Pg.run (Pg.get_db user_id role) c) in
  let session_value name := match Pg.current_setting name c with
                            | Some v => v
                            | None => ""
                            end in
  seen = map (fun _ => Pg.mkContext (Pg.current_setting "row_security" c)
                                    (Some (session_value Pg.sub_name))
                                    (Some (session_value Pg.role_name)))
             queries
  /\ seen = Pg.observations (map Pg.Other queries) (Pg.run (Pg.get_db other_id other_role) c)
  /\ Pg.observations (map Pg.Other queries) (Pg.run Pg.get_service_db c)
     = map (fun _ => Pg.context_of c) queries.
Proof.
  intros Hb seen session_value. subst seen.
  rewrite !(get_db_idle _ _ c Hb).
  assert (Hq : forall c0, Pg.observations (map Pg.Other queries) c0
                          = map (fun _ => Pg.context_of c0) queries).
  { intros c0. induction queries as [|q r IH]; simpl; [reflexivity|].
    rewrite execute_query. now rewrite IH. }
  split; [|split; [reflexivity|]].
  - rewrite Hq. apply map_ext. intros _. unfold Pg.context_of.
    rewrite !(current_setting_claims_defined _ c Hb). subst session_value. cbv beta.
    f_equal.
    + destruct (Pg.current_setting "row_security" c); reflexivity.
    + destruct (Pg.current_setting Pg.sub_name c); reflexivity.
    + destruct (Pg.current_setting Pg.role_name c); reflexivity.
  - assert (Es : Pg.run Pg.get_service_db c = c).
    { destruct c as [sess b]. cbn [Pg.block] in Hb. subst b. reflexivity. }
    rewrite Es. apply Hq.
Qed.

Lemma binding_ends_with_statement_witness :
  let c := Pg.mkConnection [("row_security", "off")] None in
  Pg.observations (map Pg.Other ["select id from playlists"])
                  (Pg.run (Pg.get_db (Some (user_id alice)) (Some "authenticated")) c)
  = [Pg.mkContext (Some "off") (Some "") (Some "")].
Proof.
  intros c.
  pose proof (binding_ends_with_statement
                (Some (user_id alice)) (Some "authenticated") None None
                ["select id from playlists"] c eq_refl) as H.
  cbv zeta in H. destruct H as [H _]. exact H.
Defined.

(** ** The order of the sounds of a playlist *)

Lemma select_playlist_sounds_run (sc : Scope) (pid : string) (env : Env) (s : State) :
  select_playlist_sounds sc pid env s
  = (Return (map snd (order_rows (playlist_join env sc (db s) pid))), s).
Proof. reflexivity. Qed.

Lemma row_le_trans (a b c : PlaylistSound * SoundTagsRow) :
  row_le a b = true -> row_le b c = true -> row_le a c = true.
Proof.
  unfold row_le, ordered_before, position_eq.
  destruct (ps_position (fst a)) as [x|], (ps_position (fst b)) as [y|],
    (ps_position (fst c)) as [z|];
    destruct (sound_created_at (fst (snd a))) as [u|],
      (sound_created_at (fst (snd b))) as [v|],
      (sound_created_at (fst (snd c))) as [w|]; simpl;
    repeat match goal with
           | |- context [(?p <? ?q)%Z] => destruct (Z.ltb_spec p q)
           | |- context [(?p <? ?q)%nat] => destruct (Nat.ltb_spec p q)
           end; simpl; try reflexivity; try discriminate; intros; try lia.
Qed.

Lemma row_le_total (a b : PlaylistSound * SoundTagsRow) :
  row_le a b = false -> row_le b a = true.
Proof.
  unfold row_le. destruct (ordered_before a b), (ordered_before b a); simpl; congruence.
Qed.

Lemma insert_ordered_perm (x : PlaylistSound * SoundTagsRow) (l : list _) :
  Permutation (insert_ordered x l) (x :: l).
Proof.
  induction l as [|y r IH]; simpl; [reflexivity|].
  destruct (ordered_before y x || negb (ordered_before x y)); [|reflexivity].
  rewrite IH. apply perm_swap.
Qed.

Lemma order_rows_perm (l : list (PlaylistSound * SoundTagsRow)) :
  Permutation (order_rows l) l.
Proof.
  unfold order_rows.
  assert (H : forall acc, Permutation (fold_left (fun acc x => insert_ordered x acc) l acc)
                                      (l ++ acc)).
  { induction l as [|x r IH]; intros acc; simpl; [reflexivity|].
    rewrite IH, insert_ordered_perm. symmetry. apply Permutation_middle. }
  rewrite H. now rewrite app_nil_r.
Qed.

Lemma insert_ordered_sorted (x : PlaylistSound * SoundTagsRow) (l : list _) :
  StronglySorted (fun a b => row_le a b = true) l ->
  StronglySorted (fun a b => row_le a b = true) (insert_ordered x l).
Proof.
  induction l as [|y r IH]; intros Hs; simpl.
  - constructor; constructor.
  - inversion Hs as [|y' r' Hr Hy]; subst.
    fold (row_le y x). destruct (row_le y x) eqn:E.
    + constructor; [apply IH; exact Hr|].
      eapply Permutation_Forall; [symmetry; apply insert_ordered_perm|].
      constructor; assumption.
    + apply row_le_total in E. constructor; [exact Hs|].
      constructor; [exact E|].
      eapply Forall_impl; [|exact Hy]. intros z Hz. cbv beta in *.
      eapply row_le_trans; eassumption.
Qed.

Lemma order_rows_sorted (l : list (PlaylistSound * SoundTagsRow)) :
  StronglySorted (fun a b => row_le a b = true) (order_rows l).
Proof.
  unfold order_rows.
  assert (H : forall acc, StronglySorted (fun a b => row_le a b = true) acc ->
                          StronglySorted (fun a b => row_le a b = true)
                                         (fold_left (fun acc x => insert_ordered x acc) l acc)).
  { induction l as [|x r IH]; intros acc Ha; simpl; [exact Ha|].
    apply IH, insert_ordered_sorted, Ha. }
  apply H. constructor.
Qed.

Lemma sign_rows_ids (rows : list SoundTagsRow) (profile_map : list Profile) (env : Env) :
  forall (s s' : State) (outs : list SoundOut),
    sign_rows rows profile_map env s = (Return outs, s') ->
    map out_id outs = map (fun row => sound_id (fst row)) rows.
Proof.
  induction rows as [|row rest IH]; intros s s' outs H; simpl in H.
  - inversion H. reflexivity.
  - rewrite bind_run in H. unfold create_signed_url in H.
    destruct (storage_signed_url env (sound_storage_path (fst row))); [discriminate|].
    rewrite bind_run in H.
    destruct (sign_rows rest profile_map env s) as [[outs'|e] s1] eqn:E; [|discriminate].
    unfold ret in H. inversion H; subst. simpl. f_equal. eapply IH; exact E.
Qed.

Lemma get_playlist_run (pid : string) (current_user : option AuthUser)
      (env : Env) (s : State) :
  pool s = true ->
  let sc := viewer_scope current_user in
  let rows := map snd (order_rows (playlist_join env sc (db s) pid)) in
  match find (playlist_seen env current_user pid (db s)) (playlists (db s)) with
  | None => get_playlist pid current_user env s = (Raise (not_found "Playlist not found."), s)
  | Some p =>
      exists pm,
        get_playlist pid current_user env s
        = match sign_rows rows pm env s with
          | (Return outs, s') =>
              (Return (mkPlaylistDetail
                         (mkPlaylistOut (playlist_id p) (playlist_owner_id p) (playlist_name p)
                                        (playlist_description p) (playlist_privacy p)
                                        (playlist_created_at p) (length outs) None
                                        (dict_get (playlist_owner_id p) pm))
                         outs), s')
          | (Raise e, s') => (Raise e, s')
          end
  end.
Proof.
  intros Hpool sc rows. subst sc rows.
  unfold get_playlist, playlist_seen, viewer_scope, get_db, pool_guard, bind, get_tables, ask.
  rewrite Hpool. cbv beta iota zeta.
  destruct (find _ (playlists (db s))) as [p|]; [|reflexivity].
  rewrite select_playlist_sounds_run.
  unfold ret. cbv beta iota zeta. cbn [fst snd].
  match goal with
  | |- context [fetch_profiles ?ids env s] =>
      destruct (fetch_profiles_reads ids env s Hpool) as [pm ->]
  end.
  exists pm. reflexivity.
Qed.

Lemma get_playlist_share_rows (token : string) (env : Env) (s : State) (p : Playlist) :
  pool s = true ->
  find (share_link_row env ServiceScope (Sha256.hexdigest token) (db s)) (playlists (db s))
  = Some p ->
  let rows := map snd (order_rows (playlist_join env ServiceScope (db s) (playlist_id p))) in
  exists pm,
    get_playlist_share token env s
    = match sign_rows rows pm env s with
      | (Return outs, s') =>
          (Return (mkPlaylistDetail
                     (mkPlaylistOut (playlist_id p) (playlist_owner_id p) (playlist_name p)
                                    (playlist_description p) (playlist_privacy p)
                                    (playlist_created_at p) (length outs) None
                                    (dict_get (playlist_owner_id p) pm))
                     outs), s')
      | (Raise e, s') => (Raise e, s')
      end.
Proof.
  intros Hpool Ef rows. subst rows.
  unfold get_playlist_share, get_service_db, pool_guard, bind, get_tables, ask.
  rewrite Hpool. cbv beta iota zeta. rewrite Ef.
  rewrite select_playlist_sounds_run.
  unfold ret. cbv beta iota zeta. cbn [fst snd].
  match goal with
  | |- context [fetch_profiles ?ids env s] =>
      destruct (fetch_profiles_reads ids env s Hpool) as [pm ->]
  end.
  exists pm. reflexivity.
Qed.

(** The sounds of a detail are those of the sorted join. *)
Lemma detail_of_sorted_join (env : Env) (sc : Scope) (s s' : State) (pid : string)
      (pm : list Profile) (p : Playlist) (detail : PlaylistDetail) :
  match sign_rows (map snd (order_rows (playlist_join env sc (db s) pid))) pm env s with
  | (Return outs, s1) =>
      (Return (mkPlaylistDetail
                 (mkPlaylistOut (playlist_id p) (playlist_owner_id p) (playlist_name p)
                                (playlist_description p) (playlist_privacy p)
                                (playlist_created_at p) (length outs) None
                                (dict_get (playlist_owner_id p) pm))
                 outs), s1)
  | (Raise e, s1) => (Raise e, s1)
  end = (Return detail, s') ->
  s' = s
  /\ pout_id (detail_playlist detail) = playlist_id p
  /\ exists rows,
       Permutation rows (playlist_join env sc (db s) pid)
       /\ StronglySorted (fun a b => row_le a b = true) rows
       /\ map out_id (detail_sounds detail) = map (fun r => sound_id (fst (snd r))) rows
       /\ pout_sound_count (detail_playlist detail) = length rows.
Proof.
  intros H.
  destruct (sign_rows_reads (map snd (order_rows (playlist_join env sc (db s) pid))) pm env s)
    as [[outs [E L]]|[args E]]; rewrite E in H; [|discriminate].
  inversion H; subst s' detail. clear H.
  split; [reflexivity|]. split; [reflexivity|].
  exists (order_rows (playlist_join env sc (db s) pid)).
  split; [apply order_rows_perm|]. split; [apply order_rows_sorted|].
  cbn [detail_sounds detail_playlist pout_sound_count].
  split.
  - rewrite (sign_rows_ids _ _ _ _ _ _ E), map_map. reflexivity.
  - rewrite L. apply length_map.
Qed.

(** X25. The detail that [get_playlist] or [get_playlist_share] returns
    lists the sounds of the playlist in the order of the query: it is the
    join of the visible memberships with their visible sounds, each row once,
    by ascending position with the rows without a position last and, at the
    same position, the sound created last first; the sound count is the
    number of these rows. Neither handler changes the state. *)
Theorem playlist_detail_in_position_order
        (pid token : string) (current_user : option AuthUser) (env : Env) (s s' : State)
        (detail : PlaylistDetail) :
  (get_playlist pid current_user env s = (Return detail, s') ->
   s' = s /\ pout_id (detail_playlist detail) = pid
   /\ detail_in_order env (viewer_scope current_user) (db s) detail)
  /\ (get_playlist_share token env s = (Return detail, s') ->
      s' = s /\ detail_in_order env ServiceScope (db s) detail).
Proof.
  split; intros Hrun.
  - destruct (pool s) eqn:Hpool.
    2:{ unfold get_playlist, get_db in Hrun. rewrite !bind_run in Hrun.
        unfold pool_guard in Hrun. rewrite Hpool in Hrun. discriminate Hrun. }
    pose proof (get_playlist_run pid current_user env s Hpool) as Hr. cbv zeta in Hr.
    destruct (find _ (playlists (db s))) as [p|] eqn:Hfind;
      [|rewrite Hr in Hrun; discriminate Hrun].
    destruct Hr as [pm Hr]. rewrite Hr in Hrun.
    apply find_some in Hfind. destruct Hfind as [_ Hseen].
    unfold playlist_seen in Hseen. apply andb_prop in Hseen. destruct Hseen as [Hid _].
    apply String.eqb_eq in Hid.
    destruct (detail_of_sorted_join _ _ _ _ _ _ _ _ Hrun) as [Hs [Hp Hrows]].
    split; [exact Hs|]. split; [congruence|].
    unfold detail_in_order. rewrite Hp, Hid. exact Hrows.
  - destruct (pool s) eqn:Hpool.
    2:{ unfold get_playlist_share, get_service_db in Hrun. rewrite !bind_run in Hrun.
        unfold pool_guard in Hrun. rewrite Hpool in Hrun. discriminate Hrun. }
    pose proof (get_playlist_share_run token env s Hpool) as Hnone.
    destruct (find _ (playlists (db s))) as [p|] eqn:Hfind;
      [|rewrite Hnone in Hrun; discriminate Hrun].
    destruct (get_playlist_share_rows token env s p Hpool Hfind) as [pm Hr].
    rewrite Hr in Hrun.
    destruct (detail_of_sorted_join _ _ _ _ _ _ _ _ Hrun) as [Hs [Hp Hrows]].
    split; [exact Hs|]. unfold detail_in_order. rewrite Hp. exact Hrows.
Qed.

Lemma playlist_detail_in_position_order_witness :
  let s1 := snd (reorder_playlist_sounds "P" ["C"; "A"; "B"] alice example_env abc_state) in
  exists detail,
    get_playlist "P" (Some alice) example_env s1 = (Return detail, s1)
    /\ map out_id (detail_sounds detail) = ["C"; "A"; "B"]
    /\ detail_in_order example_env (viewer_scope (Some alice)) (db s1) detail.
Proof.
  cbv zeta.
  assert (Hrun : exists detail,
             get_playlist "P" (Some alice) example_env
                          (snd (reorder_playlist_sounds "P" ["C"; "A"; "B"] alice example_env
                                                        abc_state))
             = (Return detail,
                snd (reorder_playlist_sounds "P" ["C"; "A"; "B"] alice example_env abc_state))
             /\ map out_id (detail_sounds detail) = ["C"; "A"; "B"]).
  { eexists. split; vm_compute; reflexivity. }
  destruct Hrun as [detail [Hrun Hids]].
  exists detail. split; [exact Hrun|]. split; [exact Hids|].
  apply (proj1 (playlist_detail_in_position_order "P" "" (Some alice) example_env _ _ detail)
               Hrun).
Defined.

(** ** Reordering, then reading *)

Lemma reorder_playlist_sounds_run (pid : string) (sound_ids : list string)
      (current_user : AuthUser) (env : Env) (s : State) :
  pool s = true ->
  may_reorder env current_user pid (db s) ->
  reorder_playlist_sounds pid sound_ids current_user env s
  = (Return true,
     mkState (set_playlist_sounds (db s)
                (map (reordered pid sound_ids 1) (playlist_sounds (db s))))
             (bucket s) (pool s)).
Proof.
  intros Hpool Hmay. unfold reorder_playlist_sounds, get_db.
  rewrite !bind_run. unfold pool_guard. rewrite Hpool.
  rewrite (reorder_loop_exact _ pid env sound_ids 1%Z s Hmay). rewrite Hpool. reflexivity.
Qed.

Lemma last_index_bound (sid : string) (ids : list string) :
  forall (start i : Z), last_index sid ids start = Some i -> (start <= i)%Z.
Proof.
  induction ids as [|x r IH]; intros start i H; simpl in H; [discriminate|].
  destruct (last_index sid r (start + 1)) as [j|] eqn:E.
  - inversion H; subst. apply IH in E. lia.
  - destruct (x =? sid); inversion H. lia.
Qed.

Lemma last_index_inj (a b : string) (ids : list string) :
  forall (start i : Z),
    last_index a ids start = Some i -> last_index b ids start = Some i -> a = b.
Proof.
  induction ids as [|x r IH]; intros start i Ha Hb; simpl in *; [discriminate|].
  destruct (last_index a r (start + 1)) as [ja|] eqn:Ea;
    destruct (last_index b r (start + 1)) as [jb|] eqn:Eb.
  - inversion Ha; inversion Hb; subst. eapply IH; eassumption.
  - inversion Ha; subst. apply last_index_bound in Ea.
    destruct (x =? b); inversion Hb. lia.
  - inversion Hb; subst. apply last_index_bound in Eb.
    destruct (x =? a); inversion Ha. lia.
  - destruct (x =? a) eqn:Xa; [|discriminate]. destruct (x =? b) eqn:Xb; [|discriminate].
    apply String.eqb_eq in Xa, Xb. congruence.
Qed.

Lemma last_index_some (sid : string) (ids : list string) (start : Z) :
  In sid ids -> exists i, last_index sid ids start = Some i.
Proof.
  revert start. induction ids as [|x r IH]; intros start Hin; simpl; [destruct Hin|].
  destruct (last_index sid r (start + 1)) as [j|] eqn:E; [eauto|].
  destruct Hin as [-> | Hin].
  - rewrite String.eqb_refl. eauto.
  - destruct (IH (start + 1)%Z Hin) as [i Hi]. congruence.
Qed.

Lemma ids_sorted_by_index (ids : list string) :
  NoDup ids -> StronglySorted (index_le ids) ids.
Proof.
  intros Hnd.
  assert (H : forall suf pre, ids = pre ++ suf -> StronglySorted (index_le ids) suf).
  { induction suf as [|a r IH]; intros pre E; constructor.
    - apply (IH (pre ++ [a])). rewrite <- app_assoc. exact E.
    - apply Forall_forall. intros b Hb.
      apply in_split in Hb. destruct Hb as [r1 [r2 Er]].
      assert (Ha : ~ In a r /\ ~ In b r2).
      { assert (Hsuf : NoDup (a :: r)).
        { rewrite E in Hnd. now apply NoDup_app_remove_l in Hnd. }
        apply NoDup_cons_iff in Hsuf. destruct Hsuf as [Hna Hr].
        split; [exact Hna|].
        rewrite Er in Hr. apply NoDup_remove_2 in Hr.
        intros Hin. apply Hr. apply in_or_app. now right. }
      destruct Ha as [Ha Hb2].
      unfold index_le.
      rewrite E at 2. rewrite (last_index_last a pre r 1%Z Ha).
      assert (E2 : ids = (pre ++ a :: r1) ++ b :: r2).
      { rewrite E, Er, <- app_assoc. reflexivity. }
      rewrite E2 at 1. rewrite (last_index_last b (pre ++ a :: r1) r2 1%Z Hb2).
      cbn [position_lt]. apply Z.ltb_ge. rewrite length_app. cbn [length]. lia. }
  apply (H ids []). reflexivity.
Qed.

Lemma sorted_perm_eq {A} (R : A -> A -> Prop) (l1 : list A) :
  forall l2,
    StronglySorted R l1 -> StronglySorted R l2 -> Permutation l1 l2 ->
    (forall a b, In a l1 -> In b l1 -> R a b -> R b a -> a = b) ->
    l1 = l2.
Proof.
  induction l1 as [|a r1 IH]; intros l2 H1 H2 Hp Hanti.
  - apply Permutation_nil in Hp. now subst.
  - destruct l2 as [|b r2]; [apply Permutation_sym, Permutation_nil in Hp; discriminate|].
    apply StronglySorted_inv in H1. destruct H1 as [Hr1 Ha].
    apply StronglySorted_inv in H2. destruct H2 as [Hr2 Hb].
    assert (Hab : a = b).
    { assert (Hb1 : In b (a :: r1))
        by (eapply Permutation_in; [symmetry; exact Hp | now left]).
      assert (Ha2 : In a (b :: r2)) by (eapply Permutation_in; [exact Hp | now left]).
      destruct Hb1 as [E | Hb1]; [exact E|].
      destruct Ha2 as [E | Ha2]; [now symmetry|].
      apply Hanti; [now left | now right | |].
      - rewrite Forall_forall in Ha. now apply Ha.
      - rewrite Forall_forall in Hb. now apply Hb. }
    subst b. f_equal. apply IH; auto.
    + eapply Permutation_cons_inv. exact Hp.
    + intros x y Hx Hy. apply Hanti; now right.
Qed.

Lemma sorted_map {A B} (R1 : A -> A -> Prop) (R2 : B -> B -> Prop) (f : A -> B)
      (l : list A) :
  StronglySorted R1 l ->
  (forall a b, In a l -> In b l -> R1 a b -> R2 (f a) (f b)) ->
  StronglySorted R2 (map f l).
Proof.
  induction l as [|a r IH]; intros Hs Hf; simpl; constructor.
  - apply StronglySorted_inv in Hs. destruct Hs as [Hr _].
    apply IH; [exact Hr|]. intros x y Hx Hy. apply Hf; now right.
  - apply StronglySorted_inv in Hs. destruct Hs as [_ Ha].
    apply Forall_map. rewrite Forall_forall in *. intros b Hb.
    apply Hf; [now left | now right | now apply Ha].
Qed.

Lemma row_le_position (a b : PlaylistSound * SoundTagsRow) :
  row_le a b = true ->
  position_lt (ps_position (fst b)) (ps_position (fst a)) = false.
Proof.
  unfold row_le, ordered_before, position_eq.
  destruct (ps_position (fst a)) as [x|], (ps_position (fst b)) as [y|]; simpl;
    try reflexivity.
  - destruct (Z.ltb_spec x y), (Z.ltb_spec y x); simpl; try reflexivity; try lia;
      try discriminate.
  - discriminate.
Qed.

Lemma reordered_ids (pid : string) (ids : list string) (start : Z) (ps : PlaylistSound) :
  ps_playlist_id (reordered pid ids start ps) = ps_playlist_id ps
  /\ ps_sound_id (reordered pid ids start ps) = ps_sound_id ps.
Proof.
  unfold reordered. destruct (ps_playlist_id ps =? pid); [|auto].
  destruct (last_index (ps_sound_id ps) ids start); auto.
Qed.

Lemma reordered_position (pid : string) (ids : list string) (start : Z) (ps : PlaylistSound) :
  ps_playlist_id ps = pid -> In (ps_sound_id ps) ids ->
  ps_position (reordered pid ids start ps) = last_index (ps_sound_id ps) ids start.
Proof.
  intros Hpid Hin. unfold reordered. rewrite Hpid, String.eqb_refl.
  destruct (last_index_some _ _ start Hin) as [i ->]. reflexivity.
Qed.

Lemma members_reordered (pid : string) (ids : list string) (start : Z)
      (l : list PlaylistSound) :
  map ps_sound_id (filter (fun ps => ps_playlist_id ps =? pid) (map (reordered pid ids start) l))
  = map ps_sound_id (filter (fun ps => ps_playlist_id ps =? pid) l).
Proof.
  induction l as [|ps r IH]; simpl; [reflexivity|].
  destruct (reordered_ids pid ids start ps) as [H1 H2]. rewrite H1.
  destruct (ps_playlist_id ps =? pid); simpl; [rewrite H2, IH; reflexivity | exact IH].
Qed.

Lemma filter_unique_sound (vis : Sound -> bool) (l : list Sound) (x : Sound) :
  NoDup (map sound_id l) -> In x l -> vis x = true ->
  filter (fun y => (sound_id y =? sound_id x) && vis y) l = [x].
Proof.
  induction l as [|y r IH]; intros Hnd Hin Hv; [destruct Hin|].
  simpl in Hnd. apply NoDup_cons_iff in Hnd. destruct Hnd as [Hny Hr].
  simpl. destruct Hin as [-> | Hin].
  - rewrite String.eqb_refl, Hv. simpl. f_equal.
    clear IH. induction r as [|z r IH]; simpl; [reflexivity|].
    destruct (sound_id z =? sound_id x) eqn:E.
    + apply String.eqb_eq in E. exfalso. apply Hny. simpl. now left.
    + simpl. apply IH.
      * intros H. apply Hny. simpl. now right.
      * simpl in Hr. now apply NoDup_cons_iff in Hr.
  - destruct (sound_id y =? sound_id x) eqn:E.
    + apply String.eqb_eq in E. exfalso. apply Hny. rewrite E. now apply in_map.
    + simpl. now apply IH.
Qed.

(** With one sound per id and everything of the playlist shown, the join
    has one row per membership, in table order. *)
Lemma playlist_join_rows (env : Env) (sc : Scope) (t : Tables) (pid : string) :
  NoDup (map sound_id (sounds t)) ->
  (forall ps, In ps (playlist_sounds t) -> ps_playlist_id ps = pid ->
              row_security env sc SELECT t (PlaylistSoundRow ps) = true) ->
  (forall ps, In ps (playlist_sounds t) -> ps_playlist_id ps = pid ->
              exists x, In x (sounds t) /\ sound_id x = ps_sound_id ps
                        /\ row_security env sc SELECT t (SoundRow x) = true) ->
  map (fun r => sound_id (fst (snd r))) (playlist_join env sc t pid) = members pid t
  /\ forall r, In r (playlist_join env sc t pid) ->
               In (fst r) (playlist_sounds t) /\ ps_playlist_id (fst r) = pid
               /\ sound_id (fst (snd r)) = ps_sound_id (fst r).
Proof.
  intros Hnd Hvis Hsound. unfold playlist_join, members. cbv zeta.
  induction (playlist_sounds t) as [|ps l IH].
  - simpl. split; [reflexivity | intros r []].
  - destruct IH as [IH1 IH2].
    + intros ps' Hin. apply Hvis. now right.
    + intros ps' Hin. apply Hsound. now right.
    + cbn [filter].
      destruct (ps_playlist_id ps =? pid) eqn:Epid; cbn [andb].
      * apply String.eqb_eq in Epid.
        rewrite (Hvis ps (or_introl eq_refl) Epid).
        destruct (Hsound ps (or_introl eq_refl) Epid) as [x [Hx [Hid Hsee]]].
        cbn [flat_map]. rewrite <- Hid.
        rewrite (filter_unique_sound (fun s => row_security env sc SELECT t (SoundRow s))
                                     (sounds t) x Hnd Hx Hsee).
        cbn [map app fst snd]. split.
        -- rewrite IH1, Hid. reflexivity.
        -- intros r [<- | Hr]; cbn [fst snd].
           ++ split; [now left|]. split; [exact Epid | exact Hid].
           ++ destruct (IH2 r Hr) as [H1 H2]. split; [now right | exact H2].
      * split; [exact IH1|].
        intros r Hr. destruct (IH2 r Hr) as [H1 H2]. split; [now right | exact H2].
Qed.

(** X26. Reordering, then reading, gives the requested order. When the
    policy lets the caller update the memberships of a playlist, the list
    sent to [reorder_playlist_sounds] has no id twice and names exactly the
    sounds of the playlist (one membership each, one sound per id), then a
    reader who is shown the playlist, its memberships and its sounds gets
    from [get_playlist] the sounds in the order of that list. *)
Theorem reorder_then_get_playlist
        (pid : string) (sound_ids : list string) (current_user : AuthUser)
        (reader : option AuthUser) (env : Env) (s : State) :
  pool s = true ->
  may_reorder env current_user pid (db s) ->
  NoDup sound_ids ->
  Permutation (members pid (db s)) sound_ids ->
  NoDup (map sound_id (sounds (db s))) ->
  (forall sid, In sid sound_ids -> exists x, In x (sounds (db s)) /\ sound_id x = sid) ->
  signing_works env ->
  let s1 := snd (reorder_playlist_sounds pid sound_ids current_user env s) in
  shows_playlist env (viewer_scope reader) (db s1) pid ->
  exists detail,
    get_playlist pid reader env s1 = (Return detail, s1)
    /\ map out_id (detail_sounds detail) = sound_ids.
Proof.
  intros Hpool Hmay Hnd Hmem Hsounds Hexist Hsign s1 Hshow.
  assert (Es1 : s1 = mkState (set_playlist_sounds (db s)
                                (map (reordered pid sound_ids 1) (playlist_sounds (db s))))
                             (bucket s) (pool s)).
  { subst s1. now rewrite (reorder_playlist_sounds_run pid sound_ids current_user env s). }
  assert (Hpool1 : pool s1 = true) by (rewrite Es1; exact Hpool).
  assert (Hmem1 : members pid (db s1) = members pid (db s)).
  { rewrite Es1. unfold members, set_playlist_sounds. cbn [db playlist_sounds].
    apply members_reordered. }
  assert (Hsounds1 : sounds (db s1) = sounds (db s)) by (rewrite Es1; reflexivity).
  destruct Hshow as [[p [Hp [Hpid Hpsee]]] [Hvis Hsee]].
  pose proof (get_playlist_run pid reader env s1 Hpool1) as Hrun. cbv zeta in Hrun.
  destruct (find (playlist_seen env reader pid (db s1)) (playlists (db s1))) as [p'|] eqn:Hfind.
  2:{ pose proof (find_none _ _ Hfind p Hp) as Hno. unfold playlist_seen in Hno.
      rewrite Hpid, String.eqb_refl, Hpsee in Hno. discriminate Hno. }
  destruct Hrun as [pm Hrun].
  destruct (sign_rows_returns
              (map snd (order_rows (playlist_join env (viewer_scope reader) (db s1) pid)))
              pm env s1 Hsign) as [outs Hsigned].
  rewrite Hsigned in Hrun.
  eexists. split; [exact Hrun|]. cbn [detail_sounds].
  rewrite (sign_rows_ids _ _ _ _ _ _ Hsigned), map_map.
  destruct (playlist_join_rows env (viewer_scope reader) (db s1) pid) as [Hkeys Hrows].
  { rewrite Hsounds1. exact Hsounds. }
  { exact Hvis. }
  { intros ps Hin Hps.
    assert (Hm : In (ps_sound_id ps) (members pid (db s1))).
    { unfold members. apply in_map. apply filter_In. split; [exact Hin|].
      rewrite Hps. apply String.eqb_refl. }
    assert (Hid : In (ps_sound_id ps) sound_ids).
    { eapply Permutation_in; [exact Hmem|]. now rewrite <- Hmem1. }
    destruct (Hexist _ Hid) as [x [Hx Ex]].
    exists x. rewrite Hsounds1. split; [exact Hx|]. split; [exact Ex|].
    apply Hsee; [rewrite Hsounds1; exact Hx | rewrite Ex; exact Hm]. }
  set (J := playlist_join env (viewer_scope reader) (db s1) pid) in *.
  change (fun x : PlaylistSound * SoundTagsRow => sound_id (fst (snd x)))
    with (fun r : PlaylistSound * SoundTagsRow => sound_id (fst (snd r))).
  assert (Hperm : Permutation (map (fun r => sound_id (fst (snd r))) (order_rows J))
                              sound_ids).
  { eapply Permutation_trans; [apply Permutation_map, order_rows_perm|].
    rewrite Hkeys, Hmem1. exact Hmem. }
  assert (Hpos : forall r, In r (order_rows J) ->
                           ps_position (fst r)
                           = last_index (sound_id (fst (snd r))) sound_ids 1).
  { intros r Hr.
    assert (HrJ : In r J) by (eapply Permutation_in; [apply order_rows_perm | exact Hr]).
    destruct (Hrows r HrJ) as [Hin [Hps Hkey]].
    rewrite Es1 in Hin. unfold set_playlist_sounds in Hin. cbn [db playlist_sounds] in Hin.
    apply in_map_iff in Hin. destruct Hin as [ps0 [E0 Hin0]].
    destruct (reordered_ids pid sound_ids 1 ps0) as [I1 I2].
    rewrite E0 in I1, I2.
    rewrite Hkey, I2, <- E0. apply reordered_position; [congruence|].
    eapply Permutation_in; [exact Hmem|].
    unfold members. apply in_map. apply filter_In. split; [exact Hin0|].
    rewrite <- I1, Hps. apply String.eqb_refl. }
  apply (sorted_perm_eq (index_le sound_ids)).
  - apply (sorted_map (fun a b => row_le a b = true) (index_le sound_ids)
                      (fun r => sound_id (fst (snd r))) (order_rows J)
                      (order_rows_sorted J)).
    intros a b Ha Hb Hle. unfold index_le.
    rewrite <- (Hpos a Ha), <- (Hpos b Hb). now apply row_le_position.
  - now apply ids_sorted_by_index.
  - exact Hperm.
  - intros a b Ha Hb Hab Hba.
    assert (Ha' : In a sound_ids) by (eapply Permutation_in; [exact Hperm | exact Ha]).
    assert (Hb' : In b sound_ids) by (eapply Permutation_in; [exact Hperm | exact Hb]).
    destruct (last_index_some a sound_ids 1 Ha') as [i Hi].
    destruct (last_index_some b sound_ids 1 Hb') as [j Hj].
    unfold index_le in Hab, Hba. rewrite Hi, Hj in Hab, Hba. cbn [position_lt] in Hab, Hba.
    apply Z.ltb_ge in Hab, Hba.
    assert (i = j) by lia. subst j.
    exact (last_index_inj a b sound_ids 1 i Hi Hj).
Qed.

Lemma reorder_then_get_playlist_witness :
  let s1 := snd (reorder_playlist_sounds "P" ["C"; "A"; "B"] alice example_env abc_state) in
  exists detail,
    get_playlist "P" (Some alice) example_env s1 = (Return detail, s1)
    /\ map out_id (detail_sounds detail) = ["C"; "A"; "B"].
Proof.
  apply (reorder_then_get_playlist "P" ["C"; "A"; "B"] alice (Some alice) example_env abc_state).
  - reflexivity.
  - exact alice_may_reorder.
  - repeat constructor; simpl; intuition discriminate.
  - change (members "P" (db abc_state)) with ["A"; "B"; "C"].
    apply (Permutation_cons_app ["C"] ["B"]). apply perm_swap.
  - repeat constructor; simpl; intuition discriminate.
  - intros sid [<- | [<- | [<- | []]]]; eexists.
    + split; [do 2 right; left; reflexivity | reflexivity].
    + split; [left; reflexivity | reflexivity].
    + split; [right; left; reflexivity | reflexivity].
  - intros path. eexists. reflexivity.
  - split; [|split].
    + eexists. split; [left; reflexivity|]. split; reflexivity.
    + intros ps Hin _. vm_compute in Hin.
      destruct Hin as [<- | [<- | [<- | []]]]; reflexivity.
    + intros x Hin _. vm_compute in Hin.
      destruct Hin as [<- | [<- | [<- | []]]]; reflexivity.
Defined.

(** ** Profiles looked up for a response *)

Lemma dedup_In (x : string) (ids : list string) : In x (dedup ids) <-> In x ids.
Proof.
  induction ids as [|i r IH]; simpl; [tauto|].
  destruct (existsb (String.eqb i) r) eqn:E.
  - rewrite IH. split; [now right|]. intros [<- | H]; [|exact H].
    apply existsb_exists in E. destruct E as [y [Hy Ey]].
    apply String.eqb_eq in Ey. now subst y.
  - simpl. now rewrite IH.
Qed.

(** X27. For ids that are uuid texts (or empty), [fetch_profiles] only
    reads, and an empty list of ids needs no pool. In the map it returns,
    the profile under a key is a stored profile with that id, and the key is
    one of the ids asked for and not empty; every stored profile with an
    asked, non-empty id that the policy shows to the service handle is in
    the map. *)
Theorem fetch_profiles_by_id (profile_ids : list string) (env : Env) (s : State) :
  uuid_ids profile_ids ->
  let r := fetch_profiles profile_ids env s in
  snd r = s
  /\ fetch_profiles [] env s = (Return [], s)
  /\ forall profile_map,
       fst r = Return profile_map ->
       (forall key p,
           dict_get key profile_map = Some p ->
           profile_id p = key /\ is_uuid_text key = true /\ In key profile_ids
           /\ In p (profiles (db s)))
       /\ (forall p,
              In p (profiles (db s)) -> In (profile_id p) profile_ids ->
              profile_id p <> "" ->
              row_security env ServiceScope SELECT (db s) (ProfileRow p) = true ->
              exists q, dict_get (profile_id p) profile_map = Some q).
Proof.
  intros Huuid r. subst r.
  split; [|split; [reflexivity|]].
  - pose proof (reads_only_fetch_profiles profile_ids env s) as Hdb.
    pose proof (database_only_fetch_profiles profile_ids env s) as [Hb Hp].
    destruct (snd (fetch_profiles profile_ids env s)) as [d b p], s as [d0 b0 p0].
    cbn [db bucket pool] in *. congruence.
  - intros pm Hrun.
    destruct profile_ids as [|i0 r0].
    { cbn in Hrun. inversion Hrun; subst pm. split.
      - intros key p H. discriminate H.
      - intros p _ []. }
    set (ids := i0 :: r0) in *.
    assert (Epm : pm = filter (fun p => existsb (String.eqb (profile_id p))
                                                (dedup (filter (fun pid => negb (PyStr.is_empty pid))
                                                               ids))
                                        && row_security env ServiceScope SELECT (db s)
                                                        (ProfileRow p))
                              (profiles (db s))).
    { unfold fetch_profiles in Hrun. subst ids. cbv iota beta zeta in Hrun.
      unfold get_service_db, pool_guard, bind, get_tables, ask, ret in Hrun.
      destruct (pool s); cbn [fst snd] in Hrun; [|discriminate Hrun].
      inversion Hrun. reflexivity. }
    assert (Hasked : forall p,
               existsb (String.eqb (profile_id p))
                       (dedup (filter (fun pid => negb (PyStr.is_empty pid)) ids)) = true
               <-> In (profile_id p) ids /\ profile_id p <> "").
    { intros p. rewrite existsb_exists. split.
      - intros [y [Hy Ey]]. apply String.eqb_eq in Ey. subst y.
        apply dedup_In, filter_In in Hy. destruct Hy as [Hin Hne].
        split; [exact Hin|]. intros E. rewrite E in Hne. discriminate Hne.
      - intros [Hin Hne]. exists (profile_id p). split; [|apply String.eqb_refl].
        apply dedup_In, filter_In. split; [exact Hin|].
        destruct (profile_id p); [congruence | reflexivity]. }
    split.
    + intros key p Hget. unfold dict_get in Hget.
      apply find_some in Hget. destruct Hget as [Hin Hkey].
      apply String.eqb_eq in Hkey. apply in_rev in Hin.
      rewrite Epm in Hin. apply filter_In in Hin. destruct Hin as [Hp Hok].
      apply andb_prop in Hok. destruct Hok as [Hok _].
      apply Hasked in Hok. destruct Hok as [Hi Hne].
      subst key. split; [reflexivity|]. split; [|auto].
      unfold uuid_ids in Huuid. rewrite Forall_forall in Huuid.
      destruct (Huuid _ Hi) as [E | E]; [contradiction | exact E].
    + intros p Hin Hid Hne Hsee.
      unfold dict_get.
      destruct (find (fun q => profile_id q =? profile_id p) (rev pm)) as [q|] eqn:Hfind;
        [eauto|].
      exfalso.
      assert (Hp : In p (rev pm)).
      { apply in_rev. rewrite rev_involutive, Epm. apply filter_In. split; [exact Hin|].
        rewrite Hsee, andb_true_r. apply Hasked. auto. }
      pose proof (find_none _ _ Hfind p Hp) as Hno. cbv beta in Hno.
      rewrite String.eqb_refl in Hno. discriminate Hno.
Qed.

Lemma fetch_profiles_by_id_witness :
  uuid_ids [user_id alice; ""; user_id bob]
  /\ exists profile_map q,
       fst (fetch_profiles [user_id alice; ""; user_id bob] example_env abc_state)
       = Return profile_map
       /\ dict_get (user_id alice) profile_map = Some q
       /\ dict_get (user_id bob) profile_map = None.
Proof.
  assert (Hu : uuid_ids [user_id alice; ""; user_id bob]).
  { constructor; [right; reflexivity|]. constructor; [left; reflexivity|].
    constructor; [right; reflexivity | constructor]. }
  split; [exact Hu|].
  assert (H : fst (fetch_profiles [user_id alice; ""; user_id bob] example_env abc_state)
              = Return [mkProfile (user_id alice) (Some "alice-liddell-a11ce0") (Some "Alice")
                                  None])
    by (vm_compute; reflexivity).
  destruct (fetch_profiles_by_id [user_id alice; ""; user_id bob] example_env abc_state Hu)
    as [_ [_ Hmap]].
  destruct (Hmap _ H) as [_ Hall].
  destruct (Hall (mkProfile (user_id alice) (Some "alice-liddell-a11ce0") (Some "Alice") None))
    as [q Hq].
  - left. reflexivity.
  - left. reflexivity.
  - discriminate.
  - reflexivity.
  - eexists. exists q. split; [exact H|]. split; [exact Hq | reflexivity].
Defined.
